(** * Name Guard: a shallow embedding of [name_guard_v2.py] and [name_guard.py]

    Chinese personal-name detection for subtitle text.  Python strings are
    sequences of Unicode code points and are modelled as lists of integers;
    Python [int] is [Z]; a [dict] is an association list in insertion order;
    a [set] of strings is a list that is only ever queried for membership or
    by an [any]-style scan, so its iteration order never shows. *)

From Stdlib Require Import ZArith List Bool Lia Permutation.
Import ListNotations.
Open Scope Z_scope.

(* ================================================================== *)
(** * Part I: definitions                                              *)
(* ================================================================== *)

(** ** Strings *)

Definition char := Z.
Definition str := list char.

Definition len {A : Type} (s : list A) : Z := Z.of_nat (length s).

Fixpoint str_eqb (a b : str) : bool :=
  match a, b with
  | [], [] => true
  | x :: a', y :: b' => (x =? y) && str_eqb a' b'
  | _, _ => false
  end.

(** [w in collection] for a list or set of strings. *)
Definition mem (w : str) (l : list str) : bool := existsb (str_eqb w) l.

(** [s.startswith(p)]. *)
Fixpoint startswith (s p : str) : bool :=
  match p, s with
  | [], _ => true
  | y :: p', x :: s' => (x =? y) && startswith s' p'
  | _ :: _, [] => false
  end.

(** [s.endswith(e)]. *)
Definition endswith (s e : str) : bool := startswith (rev s) (rev e).

(** [sub in s] on strings: [sub] occurs somewhere in [s]. *)
Fixpoint contains (s sub : str) : bool :=
  startswith s sub ||
  match s with
  | [] => false
  | _ :: s' => contains s' sub
  end.

(** [s.count(sub)] for a non-empty [sub]: occurrences are counted left to
    right without overlap; [skip] is the number of characters of the last
    occurrence that are still to be stepped over. *)
Fixpoint count_from (s sub : str) (skip : nat) : Z :=
  match s with
  | [] => 0
  | _ :: s' =>
      match skip with
      | S k => count_from s' sub k
      | O => if startswith s sub
             then 1 + count_from s' sub (pred (length sub))
             else count_from s' sub O
      end
  end.

(** [s.count(sub)]; the empty string is counted [len(s) + 1] times. *)
Definition count (s sub : str) : Z :=
  match sub with
  | [] => len s + 1
  | _ => count_from s sub O
  end.

(** Python slices [s[:i]] and [s[j:]], with negative indices counted from
    the end and every index clamped to the string. *)
Definition norm_index (s : str) (i : Z) : nat :=
  if i <? 0 then Z.to_nat (Z.max 0 (len s + i)) else Z.to_nat i.

Definition slice_to (s : str) (i : Z) : str := firstn (norm_index s i) s.
Definition slice_from (s : str) (j : Z) : str := skipn (norm_index s j) s.

(** [s[i:j]]. *)
Definition slice (s : str) (i j : Z) : str :=
  firstn (norm_index s j - norm_index s i) (skipn (norm_index s i) s).

(** ** Dictionaries in insertion order *)

Section Dict.
Context {V : Type}.

Fixpoint dict_get (d : list (str * V)) (k : str) : option V :=
  match d with
  | [] => None
  | (k', v) :: d' => if str_eqb k k' then Some v else dict_get d' k
  end.

(** [d[k] = v]: an existing key keeps its position, a new key goes last. *)
Fixpoint dict_set (d : list (str * V)) (k : str) (v : V) : list (str * V) :=
  match d with
  | [] => [(k, v)]
  | (k', v') :: d' =>
      if str_eqb k k' then (k', v) :: d' else (k', v') :: dict_set d' k v
  end.
End Dict.

(** ** Configuration ([NameGuardConfig], optimized version) *)

Record NameGuardConfig := {
  threshold : Z;
  (** [name_placeholder_format.format(index=i)], as a function of [i]: the
      template is one that [format] accepts, and what it renders for each
      index is all the code reads of it; a template that [format] rejects
      is the matter of [Exn] below *)
  name_placeholder_format : Z -> str;
  require_strong_signal : bool;

  honorific_suffix_weight : Z;
  honorific_prefix_weight : Z;
  call_position_weight : Z;
  repetition_weight : Z;
  pos_exclusion_weight : Z;
  length_structure_weight : Z;

  honorific_suffix_patterns : list str;
  honorific_prefix_patterns : list str;
  repetition_min_occurrences : Z;
  pos_exclusion_words : list str;
  length_preferred : list Z;
  length_exclude_endings : list str;

  interjections : list str;
  action_verbs : list str;
  pronouns : list str;
  numbers_quantifiers : list str;
  kinship_roles : list str;

  known_names : list str;
  exclude_names : list str
}.

(** ** Gate 1: strong exclusion *)

Definition is_strongly_excluded (cfg : NameGuardConfig) (word : str) : bool :=
  if mem word (interjections cfg) then true
  else if existsb (fun intj => (2 <=? len intj) && contains word intj)
                  (interjections cfg) then true
  else if (2 <=? len word)
          && existsb (fun verb => startswith word verb) (action_verbs cfg)
       then true
  else if existsb (fun pronoun => contains word pronoun) (pronouns cfg) then true
  else if existsb (fun num => contains word num) (numbers_quantifiers cfg)
       then true
  else if mem word (kinship_roles cfg) then true
  else false.

(** ** Scoring *)

Definition occurrence_cache := list (str * Z).

(** Rule 3 reads the occurrence count through the cache, filling it on a
    miss: the count and the cache after the read. *)
Definition cached_count (context word : str) (cache : occurrence_cache)
  : Z * occurrence_cache :=
  match dict_get cache word with
  | Some n => (n, cache)
  | None => (count context word, dict_set cache word (count context word))
  end.

Definition in_2_3 (word_len : Z) : bool := (2 <=? word_len) && (word_len <=? 3).

(** [score_candidate]: the score, the strong-signal flag, and the cache as
    the call leaves it. *)
Definition score_candidate (cfg : NameGuardConfig) (word context : str)
    (is_call_position has_affix : bool) (cache : occurrence_cache)
  : Z * bool * occurrence_cache :=
  let score := 0 in
  let has_strong_signal := false in
  let word_len := len word in
  (* rule 1: prefix or suffix honorific *)
  let '(score, has_strong_signal) :=
    if has_affix then (score + honorific_suffix_weight cfg, true)
    else (score, has_strong_signal) in
  (* rule 2: call position *)
  let '(score, has_strong_signal) :=
    if is_call_position && (0 <? call_position_weight cfg)
    then (score + call_position_weight cfg,
          if in_2_3 word_len then true else has_strong_signal)
    else (score, has_strong_signal) in
  (* rule 3: repetition *)
  let '(score, has_strong_signal, cache) :=
    if 0 <? repetition_weight cfg then
      let '(occurrences, cache) := cached_count context word cache in
      if repetition_min_occurrences cfg <=? occurrences
      then (score + repetition_weight cfg,
            if in_2_3 word_len then true else has_strong_signal, cache)
      else (score, has_strong_signal, cache)
    else (score, has_strong_signal, cache) in
  (* rule 4: part-of-speech exclusion *)
  let score :=
    if mem word (pos_exclusion_words cfg)
    then score + pos_exclusion_weight cfg else score in
  (* rule 5: length structure *)
  let score :=
    if existsb (Z.eqb word_len) (length_preferred cfg) then
      let exclude_ending :=
        existsb (fun e => endswith word e) (length_exclude_endings cfg) in
      if negb exclude_ending then score + length_structure_weight cfg else score
    else score in
  (score, has_strong_signal, cache).

(** [is_name]: the verdict, the score, and the cache as the call leaves it. *)
Definition is_name (cfg : NameGuardConfig) (word context : str)
    (is_call_position has_affix : bool) (cache : occurrence_cache)
  : bool * Z * occurrence_cache :=
  if mem word (known_names cfg) then (true, 999, cache)
  else if is_strongly_excluded cfg word then (false, -999, cache)
  else if mem word (exclude_names cfg) then (false, -999, cache)
  else
    let '(score, has_strong_signal, cache) :=
      score_candidate cfg word context is_call_position has_affix cache in
    if require_strong_signal cfg && negb has_strong_signal
    then (false, 0, cache)
    else (threshold cfg <=? score, score, cache).

(** ** Candidates and their priority *)

(** The source keeps [affix_type] as one of the strings ["prefix"],
    ["suffix"] and [""]. *)
Inductive AffixType := NoAffix | Prefix | Suffix.

Record NameCandidate := {
  name : str;              (* the name, without prefix or suffix *)
  start : Z;               (* start of the name inside the part *)
  end_ : Z;                (* end of the name inside the part ([end]) *)
  score : Z;
  has_affix : bool;
  affix_type : AffixType;
  affix : str
}.

Definition priority (c : NameCandidate) : Z * Z * Z :=
  (if has_affix c then 1 else 0, score c, - start c).

(** Python's order on triples of integers. *)
Definition tuple_ltb (p q : Z * Z * Z) : bool :=
  let '(a1, b1, c1) := p in
  let '(a2, b2, c2) := q in
  if a1 =? a2 then (if b1 =? b2 then c1 <? c2 else b1 <? b2) else a1 <? a2.

(** ** Stable sorting

    [sorted] is stable, also with [reverse=True]: elements whose keys are
    equal keep their input order.  [before y x] says that [y] sorts strictly
    before [x]. *)
Fixpoint insert_by {A : Type} (before : A -> A -> bool) (x : A) (l : list A)
  : list A :=
  match l with
  | [] => [x]
  | y :: l' => if before y x then y :: insert_by before x l' else x :: l
  end.

Definition sorted_by {A : Type} (before : A -> A -> bool) (l : list A)
  : list A :=
  fold_right (insert_by before) [] l.

(** In a sorted list no element sorts strictly before one that stands
    earlier. *)
Definition in_order {A : Type} (before : A -> A -> bool) (a b : A) : Prop :=
  before b a = false.

(** With [reverse=True], [y] sorts strictly before [x] when its key is
    strictly greater. *)
Definition before_priority (y x : NameCandidate) : bool :=
  tuple_ltb (priority x) (priority y).

(** [sorted(candidates, key=lambda c: c.priority, reverse=True)] *)
Definition sorted_candidates (candidates : list NameCandidate)
  : list NameCandidate :=
  sorted_by before_priority candidates.

(** ** Overlap resolution *)

Definition overlaps (candidate : NameCandidate) (used_ranges : list (Z * Z))
  : bool :=
  existsb (fun '(s, e) => (start candidate <? e) && (end_ candidate >? s))
          used_ranges.

Fixpoint select_loop (cs selected : list NameCandidate)
    (used_ranges : list (Z * Z)) : list NameCandidate :=
  match cs with
  | [] => selected
  | candidate :: cs' =>
      if overlaps candidate used_ranges
      then select_loop cs' selected used_ranges
      else select_loop cs' (selected ++ [candidate])
                       (used_ranges ++ [(start candidate, end_ candidate)])
  end.

Definition _select_non_overlapping (candidates : list NameCandidate)
  : list NameCandidate :=
  match candidates with
  | [] => []
  | _ => select_loop (sorted_candidates candidates) [] []
  end.

(** ** The honorific patterns *)

Definition is_cjk (c : char) : bool := (19968 <=? c) && (c <=? 40959).

(** [sorted(patterns, key=len, reverse=True)] *)
Definition sorted_by_len_desc (patterns : list str) : list str :=
  sorted_by (fun y x => len x <? len y) patterns.

(** [$] without flags: the end of the string, or just before a newline that
    ends the string. *)
Definition at_dollar (rest : str) : bool :=
  match rest with
  | [] => true
  | [c] => c =? 10
  | _ => false
  end.

(** How many of the first [max] characters of [w] are CJK, stopping at the
    first that is not. *)
Fixpoint cjk_prefix_len (w : str) (max : nat) : nat :=
  match max, w with
  | S m, c :: w' => if is_cjk c then S (cjk_prefix_len w' m) else O
  | _, _ => O
  end.

(** The alternation [(s1|s2|...)] followed by [$]: the first alternative that
    matches at the start of [rest] and brings the match to [$]. *)
Fixpoint match_alt_dollar (alts : list str) (rest : str) : option str :=
  match alts with
  | [] => None
  | a :: alts' =>
      if startswith rest a && at_dollar (skipn (length a) rest) then Some a
      else match_alt_dollar alts' rest
  end.

(** [^([CJK]{1,3})(s1|s2|...)$]: the greedy group gives characters back one
    at a time, from [k] down to one. *)
Fixpoint suffix_backtrack (alts : list str) (word : str) (k : nat)
  : option (str * str) :=
  match k with
  | O => None
  | S k' =>
      match match_alt_dollar alts (skipn k word) with
      | Some a => Some (firstn k word, a)
      | None => suffix_backtrack alts word k'
      end
  end.

(** [_extract_from_suffix_word]: [(name, suffix)]. *)
Definition _extract_from_suffix_word (cfg : NameGuardConfig) (word : str)
  : option (str * str) :=
  match sorted_by_len_desc (honorific_suffix_patterns cfg) with
  | [] => None
  | sorted_suffixes =>
      suffix_backtrack sorted_suffixes word (cjk_prefix_len word 3)
  end.

(** [([CJK]{1,2})$] on what follows the prefix. *)
Fixpoint prefix_backtrack (rest : str) (k : nat) : option str :=
  match k with
  | O => None
  | S k' =>
      if at_dollar (skipn k rest) then Some (firstn k rest)
      else prefix_backtrack rest k'
  end.

(** [^(p1|p2|...)([CJK]{1,2})$]: [(name, prefix)] for the first prefix
    alternative that leads to a match. *)
Fixpoint prefix_alternatives (alts : list str) (word : str)
  : option (str * str) :=
  match alts with
  | [] => None
  | p :: alts' =>
      if startswith word p then
        let rest := skipn (length p) word in
        match prefix_backtrack rest (cjk_prefix_len rest 2) with
        | Some name_part => Some (name_part, p)
        | None => prefix_alternatives alts' word
        end
      else prefix_alternatives alts' word
  end.

(** [_extract_from_prefix_word]: [(name, prefix)]. *)
Definition _extract_from_prefix_word (cfg : NameGuardConfig) (word : str)
  : option (str * str) :=
  match sorted_by_len_desc (honorific_prefix_patterns cfg) with
  | [] => None
  | sorted_prefixes => prefix_alternatives sorted_prefixes word
  end.

(** ** Candidate extraction *)

(** [BOUNDARY_CHARS]: full-width and ASCII punctuation, space, tab, newline. *)
Definition BOUNDARY_CHARS : list char :=
  [65292; 12290; 65281; 65311; 12289; 65307; 65306;
   44; 46; 33; 63; 59; 58; 32; 9; 10].

(** [c in BOUNDARY_CHARS], where [c] may be [None]. *)
Definition in_boundary (c : option char) : bool :=
  match c with
  | Some x => existsb (Z.eqb x) BOUNDARY_CHARS
  | None => false
  end.

(** [text[i]]: a negative index counts from the end.  An index out of range
    raises [IndexError] in Python and reads as [None] here; the guards of
    [_is_at_boundary] keep every index the extractor reads in range. *)
Definition char_at (text : str) (i : Z) : option char :=
  if i <? 0
  then (if len text + i <? 0 then None
        else nth_error text (Z.to_nat (len text + i)))
  else nth_error text (Z.to_nat i).

Definition _is_at_boundary (text : str) (start_ end__ : Z) : bool :=
  let at_start := start_ =? 0 in
  let at_end := end__ =? len text in
  let char_before := if start_ >? 0 then char_at text (start_ - 1) else None in
  let char_after := if end__ <? len text then char_at text end__ else None in
  let before_is_boundary := at_start || in_boundary char_before in
  let after_is_boundary := at_end || in_boundary char_after in
  before_is_boundary || after_is_boundary.

(** The longest run of CJK characters at the start of [s]. *)
Fixpoint span_cjk (s : str) : str :=
  match s with
  | c :: s' => if is_cjk c then c :: span_cjk s' else []
  | [] => []
  end.

(** [CHINESE_PATTERN.finditer]: the maximal CJK runs of [s], left to right,
    each with its start offset.  [pos] is the offset of [s] in the whole
    string and [skip] what is left of the run found last. *)
Fixpoint finditer_from (s : str) (pos : Z) (skip : nat) : list (Z * str) :=
  match s with
  | [] => []
  | c :: s' =>
      match skip with
      | S k => finditer_from s' (pos + 1) k
      | O => if is_cjk c
             then (pos, span_cjk s)
                    :: finditer_from s' (pos + 1) (pred (length (span_cjk s)))
             else finditer_from s' (pos + 1) O
      end
  end.

Definition finditer (part : str) : list (Z * str) := finditer_from part 0 O.

Definition extraction_state : Type := list NameCandidate * occurrence_cache.

(** The body of the two nested loops, for the word of [length] characters at
    offset [i] of the run [segment]. *)
Definition visit_word (cfg : NameGuardConfig) (part full_context : str)
    (segment_start : Z) (segment : str) (length i : nat)
    (st : extraction_state) : extraction_state :=
  let '(candidates, cache) := st in
  let word := firstn length (skipn i segment) in
  let word_start := segment_start + Z.of_nat i in
  let word_end := word_start + Z.of_nat length in
  let is_call_pos := word_start =? 0 in
  match _extract_from_suffix_word cfg word with
  | Some (name_part, suffix) =>
      let name_start := word_start in
      let name_end := word_start + len name_part in
      let '(is_nm, sc, cache) :=
        is_name cfg name_part full_context is_call_pos true cache in
      if is_nm
      then (candidates ++
              [{| name := name_part; start := name_start; end_ := name_end;
                  score := sc; has_affix := true;
                  affix_type := Suffix; affix := suffix |}], cache)
      else (candidates, cache)
  | None =>
      match _extract_from_prefix_word cfg word with
      | Some (name_part, prefix) =>
          let name_start := word_start + len prefix in
          let name_end := word_end in
          let '(is_nm, sc, cache) :=
            is_name cfg name_part full_context is_call_pos true cache in
          if is_nm
          then (candidates ++
                  [{| name := name_part; start := name_start; end_ := name_end;
                      score := sc; has_affix := true;
                      affix_type := Prefix; affix := prefix |}], cache)
          else (candidates, cache)
      | None =>
          if (1 <=? Z.of_nat length) && (Z.of_nat length <=? 3) then
            if negb (_is_at_boundary part word_start word_end)
            then (candidates, cache)
            else
              let '(is_nm, sc, cache) :=
                is_name cfg word full_context is_call_pos false cache in
              if is_nm
              then (candidates ++
                      [{| name := word; start := word_start; end_ := word_end;
                          score := sc; has_affix := false;
                          affix_type := NoAffix; affix := [] |}], cache)
              else (candidates, cache)
          else (candidates, cache)
      end
  end.

(** [range(min(4, len(segment)), 0, -1)] *)
Definition lengths_of (segment : str) : list nat :=
  rev (seq 1 (Nat.min 4 (List.length segment))).

(** [range(len(segment) - length + 1)] *)
Definition offsets_of (segment : str) (length : nat) : list nat :=
  seq 0 (List.length segment - length + 1).

Definition scan_segment (cfg : NameGuardConfig) (part full_context : str)
    (st : extraction_state) (m : Z * str) : extraction_state :=
  let '(segment_start, segment) := m in
  fold_left
    (fun st length =>
       fold_left
         (fun st i =>
            visit_word cfg part full_context segment_start segment length i st)
         (offsets_of segment length) st)
    (lengths_of segment) st.

(** [_extract_candidates_from_part]: the candidates, and the occurrence
    cache as the call leaves it.  [is_first_part] is not read. *)
Definition _extract_candidates_from_part (cfg : NameGuardConfig)
    (part full_context : str) (is_first_part : bool)
    (cache : occurrence_cache) : extraction_state :=
  fold_left (scan_segment cfg part full_context) (finditer part) ([], cache).

(** ** Splitting and joining *)

(** [s.split(sep)] for a non-empty [sep]: [cur] is the piece being read and
    [skip] what is left of the separator found last. *)
Fixpoint split_from (s sep cur : str) (skip : nat) : list str :=
  match s with
  | [] => [cur]
  | c :: s' =>
      match skip with
      | S k => split_from s' sep cur k
      | O => if startswith s sep
             then cur :: split_from s' sep [] (pred (length sep))
             else split_from s' sep (cur ++ [c]) O
      end
  end.

(** [s.split(sep)]; an empty separator raises [ValueError]. *)
Definition split (s sep : str) : option (list str) :=
  match sep with
  | [] => None
  | _ => Some (split_from s sep [] O)
  end.

(** [sep.join(parts)] *)
Fixpoint join (sep : str) (parts : list str) : str :=
  match parts with
  | [] => []
  | [p] => p
  | p :: rest => p ++ sep ++ join sep rest
  end.

(** ** Placeholders and rewriting *)

(** The local variables of [extract_and_replace_names] that live across
    parts. *)
Record Locals := {
  name_map : list (str * str);              (* placeholder -> name *)
  name_to_placeholder : list (str * str);   (* name -> placeholder *)
  name_index : Z;
  cache_ : occurrence_cache;                (* [occurrence_cache] *)
  replaced_parts : list str;
  all_names : list str
}.

Definition replacement : Type := Z * Z * str.

(** The body of [for candidate in selected]. *)
Definition assign_placeholder (cfg : NameGuardConfig)
    (acc : Locals * list replacement) (candidate : NameCandidate)
  : Locals * list replacement :=
  let '(st, replacements) := acc in
  let nm := name candidate in
  match dict_get (name_to_placeholder st) nm with
  | Some placeholder =>
      (st, replacements ++ [(start candidate, end_ candidate, placeholder)])
  | None =>
      let placeholder := name_placeholder_format cfg (name_index st) in
      ({| name_map := dict_set (name_map st) placeholder nm;
          name_to_placeholder := dict_set (name_to_placeholder st) nm placeholder;
          name_index := name_index st + 1;
          cache_ := cache_ st;
          replaced_parts := replaced_parts st;
          all_names := all_names st ++ [nm] |},
       replacements ++ [(start candidate, end_ candidate, placeholder)])
  end.

(** [sorted(replacements, key=lambda x: -x[0])] *)
Definition sorted_replacements (replacements : list replacement)
  : list replacement :=
  sorted_by (fun y x => - fst (fst y) <? - fst (fst x)) replacements.

(** One step of the rewrite:
    [replaced_part[:start] + placeholder + replaced_part[end:]]. *)
Definition replace_span (replaced_part : str) (r : replacement) : str :=
  let '(s, e, placeholder) := r in
  slice_to replaced_part s ++ placeholder ++ slice_from replaced_part e.

Definition rewrite_part (part : str) (replacements : list replacement) : str :=
  fold_left replace_span (sorted_replacements replacements) part.

(** The body of [for part_idx, part in enumerate(parts)]. *)
Definition process_part (cfg : NameGuardConfig) (text : str) (part_idx : Z)
    (part : str) (st : Locals) : Locals :=
  let '(candidates, cache) :=
    _extract_candidates_from_part cfg part text (part_idx =? 0) (cache_ st) in
  let selected := _select_non_overlapping candidates in
  let st := {| name_map := name_map st;
               name_to_placeholder := name_to_placeholder st;
               name_index := name_index st;
               cache_ := cache;
               replaced_parts := replaced_parts st;
               all_names := all_names st |} in
  let '(st, replacements) :=
    fold_left (assign_placeholder cfg) selected (st, []) in
  let replaced_part := rewrite_part part replacements in
  {| name_map := name_map st;
     name_to_placeholder := name_to_placeholder st;
     name_index := name_index st;
     cache_ := cache_ st;
     replaced_parts := replaced_parts st ++ [replaced_part];
     all_names := all_names st |}.

Fixpoint parts_loop (cfg : NameGuardConfig) (text : str) (parts : list str)
    (part_idx : Z) (st : Locals) : Locals :=
  match parts with
  | [] => st
  | part :: rest =>
      parts_loop cfg text rest (part_idx + 1)
                 (process_part cfg text part_idx part st)
  end.

Definition initial_locals : Locals :=
  {| name_map := []; name_to_placeholder := []; name_index := 0;
     cache_ := []; replaced_parts := []; all_names := [] |}.

(** [extract_and_replace_names]: the rewritten text, the placeholder-to-name
    map and the names in first-seen order; [None] when [split] raises. *)
Definition extract_and_replace_names (cfg : NameGuardConfig)
    (text sep_marker : str) : option (str * list (str * str) * list str) :=
  match split text sep_marker with
  | None => None
  | Some parts =>
      let st := parts_loop cfg text parts 0 initial_locals in
      Some (join sep_marker (replaced_parts st), name_map st, all_names st)
  end.

(** ** When [format] raises

    The loop above reads the placeholders off a rendering [Z -> str], which
    is the case of a template that [str.format] accepts at every index.
    On another template, for instance one with a field other than
    [{index}], [name_placeholder_format.format(index=name_index)] raises
    [KeyError], [IndexError] or [ValueError], and nothing in
    [extract_and_replace_names] catches it.  A [template] is the outcome of
    that call for each index, [None] when it raises; in [Exn] the loops are
    the loops above with the call as the source has it, so the exception
    leaves them the way it does there. *)
Definition template : Type := Z -> option str.

Module Exn.

(** The body of [for candidate in selected]; [None] when [format] raises. *)
Definition assign_placeholder (t : template)
    (acc : Locals * list replacement) (candidate : NameCandidate)
  : option (Locals * list replacement) :=
  let '(st, replacements) := acc in
  let nm := name candidate in
  match dict_get (name_to_placeholder st) nm with
  | Some placeholder =>
      Some (st,
            replacements ++ [(start candidate, end_ candidate, placeholder)])
  | None =>
      match t (name_index st) with
      | None => None
      | Some placeholder =>
          Some ({| name_map := dict_set (name_map st) placeholder nm;
                   name_to_placeholder :=
                     dict_set (name_to_placeholder st) nm placeholder;
                   name_index := name_index st + 1;
                   cache_ := cache_ st;
                   replaced_parts := replaced_parts st;
                   all_names := all_names st ++ [nm] |},
                replacements
                  ++ [(start candidate, end_ candidate, placeholder)])
      end
  end.

(** [for candidate in selected]: the first exception ends the loop. *)
Fixpoint assign_loop (t : template) (selected : list NameCandidate)
    (acc : Locals * list replacement)
  : option (Locals * list replacement) :=
  match selected with
  | [] => Some acc
  | candidate :: rest =>
      match assign_placeholder t acc candidate with
      | None => None
      | Some acc' => assign_loop t rest acc'
      end
  end.

(** The body of [for part_idx, part in enumerate(parts)]. *)
Definition process_part (t : template) (cfg : NameGuardConfig) (text : str)
    (part_idx : Z) (part : str) (st : Locals) : option Locals :=
  let '(candidates, cache) :=
    _extract_candidates_from_part cfg part text (part_idx =? 0) (cache_ st) in
  let selected := _select_non_overlapping candidates in
  let st := {| name_map := name_map st;
               name_to_placeholder := name_to_placeholder st;
               name_index := name_index st;
               cache_ := cache;
               replaced_parts := replaced_parts st;
               all_names := all_names st |} in
  match assign_loop t selected (st, []) with
  | None => None
  | Some (st, replacements) =>
      let replaced_part := rewrite_part part replacements in
      Some {| name_map := name_map st;
              name_to_placeholder := name_to_placeholder st;
              name_index := name_index st;
              cache_ := cache_ st;
              replaced_parts := replaced_parts st ++ [replaced_part];
              all_names := all_names st |}
  end.

Fixpoint parts_loop (t : template) (cfg : NameGuardConfig) (text : str)
    (parts : list str) (part_idx : Z) (st : Locals) : option Locals :=
  match parts with
  | [] => Some st
  | part :: rest =>
      match process_part t cfg text part_idx part st with
      | None => None
      | Some st' => parts_loop t cfg text rest (part_idx + 1) st'
      end
  end.

(** [extract_and_replace_names]: [None] when [split] or [format] raises. *)
Definition extract_and_replace_names (t : template) (cfg : NameGuardConfig)
    (text sep_marker : str) : option (str * list (str * str) * list str) :=
  match split text sep_marker with
  | None => None
  | Some parts =>
      match parts_loop t cfg text parts 0 initial_locals with
      | None => None
      | Some st =>
          Some (join sep_marker (replaced_parts st), name_map st,
                all_names st)
      end
  end.

End Exn.

(** The template ["<<NAME_{idx}>>"]: [format(index=i)] raises [KeyError]
    for every [i]. *)
Definition raising_template : template := fun _ => None.

(** The template whose rendering a configuration holds. *)
Definition template_of (cfg : NameGuardConfig) : template :=
  fun i => Some (name_placeholder_format cfg i).

(** ** Concrete configurations used in examples *)

(** Decimal digits of a non-negative integer, most significant first. *)
Fixpoint decimal_digits (fuel : nat) (n : Z) (acc : str) : str :=
  match fuel with
  | O => acc
  | S f =>
      if n <? 10 then (48 + n) :: acc
      else decimal_digits f (n / 10) ((48 + n mod 10) :: acc)
  end.

(** [str(n)] *)
Definition decimal (n : Z) : str :=
  if n <? 0 then 45 :: decimal_digits (S (Z.to_nat (- n))) (- n) []
  else decimal_digits (S (Z.to_nat n)) n [].

(** ["<<NAME_{index}>>".format(index=i)] *)
Definition default_format (i : Z) : str :=
  [60; 60; 78; 65; 77; 69; 95] ++ decimal i ++ [62; 62].

(** The defaults of the [NameGuardConfig] dataclass. *)
Definition default_config : NameGuardConfig :=
  {| threshold := 100;
     name_placeholder_format := default_format;
     require_strong_signal := true;
     honorific_suffix_weight := 100;
     honorific_prefix_weight := 100;
     call_position_weight := 80;
     repetition_weight := 40;
     pos_exclusion_weight := -30;
     length_structure_weight := 10;
     honorific_suffix_patterns := [];
     honorific_prefix_patterns := [[32769]; [23567]; [38463]];
     repetition_min_occurrences := 2;
     pos_exclusion_words := [];
     length_preferred := [1; 2; 3];
     length_exclude_endings := [];
     interjections := [];
     action_verbs := [];
     pronouns := [];
     numbers_quantifiers := [];
     kinship_roles := [];
     known_names := [];
     exclude_names := [] |}.

Definition sep_default : str := [32; 60; 115; 101; 112; 62; 32].

(** ** The legacy implementation ([name_guard.py]): gates and scoring *)

Module V1.

Record NameGuardConfig := {
  threshold : Z;
  name_placeholder_format : Z -> str;
  render_strategy : str;
  require_strong_signal : bool;

  honorific_suffix_weight : Z;
  call_position_weight : Z;
  repetition_weight : Z;
  pos_exclusion_weight : Z;
  length_structure_weight : Z;

  honorific_suffix_patterns : list str;
  call_position_checks : list str;
  repetition_min_occurrences : Z;
  pos_exclusion_words : list str;
  length_preferred : list Z;
  length_exclude_endings : list str;

  interjections : list str;
  action_verbs : list str;
  pronouns : list str;
  numbers_quantifiers : list str;
  kinship_roles : list str;

  known_names : list str;
  exclude_names : list str
}.

(** The keys of the per-rule score details. *)
Inductive ScoreKey :=
| honorific_suffix_key | call_position_key | repetition_key
| pos_exclusion_key | length_structure_key
| known_name_key | strong_exclusion_key | exclude_name_key
| no_strong_signal_key.

Definition score_details : Type := list (ScoreKey * Z).

Definition score_word (cfg : NameGuardConfig) (word context : str)
    (position : Z) (is_utterance_start is_after_sep : bool)
  : Z * score_details :=
  let scores := [] in
  let total_score := 0 in
  let '(total_score, scores) :=
    if (0 <? honorific_suffix_weight cfg)
       && existsb (fun pattern => endswith word pattern)
                  (honorific_suffix_patterns cfg)
    then (total_score + honorific_suffix_weight cfg,
          scores ++ [(honorific_suffix_key, honorific_suffix_weight cfg)])
    else (total_score, scores) in
  let '(total_score, scores) :=
    if (0 <? call_position_weight cfg)
       && (is_utterance_start || is_after_sep)
    then (total_score + call_position_weight cfg,
          scores ++ [(call_position_key, call_position_weight cfg)])
    else (total_score, scores) in
  let '(total_score, scores) :=
    if (0 <? repetition_weight cfg)
       && (repetition_min_occurrences cfg <=? count context word)
    then (total_score + repetition_weight cfg,
          scores ++ [(repetition_key, repetition_weight cfg)])
    else (total_score, scores) in
  let '(total_score, scores) :=
    if (pos_exclusion_weight cfg <? 0) && mem word (pos_exclusion_words cfg)
    then (total_score + pos_exclusion_weight cfg,
          scores ++ [(pos_exclusion_key, pos_exclusion_weight cfg)])
    else (total_score, scores) in
  let '(total_score, scores) :=
    if (0 <? length_structure_weight cfg)
       && existsb (Z.eqb (len word)) (length_preferred cfg)
       && negb (existsb (fun ending => endswith word ending)
                        (length_exclude_endings cfg))
    then (total_score + length_structure_weight cfg,
          scores ++ [(length_structure_key, length_structure_weight cfg)])
    else (total_score, scores) in
  (total_score, scores).

Definition is_strongly_excluded (cfg : NameGuardConfig) (word : str) : bool :=
  if mem word (interjections cfg) then true
  else if existsb (fun interjection =>
                     contains word interjection && (2 <=? len interjection))
                  (interjections cfg) then true
  else if (2 <=? len word)
          && existsb (fun verb => startswith word verb) (action_verbs cfg)
       then true
  else if existsb (fun pronoun => contains word pronoun) (pronouns cfg)
       then true
  else if existsb (fun num => contains word num) (numbers_quantifiers cfg)
       then true
  else if mem word (kinship_roles cfg) then true
  else false.

Definition has_strong_signal (cfg : NameGuardConfig) (word context : str)
    (is_utterance_start is_after_sep has_suffix : bool) : bool :=
  let word_len := len word in
  if has_suffix then true
  else if existsb
            (fun pattern =>
               endswith word pattern && (2 <=? word_len) &&
               (let name_part := slice_to word (- len pattern) in
                (1 <=? len name_part) && (len name_part <=? 3)))
            (honorific_suffix_patterns cfg) then true
  else if in_2_3 word_len
          && (repetition_min_occurrences cfg <=? count context word)
       then true
  else if in_2_3 word_len && (is_utterance_start || is_after_sep) then true
  else false.

Definition is_name (cfg : NameGuardConfig) (word context : str)
    (position : Z) (is_utterance_start is_after_sep : bool)
    (skip_strong_signal_check : bool) : bool * Z * score_details :=
  if mem word (known_names cfg) then (true, 999, [(known_name_key, 999)])
  else if is_strongly_excluded cfg word
       then (false, -999, [(strong_exclusion_key, -999)])
  else if mem word (exclude_names cfg) && negb (mem word (known_names cfg))
       then (false, -999, [(exclude_name_key, -999)])
  else if require_strong_signal cfg && negb skip_strong_signal_check
          && negb (has_strong_signal cfg word context
                                     is_utterance_start is_after_sep false)
       then (false, 0, [(no_strong_signal_key, 0)])
  else
    let '(sc, scores) :=
      score_word cfg word context position is_utterance_start is_after_sep in
    (threshold cfg <=? sc, sc, scores).

(** *** The legacy [extract_and_replace_names] *)

(** The first [n] characters of [s] exist and are CJK. *)
Definition cjk_window (n : nat) (s : str) : bool :=
  (n <=? length s)%nat && forallb is_cjk (firstn n s).

(** [re.finditer('[一-鿿]{n}', part)] for [n >= 1]: windows of
    exactly [n] CJK characters, left to right, none overlapping another;
    [skip] is what is left of the window found last. *)
Fixpoint finditer_n (n : nat) (s : str) (pos : Z) (skip : nat)
  : list (Z * str) :=
  match s with
  | [] => []
  | _ :: s' =>
      match skip with
      | S k => finditer_n n s' (pos + 1) k
      | O => if cjk_window n s
             then (pos, firstn n s) :: finditer_n n s' (pos + 1) (pred n)
             else finditer_n n s' (pos + 1) O
      end
  end.

(** A candidate is the tuple
    [(word, start_pos, end_pos, score, has_suffix, part_idx)]. *)
Definition candidate : Type := str * Z * Z * Z * bool * Z.

(** The candidates and [processed_ranges], which is written and never
    read. *)
Definition round_state : Type := list candidate * list (Z * Z).

(** The body of the first round, for one window. *)
Definition first_round_visit (cfg : NameGuardConfig) (text : str)
    (part_idx : Z) (st : round_state) (m : Z * str) : round_state :=
  let '(candidates, processed_ranges) := st in
  let '(start_pos, word) := m in
  let end_pos := start_pos + len word in
  let is_utterance_start := part_idx =? 0 in
  let is_after_sep := part_idx >? 0 in
  match find (fun pattern => endswith word pattern)
             (honorific_suffix_patterns cfg) with
  | None => st
  | Some pattern =>
      let name_part := slice_to word (- len pattern) in
      match name_part with
      | [] => st
      | _ =>
          let '(is_nm, sc, scores) :=
            is_name cfg name_part text start_pos
                    (is_utterance_start && (start_pos =? 0))
                    (is_after_sep && (start_pos =? 0)) true in
          if is_nm then
            let name_end_pos := start_pos + len name_part in
            (candidates
               ++ [(name_part, start_pos, name_end_pos, sc, true, part_idx)],
             processed_ranges ++ [(start_pos, end_pos)])
          else st
      end
  end.

Definition first_round (cfg : NameGuardConfig) (text : str) (part_idx : Z)
    (part : str) (st : round_state) : round_state :=
  fold_left
    (fun st length =>
       fold_left (first_round_visit cfg text part_idx)
                 (finditer_n length part 0 O) st)
    [4; 3]%nat st.

(** [boundary_chars] of the second round: no ASCII punctuation. *)
Definition boundary_chars : list char :=
  [65292; 12290; 65281; 65311; 12289; 65307; 65306; 32; 9; 10].

(** [c and c in boundary_chars], where [c] is a character or [None]. *)
Definition in_boundary_chars (c : option char) : bool :=
  match c with
  | Some x => existsb (Z.eqb x) boundary_chars
  | None => false
  end.

(** The body of the second round, for one window. *)
Definition second_round_visit (cfg : NameGuardConfig) (text : str)
    (part_idx : Z) (part : str) (st : round_state) (m : Z * str)
  : round_state :=
  let '(candidates, processed_ranges) := st in
  let '(start_pos, word) := m in
  let end_pos := start_pos + len word in
  let is_utterance_start := part_idx =? 0 in
  let is_after_sep := part_idx >? 0 in
  let overlaps_with_candidates :=
    existsb (fun c : candidate =>
               let '(_, existing_start, existing_end, _, _, _) := c in
               (start_pos <? existing_end) && (end_pos >? existing_start))
            candidates in
  if overlaps_with_candidates then st
  else
    let has_suffix :=
      existsb (fun pattern => endswith word pattern)
              (honorific_suffix_patterns cfg) in
    if has_suffix then st
    else
      let is_at_start := start_pos =? 0 in
      let char_before :=
        if start_pos >? 0 then char_at part (start_pos - 1) else None in
      let char_after :=
        if end_pos <? len part then char_at part end_pos else None in
      let is_at_boundary :=
        is_at_start || in_boundary_chars char_before
        || in_boundary_chars char_after in
      if negb is_at_boundary && negb is_at_start then st
      else
        let is_after_sep_pos := is_after_sep && is_at_start in
        let '(is_nm, sc, scores) :=
          is_name cfg word text start_pos
                  (is_utterance_start && is_at_start) is_after_sep_pos
                  false in
        if is_nm
        then (candidates
                ++ [(word, start_pos, end_pos, sc, false, part_idx)],
              processed_ranges)
        else st.

Definition second_round (cfg : NameGuardConfig) (text : str) (part_idx : Z)
    (part : str) (st : round_state) : round_state :=
  fold_left
    (fun st length =>
       fold_left (second_round_visit cfg text part_idx part)
                 (finditer_n length part 0 O) st)
    [3; 2; 1]%nat st.

(** The candidates of a part as the two rounds leave them, before they are
    sorted. *)
Definition collect_candidates (cfg : NameGuardConfig) (text : str)
    (part_idx : Z) (part : str) : round_state :=
  second_round cfg text part_idx part
               (first_round cfg text part_idx part ([], [])).

(** The sort key [(-x[4], -x[3], x[1])]; [-True] is [-1]. *)
Definition sort_key (c : candidate) : Z * Z * Z :=
  let '(_, start_pos, _, sc, has_suffix, _) := c in
  (- (if has_suffix then 1 else 0), - sc, start_pos).

(** [candidates.sort(key=...)] *)
Definition sort_candidates (candidates : list candidate) : list candidate :=
  sorted_by (fun y x => tuple_ltb (sort_key y) (sort_key x)) candidates.

(** The local variables that live across parts. *)
Record Locals := {
  name_map : list (str * str);
  name_to_placeholder : list (str * str);
  name_index : Z;
  replaced_parts : list str
}.

(** The body of the loop over the sorted candidates. *)
Definition assign_placeholder (cfg : NameGuardConfig)
    (acc : Locals * list replacement * list (Z * Z)) (c : candidate)
  : Locals * list replacement * list (Z * Z) :=
  let '(st, replacements, processed_ranges) := acc in
  let '(word, start_pos, end_pos, _, _, _) := c in
  match dict_get (name_to_placeholder st) word with
  | Some placeholder =>
      (st, replacements ++ [(start_pos, end_pos, placeholder)],
       processed_ranges ++ [(start_pos, end_pos)])
  | None =>
      let placeholder := name_placeholder_format cfg (name_index st) in
      ({| name_map := dict_set (name_map st) placeholder word;
          name_to_placeholder :=
            dict_set (name_to_placeholder st) word placeholder;
          name_index := name_index st + 1;
          replaced_parts := replaced_parts st |},
       replacements ++ [(start_pos, end_pos, placeholder)],
       processed_ranges ++ [(start_pos, end_pos)])
  end.

(** [replacements.sort(key=lambda x: x[0], reverse=True)] *)
Definition sort_replacements (replacements : list replacement)
  : list replacement :=
  sorted_by (fun y x => fst (fst x) <? fst (fst y)) replacements.

(** The body of the loop over the parts. *)
Definition process_part (cfg : NameGuardConfig) (text : str) (part_idx : Z)
    (part : str) (st : Locals) : Locals :=
  let '(candidates, processed_ranges) :=
    collect_candidates cfg text part_idx part in
  let candidates := sort_candidates candidates in
  let '(st, replacements, processed_ranges) :=
    fold_left (assign_placeholder cfg) candidates
              (st, [], processed_ranges) in
  let replacements := sort_replacements replacements in
  let replaced_part := fold_left replace_span replacements part in
  {| name_map := name_map st;
     name_to_placeholder := name_to_placeholder st;
     name_index := name_index st;
     replaced_parts := replaced_parts st ++ [replaced_part] |}.

Fixpoint parts_loop (cfg : NameGuardConfig) (text : str) (parts : list str)
    (part_idx : Z) (st : Locals) : Locals :=
  match parts with
  | [] => st
  | part :: rest =>
      parts_loop cfg text rest (part_idx + 1)
                 (process_part cfg text part_idx part st)
  end.

(** The legacy [extract_and_replace_names]: the rewritten text and the
    placeholder-to-name map; [None] when [split] raises. *)
Definition extract_and_replace_names (cfg : NameGuardConfig)
    (text sep_marker : str) : option (str * list (str * str)) :=
  match split text sep_marker with
  | None => None
  | Some parts =>
      let st := parts_loop cfg text parts 0
                  {| name_map := []; name_to_placeholder := [];
                     name_index := 0; replaced_parts := [] |} in
      Some (join sep_marker (replaced_parts st), name_map st)
  end.

(** *** When [format] raises

    As in the optimized version, [name_placeholder_format.format(index=...)]
    is not guarded; [Exn] has the loops above with the outcome of the call,
    [None] when it raises. *)
Module Exn.

(** The body of the loop over the sorted candidates; [None] when [format]
    raises. *)
Definition assign_placeholder (t : template)
    (acc : Locals * list replacement * list (Z * Z)) (c : candidate)
  : option (Locals * list replacement * list (Z * Z)) :=
  let '(st, replacements, processed_ranges) := acc in
  let '(word, start_pos, end_pos, _, _, _) := c in
  match dict_get (name_to_placeholder st) word with
  | Some placeholder =>
      Some (st, replacements ++ [(start_pos, end_pos, placeholder)],
            processed_ranges ++ [(start_pos, end_pos)])
  | None =>
      match t (name_index st) with
      | None => None
      | Some placeholder =>
          Some ({| name_map := dict_set (name_map st) placeholder word;
                   name_to_placeholder :=
                     dict_set (name_to_placeholder st) word placeholder;
                   name_index := name_index st + 1;
                   replaced_parts := replaced_parts st |},
                replacements ++ [(start_pos, end_pos, placeholder)],
                processed_ranges ++ [(start_pos, end_pos)])
      end
  end.

(** The loop over the sorted candidates: the first exception ends it. *)
Fixpoint assign_loop (t : template) (candidates : list candidate)
    (acc : Locals * list replacement * list (Z * Z))
  : option (Locals * list replacement * list (Z * Z)) :=
  match candidates with
  | [] => Some acc
  | c :: rest =>
      match assign_placeholder t acc c with
      | None => None
      | Some acc' => assign_loop t rest acc'
      end
  end.

(** The body of the loop over the parts. *)
Definition process_part (t : template) (cfg : NameGuardConfig) (text : str)
    (part_idx : Z) (part : str) (st : Locals) : option Locals :=
  let '(candidates, processed_ranges) :=
    collect_candidates cfg text part_idx part in
  let candidates := sort_candidates candidates in
  match assign_loop t candidates (st, [], processed_ranges) with
  | None => None
  | Some (st, replacements, processed_ranges) =>
      let replacements := sort_replacements replacements in
      let replaced_part := fold_left replace_span replacements part in
      Some {| name_map := name_map st;
              name_to_placeholder := name_to_placeholder st;
              name_index := name_index st;
              replaced_parts := replaced_parts st ++ [replaced_part] |}
  end.

Fixpoint parts_loop (t : template) (cfg : NameGuardConfig) (text : str)
    (parts : list str) (part_idx : Z) (st : Locals) : option Locals :=
  match parts with
  | [] => Some st
  | part :: rest =>
      match process_part t cfg text part_idx part st with
      | None => None
      | Some st' => parts_loop t cfg text rest (part_idx + 1) st'
      end
  end.

(** The legacy [extract_and_replace_names]: [None] when [split] or
    [format] raises. *)
Definition extract_and_replace_names (t : template) (cfg : NameGuardConfig)
    (text sep_marker : str) : option (str * list (str * str)) :=
  match split text sep_marker with
  | None => None
  | Some parts =>
      match parts_loop t cfg text parts 0
              {| name_map := []; name_to_placeholder := [];
                 name_index := 0; replaced_parts := [] |} with
      | None => None
      | Some st => Some (join sep_marker (replaced_parts st), name_map st)
      end
  end.

End Exn.

End V1.

(** ** Predicates used to state the properties *)

(** Every count the cache holds is the count of its word in [context]; the
    empty cache is consistent and [cached_count] keeps a cache consistent. *)
Definition cache_consistent (context : str) (cache : occurrence_cache) : Prop :=
  forall w n, dict_get cache w = Some n -> n = count context w.

(** The half-open interval test of the overlap resolver, on two candidates. *)
Definition spans_overlap (a b : NameCandidate) : bool :=
  (start a <? end_ b) && (end_ a >? start b).

(** A configuration in which 王 is allow-listed, deny-listed, an
    interjection and a kinship role at once; strong signals are required. *)
Definition allow_deny_config : NameGuardConfig :=
  {| threshold := 100; name_placeholder_format := default_format;
     require_strong_signal := true;
     honorific_suffix_weight := 100; honorific_prefix_weight := 100;
     call_position_weight := 80; repetition_weight := 40;
     pos_exclusion_weight := -30; length_structure_weight := 10;
     honorific_suffix_patterns := []; honorific_prefix_patterns := [];
     repetition_min_occurrences := 2; pos_exclusion_words := [];
     length_preferred := [1; 2; 3]; length_exclude_endings := [];
     interjections := [[29579]]; action_verbs := []; pronouns := [];
     numbers_quantifiers := []; kinship_roles := [[29579]];
     known_names := [[29579]]; exclude_names := [[29579]] |}.

Definition v1_allow_deny_config : V1.NameGuardConfig :=
  {| V1.threshold := 100; V1.name_placeholder_format := default_format;
     V1.render_strategy := [];
     V1.require_strong_signal := true;
     V1.honorific_suffix_weight := 100;
     V1.call_position_weight := 80; V1.repetition_weight := 40;
     V1.pos_exclusion_weight := -50; V1.length_structure_weight := 10;
     V1.honorific_suffix_patterns := []; V1.call_position_checks := [];
     V1.repetition_min_occurrences := 2; V1.pos_exclusion_words := [];
     V1.length_preferred := [1; 2; 3]; V1.length_exclude_endings := [];
     V1.interjections := [[29579]]; V1.action_verbs := []; V1.pronouns := [];
     V1.numbers_quantifiers := []; V1.kinship_roles := [[29579]];
     V1.known_names := [[29579]]; V1.exclude_names := [[29579]] |}.

(** Two candidates for examples: a plain one with a high score at offset 0
    and an affixed one with a lower score at offset 3. *)
Definition plain_candidate : NameCandidate :=
  {| name := [24352; 19977]; start := 0; end_ := 2; score := 200;
     has_affix := false; affix_type := NoAffix; affix := [] |}.

Definition affixed_candidate : NameCandidate :=
  {| name := [29579]; start := 3; end_ := 4; score := 110;
     has_affix := true; affix_type := Prefix; affix := [32769] |}.

(** [w] stands in [part] at offset [o]. *)
Definition at_offset (part : str) (o : nat) (w : str) : Prop :=
  exists pre post, part = pre ++ w ++ post /\ length pre = o.

(** What every candidate of a part satisfies: its span is a non-empty range
    of the part that holds exactly the name, and its affix stands right after
    the span (suffix) or right before it (prefix). *)
Definition candidate_ok (part : str) (c : NameCandidate) : Prop :=
  0 <= start c /\ start c < end_ c /\ end_ c <= len part
  /\ slice part (start c) (end_ c) = name c
  /\ end_ c - start c = len (name c)
  /\ match affix_type c with
     | NoAffix => has_affix c = false /\ affix c = []
     | Suffix =>
         has_affix c = true
         /\ end_ c + len (affix c) <= len part
         /\ slice part (end_ c) (end_ c + len (affix c)) = affix c
     | Prefix =>
         has_affix c = true
         /\ 0 <= start c - len (affix c)
         /\ slice part (start c - len (affix c)) (start c) = affix c
     end.

(** What the extractor guarantees of each candidate: the span invariant, and
    for a candidate without affix the boundary filter and a name of at most
    three characters. *)
Definition extracted_ok (part : str) (c : NameCandidate) : Prop :=
  candidate_ok part c
  /\ (has_affix c = false ->
      _is_at_boundary part (start c) (end_ c) = true /\ len (name c) <= 3).

(** The defaults with 王 on the allow-list. *)
Definition known_wang_config : NameGuardConfig :=
  {| threshold := 100; name_placeholder_format := default_format;
     require_strong_signal := true;
     honorific_suffix_weight := 100; honorific_prefix_weight := 100;
     call_position_weight := 80; repetition_weight := 40;
     pos_exclusion_weight := -30; length_structure_weight := 10;
     honorific_suffix_patterns := [];
     honorific_prefix_patterns := [[32769]; [23567]; [38463]];
     repetition_min_occurrences := 2; pos_exclusion_words := [];
     length_preferred := [1; 2; 3]; length_exclude_endings := [];
     interjections := []; action_verbs := []; pronouns := [];
     numbers_quantifiers := []; kinship_roles := [];
     known_names := [[29579]]; exclude_names := [] |}.

(** The character of [part] at index [i] is a boundary character. *)
Definition boundary_at (part : str) (i : Z) : Prop :=
  exists ch, nth_error part (Z.to_nat i) = Some ch /\ In ch BOUNDARY_CHARS.

(** [sub] occurs in [s]. *)
Definition occurs (sub s : str) : Prop := exists a b, s = a ++ sub ++ b.

(** Replacements in the order the rewrite applies them: each span is a
    non-empty range that ends no later than the start of the one before it,
    the first no later than [bound]. *)
Fixpoint desc_chain (bound : Z) (rs : list replacement) : Prop :=
  match rs with
  | [] => True
  | (s, e, _) :: rs' => 0 <= s /\ s < e /\ e <= bound /\ desc_chain s rs'
  end.

(** Two replacement spans have no position in common. *)
Definition disjoint_spans (r1 r2 : replacement) : Prop :=
  snd (fst r1) <= fst (fst r2) \/ snd (fst r2) <= fst (fst r1).

(** The placeholder the name-to-placeholder dictionary holds for a
    candidate's name. *)
Definition placeholder_of (st : Locals) (c : NameCandidate) : str :=
  match dict_get (name_to_placeholder st) (name c) with
  | Some placeholder => placeholder
  | None => []
  end.

(** The replacement triple of a candidate. *)
Definition triple_of (st : Locals) (c : NameCandidate) : replacement :=
  (start c, end_ c, placeholder_of st c).

(** The candidates accepted for a part, given the locals at the time. *)
Definition selected_of (cfg : NameGuardConfig) (text : str) (part_idx : Z)
    (part : str) (st : Locals) : list NameCandidate :=
  _select_non_overlapping
    (fst (_extract_candidates_from_part cfg part text (part_idx =? 0)
                                        (cache_ st))).

(** The defaults with the suffixes 哥 and 师傅. *)
Definition honorific_config : NameGuardConfig :=
  {| threshold := 100; name_placeholder_format := default_format;
     require_strong_signal := true;
     honorific_suffix_weight := 100; honorific_prefix_weight := 100;
     call_position_weight := 80; repetition_weight := 40;
     pos_exclusion_weight := -30; length_structure_weight := 10;
     honorific_suffix_patterns := [[21733]; [24072; 20613]];
     honorific_prefix_patterns := [[32769]; [23567]; [38463]];
     repetition_min_occurrences := 2; pos_exclusion_words := [];
     length_preferred := [1; 2; 3]; length_exclude_endings := [];
     interjections := []; action_verbs := []; pronouns := [];
     numbers_quantifiers := []; kinship_roles := [];
     known_names := []; exclude_names := [] |}.

(** Names numbered from [i] on, in order. *)
Fixpoint enumerate_from (i : Z) (names : list str) : list (Z * str) :=
  match names with
  | [] => []
  | n :: rest => (i, n) :: enumerate_from (i + 1) rest
  end.

(** What the loop over the parts keeps true of its locals: the index counts
    the names seen, no name is listed twice, and the name-to-placeholder
    dictionary holds, for the name seen [i]-th, the placeholder minted from
    [i]. *)
Definition locals_ok (cfg : NameGuardConfig) (st : Locals) : Prop :=
  name_index st = len (all_names st)
  /\ NoDup (all_names st)
  /\ name_to_placeholder st
     = map (fun '(i, n) => (n, name_placeholder_format cfg i))
           (enumerate_from 0 (all_names st)).

(** With placeholders that differ from index to index, the
    placeholder-to-name map is the same table read the other way. *)
Definition name_map_ok (cfg : NameGuardConfig) (st : Locals) : Prop :=
  name_map st
  = map (fun '(i, n) => (name_placeholder_format cfg i, n))
        (enumerate_from 0 (all_names st)).

(** Distinct non-negative indices give distinct placeholders, as a format
    with an [{index}] slot does. *)
Definition format_injective (cfg : NameGuardConfig) : Prop :=
  forall i j, 0 <= i -> 0 <= j ->
              name_placeholder_format cfg i = name_placeholder_format cfg j ->
              i = j.

(** The locals before the part of index [k] is processed. *)
Definition locals_before (cfg : NameGuardConfig) (text : str)
    (parts : list str) (k : nat) : Locals :=
  parts_loop cfg text (firstn k parts) 0 initial_locals.


(** Every key of the placeholder-to-name map occurs in one of the parts
    rewritten so far. *)
Definition keys_occur (st : Locals) : Prop :=
  forall k, In k (map fst (name_map st)) ->
            exists rp, In rp (replaced_parts st) /\ occurs k rp.

(** What acceptance by [is_name] leaves on every candidate: a name of one
    to three CJK characters that is either allow-listed, with the sentinel
    score, or got past gate 1 and the deny-list with a score that reaches
    the threshold and, when strong signals are required, with an affix or
    two to three characters. *)
Definition accepted_ok (cfg : NameGuardConfig) (c : NameCandidate) : Prop :=
  Forall (fun ch => is_cjk ch = true) (name c)
  /\ 1 <= len (name c) <= 3
  /\ ((In (name c) (known_names cfg) /\ score c = 999)
      \/ (~ In (name c) (known_names cfg)
          /\ is_strongly_excluded cfg (name c) = false
          /\ ~ In (name c) (exclude_names cfg)
          /\ threshold cfg <= score c
          /\ (require_strong_signal cfg = true ->
              has_affix c = true \/ 2 <= len (name c) <= 3))).

(** A configuration with another [honorific_prefix_weight]. *)
Definition with_prefix_weight (cfg : NameGuardConfig) (w : Z)
  : NameGuardConfig :=
  {| threshold := threshold cfg;
     name_placeholder_format := name_placeholder_format cfg;
     require_strong_signal := require_strong_signal cfg;
     honorific_suffix_weight := honorific_suffix_weight cfg;
     honorific_prefix_weight := w;
     call_position_weight := call_position_weight cfg;
     repetition_weight := repetition_weight cfg;
     pos_exclusion_weight := pos_exclusion_weight cfg;
     length_structure_weight := length_structure_weight cfg;
     honorific_suffix_patterns := honorific_suffix_patterns cfg;
     honorific_prefix_patterns := honorific_prefix_patterns cfg;
     repetition_min_occurrences := repetition_min_occurrences cfg;
     pos_exclusion_words := pos_exclusion_words cfg;
     length_preferred := length_preferred cfg;
     length_exclude_endings := length_exclude_endings cfg;
     interjections := interjections cfg;
     action_verbs := action_verbs cfg;
     pronouns := pronouns cfg;
     numbers_quantifiers := numbers_quantifiers cfg;
     kinship_roles := kinship_roles cfg;
     known_names := known_names cfg;
     exclude_names := exclude_names cfg |}.

(** The sum of the per-rule score details. *)
Definition details_sum (details : V1.score_details) : Z :=
  fold_right (fun kv acc => snd kv + acc) 0 details.

(** A legacy configuration and an optimized one with the same gate-1 word
    lists, allow-list and deny-list. *)
Definition same_gate_lists (c1 : V1.NameGuardConfig) (c2 : NameGuardConfig)
  : Prop :=
  V1.interjections c1 = interjections c2
  /\ V1.action_verbs c1 = action_verbs c2
  /\ V1.pronouns c1 = pronouns c2
  /\ V1.numbers_quantifiers c1 = numbers_quantifiers c2
  /\ V1.kinship_roles c1 = kinship_roles c2
  /\ V1.known_names c1 = known_names c2
  /\ V1.exclude_names c1 = exclude_names c2.

(** The legacy defaults with the suffixes 哥 and 师傅. *)
Definition v1_honorific_config : V1.NameGuardConfig :=
  {| V1.threshold := 100; V1.name_placeholder_format := default_format;
     V1.render_strategy := [];
     V1.require_strong_signal := true;
     V1.honorific_suffix_weight := 100;
     V1.call_position_weight := 80; V1.repetition_weight := 40;
     V1.pos_exclusion_weight := -50; V1.length_structure_weight := 10;
     V1.honorific_suffix_patterns := [[21733]; [24072; 20613]];
     V1.call_position_checks := [];
     V1.repetition_min_occurrences := 2; V1.pos_exclusion_words := [];
     V1.length_preferred := [1; 2; 3]; V1.length_exclude_endings := [];
     V1.interjections := []; V1.action_verbs := []; V1.pronouns := [];
     V1.numbers_quantifiers := []; V1.kinship_roles := [];
     V1.known_names := []; V1.exclude_names := [] |}.

(** What every legacy candidate of a part satisfies: its span is a non-empty
    range of the part that holds exactly its word, of one to three CJK
    characters. *)
Definition v1_candidate_ok (part : str) (c : V1.candidate) : Prop :=
  let '(word, start_pos, end_pos, _, _, _) := c in
  0 <= start_pos /\ start_pos < end_pos /\ end_pos <= len part
  /\ slice part start_pos end_pos = word
  /\ Forall (fun ch => is_cjk ch = true) word
  /\ 1 <= len word <= 3.

(** The spans of two legacy candidates have no position in common. *)
Definition v1_disjoint (c d : V1.candidate) : Prop :=
  let '(_, s1, e1, _, _, _) := c in
  let '(_, s2, e2, _, _, _) := d in
  e1 <= s2 \/ e2 <= s1.

(** The [has_suffix] component of a legacy candidate. *)
Definition v1_has_suffix (c : V1.candidate) : bool :=
  let '(_, _, _, _, has_suffix, _) := c in has_suffix.

(** A legacy candidate found through a suffix is followed in the part, right
    after its span, by a configured suffix. *)
Definition v1_suffix_follows (cfg : V1.NameGuardConfig) (part : str)
    (c : V1.candidate) : Prop :=
  let '(_, _, end_pos, _, has_suffix, _) := c in
  has_suffix = true ->
  exists pattern,
    In pattern (V1.honorific_suffix_patterns cfg) /\ pattern <> []
    /\ slice part end_pos (end_pos + len pattern) = pattern.

(** The [part_idx] component of a legacy candidate. *)
Definition v1_part_idx (c : V1.candidate) : Z :=
  let '(_, _, _, _, _, part_idx) := c in part_idx.

(** The [word] component of a legacy candidate. *)
Definition v1_word (c : V1.candidate) : str :=
  let '(word, _, _, _, _, _) := c in word.

(** What the legacy [is_name] asks of every word it accepts: allow-listed,
    or else neither strongly excluded nor deny-listed. *)
Definition v1_passes_gates (cfg : V1.NameGuardConfig) (n : str) : Prop :=
  In n (V1.known_names cfg)
  \/ (V1.is_strongly_excluded cfg n = false /\ ~ In n (V1.exclude_names cfg)).

(** What holds of every legacy candidate of a part. *)
Definition v1_collected_ok (cfg : V1.NameGuardConfig) (part_idx : Z)
    (part : str) (c : V1.candidate) : Prop :=
  v1_candidate_ok part c /\ v1_part_idx c = part_idx
  /\ v1_suffix_follows cfg part c /\ v1_passes_gates cfg (v1_word c).

(** The span [(start_pos, end_pos)] of a legacy candidate. *)
Definition v1_span (c : V1.candidate) : Z * Z :=
  let '(_, start_pos, end_pos, _, _, _) := c in (start_pos, end_pos).

(** Every key of the legacy placeholder-to-name map occurs in one of the
    parts rewritten so far. *)
Definition v1_keys_occur (st : V1.Locals) : Prop :=
  forall k, In k (map fst (V1.name_map st)) ->
            exists rp, In rp (V1.replaced_parts st) /\ occurs k rp.

(** In every part, no two of the legacy candidates share a position. *)
Definition v1_parts_disjoint (cfg : V1.NameGuardConfig) (text : str)
    (first_idx : Z) (parts : list str) : Prop :=
  forall (k : nat) (part : str),
    nth_error parts k = Some part ->
    ForallOrdPairs v1_disjoint
      (fst (V1.collect_candidates cfg text (first_idx + Z.of_nat k) part)).


(** A plain candidate with a high score that lies across the span of
    [affixed_candidate]. *)
Definition overlapping_candidate : NameCandidate :=
  {| name := [24352; 29579]; start := 2; end_ := 4; score := 200;
     has_affix := false; affix_type := NoAffix; affix := [] |}.

(** The candidates accepted once the walk of the overlap resolver has
    considered the first [j] candidates of its sorted list. *)
Definition accepted_upto (candidates : list NameCandidate) (j : nat)
  : list NameCandidate :=
  select_loop (firstn j (sorted_candidates candidates)) [] [].

(** The template whose rendering a legacy configuration holds. *)
Definition v1_template_of (cfg : V1.NameGuardConfig) : template :=
  fun i => Some (V1.name_placeholder_format cfg i).

(* ================================================================== *)
(** * Part II: properties                                              *)
(* ================================================================== *)

(** ** Strings and dictionaries *)

Lemma str_eqb_eq (a b : str) : str_eqb a b = true <-> a = b.
Proof.
  revert b; induction a as [|x a IH]; intros [|y b]; simpl;
    try (split; [discriminate | congruence]); try tauto.
  rewrite andb_true_iff, Z.eqb_eq, IH. split.
  - intros [-> ->]; reflexivity.
  - intros H; inversion H; auto.
Qed.

Lemma str_eqb_refl (a : str) : str_eqb a a = true.
Proof. apply str_eqb_eq; reflexivity. Qed.

Lemma str_eqb_neq (a b : str) : str_eqb a b = false <-> a <> b.
Proof.
  rewrite <- str_eqb_eq. destruct (str_eqb a b); split; congruence.
Qed.

Lemma mem_In (w : str) (l : list str) : mem w l = true <-> In w l.
Proof.
  unfold mem. rewrite existsb_exists. split.
  - intros [x [Hx He]]. apply str_eqb_eq in He. subst; assumption.
  - intros H. exists w. split; [assumption | apply str_eqb_refl].
Qed.

(** ** Allow-list precedence *)

(** C1: a word on the [known_names] allow-list is accepted with the sentinel
    score 999 by [is_name] of both implementations, whatever the position
    flags, the affix flag, the occurrence cache, the strong-signal setting,
    the threshold, gate 1 and the [exclude_names] deny-list say; so a word on
    both lists is accepted. *)
Theorem allow_list_precedence :
  (forall (cfg : NameGuardConfig) (w context : str)
          (is_call_position has_affix : bool) (cache : occurrence_cache),
      In w (known_names cfg) ->
      is_name cfg w context is_call_position has_affix cache
      = (true, 999, cache))
  /\
  (forall (cfg : V1.NameGuardConfig) (w context : str) (position : Z)
          (is_utterance_start is_after_sep skip_strong_signal_check : bool),
      In w (V1.known_names cfg) ->
      V1.is_name cfg w context position is_utterance_start is_after_sep
                 skip_strong_signal_check
      = (true, 999, [(V1.known_name_key, 999)])).
Proof.
  split; intros cfg w context.
  - intros icp ha cache Hin. unfold is_name.
    apply mem_In in Hin. rewrite Hin. reflexivity.
  - intros pos us asep skip Hin. unfold V1.is_name.
    apply mem_In in Hin. rewrite Hin. reflexivity.
Qed.

Lemma allow_list_precedence_witness :
  (In [29579] (known_names allow_deny_config)
   /\ In [29579] (exclude_names allow_deny_config)
   /\ is_strongly_excluded allow_deny_config [29579] = true
   /\ is_name allow_deny_config [29579] [25105; 29579; 20320] false false []
      = (true, 999, []))
  /\
  (In [29579] (V1.known_names v1_allow_deny_config)
   /\ In [29579] (V1.exclude_names v1_allow_deny_config)
   /\ V1.is_name v1_allow_deny_config [29579] [25105; 29579; 20320] 1
                 false false false
      = (true, 999, [(V1.known_name_key, 999)])).
Proof.
  split.
  - split; [simpl; auto|]. split; [simpl; auto|]. split; [reflexivity|].
    apply (proj1 allow_list_precedence). simpl. left. reflexivity.
  - split; [simpl; auto|]. split; [simpl; auto|].
    apply (proj2 allow_list_precedence). simpl. left. reflexivity.
Defined.

(** ** Gate 2 *)

Lemma in_2_3_spec (n : Z) : in_2_3 n = true <-> 2 <= n <= 3.
Proof. unfold in_2_3. rewrite andb_true_iff, !Z.leb_le. tauto. Qed.

Lemma cached_count_consistent (context word : str) (cache : occurrence_cache) :
  cache_consistent context cache ->
  fst (cached_count context word cache) = count context word.
Proof.
  intros Hc. unfold cached_count.
  destruct (dict_get cache word) as [n|] eqn:E; simpl; auto.
Qed.

(** A word that is not allow-listed and gets past gate 1 and the deny-list is
    judged by its score and its strong-signal flag. *)
Lemma is_name_scored (cfg : NameGuardConfig) (word context : str)
    (icp ha : bool) (cache : occurrence_cache) :
  ~ In word (known_names cfg) ->
  is_strongly_excluded cfg word = false ->
  ~ In word (exclude_names cfg) ->
  is_name cfg word context icp ha cache =
  let '(sc, has_strong_signal, cache') :=
    score_candidate cfg word context icp ha cache in
  if require_strong_signal cfg && negb has_strong_signal
  then (false, 0, cache') else (threshold cfg <=? sc, sc, cache').
Proof.
  intros Hk He Hd. unfold is_name.
  destruct (mem word (known_names cfg)) eqn:E1;
    [apply mem_In in E1; contradiction|].
  rewrite He.
  destruct (mem word (exclude_names cfg)) eqn:E2;
    [apply mem_In in E2; contradiction|].
  reflexivity.
Qed.

(** The strong-signal flag of [score_candidate] is set only by an affix, by
    a call position or by repetition, the last two for words of 2 or 3
    characters. *)
Lemma strong_signal_sound (cfg : NameGuardConfig) (word context : str)
    (icp ha : bool) (cache : occurrence_cache) :
  cache_consistent context cache ->
  snd (fst (score_candidate cfg word context icp ha cache)) = true ->
  ha = true
  \/ (2 <= len word <= 3 /\ icp = true)
  \/ (2 <= len word <= 3
      /\ repetition_min_occurrences cfg <= count context word).
Proof.
  intros Hc. unfold score_candidate.
  pose proof (cached_count_consistent context word cache Hc) as Hcc.
  destruct (cached_count context word cache) as [occ cache'].
  simpl in Hcc. subst occ.
  destruct ha; [intros _; left; reflexivity|].
  destruct (in_2_3 (len word)) eqn:E23.
  - apply in_2_3_spec in E23.
    destruct icp; simpl.
    + intros _. right; left. split; [assumption | reflexivity].
    + destruct (0 <? repetition_weight cfg); simpl;
        [|discriminate].
      destruct (repetition_min_occurrences cfg <=? count context word) eqn:El;
        simpl; [|discriminate].
      apply Z.leb_le in El. intros _. right; right. split; assumption.
  - destruct (icp && (0 <? call_position_weight cfg));
      destruct (0 <? repetition_weight cfg); simpl;
      try destruct (repetition_min_occurrences cfg <=? count context word);
      simpl; discriminate.
Qed.

(** With an affix the strong-signal flag is always set. *)
Lemma strong_signal_affix (cfg : NameGuardConfig) (word context : str)
    (icp : bool) (cache : occurrence_cache) :
  snd (fst (score_candidate cfg word context icp true cache)) = true.
Proof.
  unfold score_candidate.
  destruct (cached_count context word cache) as [occ cache'].
  destruct (icp && (0 <? call_position_weight cfg));
    destruct (0 <? repetition_weight cfg);
    destruct (in_2_3 (len word)); simpl;
    try destruct (repetition_min_occurrences cfg <=? occ); reflexivity.
Qed.

(** C7: with [require_strong_signal] on, a word that reaches gate 2 (not
    allow-listed, past gate 1 and the deny-list), does not come from an affix
    decomposition and meets no strong-signal condition is rejected with score
    exactly 0; gate-1 and deny-list rejections carry -999 instead; and a word
    that comes from an affix decomposition has its strong-signal flag set, so
    gate 2 never rejects it and the verdict is the threshold test. *)
Theorem gate2_scores (cfg : NameGuardConfig) (word context : str)
    (icp : bool) (cache : occurrence_cache) :
  ~ In word (known_names cfg) ->
  cache_consistent context cache ->
  (* gate 2 rejects with score 0 *)
  (require_strong_signal cfg = true ->
   is_strongly_excluded cfg word = false ->
   ~ In word (exclude_names cfg) ->
   ~ (2 <= len word <= 3 /\ icp = true) ->
   ~ (2 <= len word <= 3
      /\ repetition_min_occurrences cfg <= count context word) ->
   fst (is_name cfg word context icp false cache) = (false, 0))
  /\
  (* gate 1 and the deny-list reject with score -999 *)
  (forall ha,
      is_strongly_excluded cfg word = true \/ In word (exclude_names cfg) ->
      fst (is_name cfg word context icp ha cache) = (false, -999))
  /\
  (* an affix passes gate 2 *)
  (is_strongly_excluded cfg word = false ->
   ~ In word (exclude_names cfg) ->
   snd (fst (score_candidate cfg word context icp true cache)) = true
   /\ fst (is_name cfg word context icp true cache)
      = (threshold cfg
           <=? fst (fst (score_candidate cfg word context icp true cache)),
         fst (fst (score_candidate cfg word context icp true cache)))).
Proof.
  intros Hk Hc. split; [|split].
  - intros Hreq He Hd Hcall Hrep.
    rewrite is_name_scored by assumption.
    pose proof (strong_signal_sound cfg word context icp false cache Hc) as Hs.
    destruct (score_candidate cfg word context icp false cache)
      as [[sc hss] cache'].
    simpl in Hs. rewrite Hreq.
    destruct hss; simpl; [|reflexivity].
    destruct (Hs eq_refl) as [H|[H|H]]; [discriminate | tauto | tauto].
  - intros ha Hor. unfold is_name.
    destruct (mem word (known_names cfg)) eqn:E1;
      [apply mem_In in E1; contradiction|].
    destruct (is_strongly_excluded cfg word); [reflexivity|].
    destruct Hor as [H|H]; [discriminate|].
    apply mem_In in H. rewrite H. reflexivity.
  - intros He Hd.
    pose proof (strong_signal_affix cfg word context icp cache) as Hs.
    split; [assumption|].
    rewrite is_name_scored by assumption.
    destruct (score_candidate cfg word context icp true cache)
      as [[sc hss] cache'].
    simpl in Hs. subst hss. rewrite andb_false_r. reflexivity.
Qed.

Lemma gate2_scores_witness :
  fst (is_name default_config [24179; 23433] [35828; 24179; 23433; 26469]
               false false [])
  = (false, 0).
Proof.
  assert (Hk : ~ In [24179; 23433] (known_names default_config))
    by (simpl; tauto).
  assert (Hc : cache_consistent [35828; 24179; 23433; 26469] [])
    by (intros w n H; discriminate H).
  apply (proj1 (gate2_scores default_config [24179; 23433]
                             [35828; 24179; 23433; 26469] false [] Hk Hc)).
  - reflexivity.
  - reflexivity.
  - simpl; tauto.
  - intros [_ H]; discriminate H.
  - intros [_ H]; vm_compute in H; apply H; reflexivity.
Defined.

(** ** Ordered pairs of a list *)

Section OrdPairs.
Context {A : Type} (R : A -> A -> Prop).

Lemma ForallOrdPairs_snoc (l : list A) (x : A) :
  ForallOrdPairs R l -> Forall (fun a => R a x) l ->
  ForallOrdPairs R (l ++ [x]).
Proof.
  induction 1 as [|a l Ha Hl IH]; intros Hx; simpl.
  - constructor; constructor.
  - inversion Hx; subst. constructor; [|auto].
    apply Forall_app. split; [assumption | constructor; auto].
Qed.

Lemma ForallOrdPairs_nth (l : list A) :
  ForallOrdPairs R l ->
  forall (i j : nat) (a b : A),
    (i < j)%nat -> nth_error l i = Some a -> nth_error l j = Some b ->
    R a b.
Proof.
  induction 1 as [|x l Hx Hl IH]; intros i j a b Hij Hi Hj.
  - destruct i; discriminate.
  - destruct j as [|j]; [lia|]. simpl in Hj.
    destruct i as [|i]; simpl in Hi.
    + injection Hi as <-. rewrite Forall_forall in Hx.
      apply Hx. eapply nth_error_In; eassumption.
    + apply (IH i j); [lia | assumption | assumption].
Qed.
End OrdPairs.

(** ** Stable sorting *)

Section SortedBy.
Context {A : Type} (before : A -> A -> bool).
Hypothesis before_asym :
  forall x y, before x y = true -> before y x = false.
Hypothesis before_negtrans :
  forall x y z, before x z = true -> before x y = true \/ before y z = true.

Lemma insert_by_In (x : A) (l : list A) (y : A) :
  In y (insert_by before x l) <-> y = x \/ In y l.
Proof.
  induction l as [|z l IH]; simpl.
  - intuition.
  - destruct (before z x); simpl; [rewrite IH|]; intuition.
Qed.

Lemma insert_by_perm (x : A) (l : list A) :
  Permutation (x :: l) (insert_by before x l).
Proof.
  induction l as [|z l IH]; simpl; [reflexivity|].
  destruct (before z x); [|reflexivity].
  rewrite perm_swap. constructor. assumption.
Qed.

Lemma sorted_by_perm (l : list A) : Permutation l (sorted_by before l).
Proof.
  induction l as [|x l IH]; simpl; [constructor|].
  rewrite <- insert_by_perm. constructor. assumption.
Qed.

Lemma insert_by_in_order (x : A) (l : list A) :
  ForallOrdPairs (in_order before) l -> ForallOrdPairs (in_order before) (insert_by before x l).
Proof.
  induction 1 as [|z l Hz Hl IH]; simpl.
  - constructor; constructor.
  - destruct (before z x) eqn:E.
    + constructor; [|assumption].
      rewrite Forall_forall in *. intros y Hy.
      apply insert_by_In in Hy. destruct Hy as [->|Hy]; [|auto].
      unfold in_order. apply before_asym. assumption.
    + constructor; [|constructor; assumption].
      constructor; [exact E|].
      rewrite Forall_forall in *. intros y Hy. specialize (Hz y Hy).
      unfold in_order in *.
      destruct (before y x) eqn:E'; [|reflexivity].
      destruct (before_negtrans y z x E') as [H|H]; congruence.
Qed.

Lemma sorted_by_in_order (l : list A) :
  ForallOrdPairs (in_order before) (sorted_by before l).
Proof.
  induction l as [|x l IH]; simpl; [constructor|].
  apply insert_by_in_order. assumption.
Qed.
End SortedBy.

(** ** Candidate priority *)

Lemma tuple_ltb_lt (p q : Z * Z * Z) :
  tuple_ltb p q = true <->
  fst (fst p) < fst (fst q)
  \/ (fst (fst p) = fst (fst q) /\ snd (fst p) < snd (fst q))
  \/ (fst (fst p) = fst (fst q) /\ snd (fst p) = snd (fst q) /\ snd p < snd q).
Proof.
  destruct p as [[a1 b1] c1], q as [[a2 b2] c2]; simpl.
  destruct (Z.eqb_spec a1 a2); [destruct (Z.eqb_spec b1 b2)|];
    rewrite Z.ltb_lt; lia.
Qed.

Lemma before_priority_asym (x y : NameCandidate) :
  before_priority x y = true -> before_priority y x = false.
Proof.
  unfold before_priority. intros H. apply tuple_ltb_lt in H.
  destruct (tuple_ltb (priority x) (priority y)) eqn:E; [|reflexivity].
  apply tuple_ltb_lt in E. lia.
Qed.

Lemma before_priority_negtrans (x y z : NameCandidate) :
  before_priority x z = true ->
  before_priority x y = true \/ before_priority y z = true.
Proof.
  unfold before_priority. intros H. apply tuple_ltb_lt in H.
  destruct (tuple_ltb (priority y) (priority x)) eqn:E1; [left; reflexivity|].
  right. apply tuple_ltb_lt.
  assert (N : ~ (fst (fst (priority y)) < fst (fst (priority x))
      \/ (fst (fst (priority y)) = fst (fst (priority x))
          /\ snd (fst (priority y)) < snd (fst (priority x)))
      \/ (fst (fst (priority y)) = fst (fst (priority x))
          /\ snd (fst (priority y)) = snd (fst (priority x))
          /\ snd (priority y) < snd (priority x)))).
  { intros N. apply tuple_ltb_lt in N. congruence. }
  lia.
Qed.

Lemma sorted_candidates_in_order (candidates : list NameCandidate) :
  ForallOrdPairs (in_order before_priority) (sorted_candidates candidates).
Proof.
  apply sorted_by_in_order.
  - exact before_priority_asym.
  - exact before_priority_negtrans.
Qed.

(** ** Overlap resolution *)

Lemma spans_overlap_sym (a b : NameCandidate) :
  spans_overlap a b = spans_overlap b a.
Proof.
  unfold spans_overlap.
  destruct (start a <? end_ b) eqn:E1, (end_ a >? start b) eqn:E2,
           (start b <? end_ a) eqn:E3, (end_ b >? start a) eqn:E4;
    try reflexivity; exfalso;
    rewrite ?Z.ltb_lt, ?Z.ltb_ge, ?Z.gtb_ltb in *;
    rewrite ?Z.ltb_lt, ?Z.ltb_ge in *; lia.
Qed.

Lemma overlaps_spans (c : NameCandidate) (selected : list NameCandidate) :
  overlaps c (map (fun s => (start s, end_ s)) selected) = false ->
  Forall (fun s => spans_overlap s c = false) selected.
Proof.
  unfold overlaps. induction selected as [|s l IH]; simpl; [constructor|].
  intros H. apply orb_false_iff in H. destruct H as [H1 H2].
  constructor; [|auto].
  rewrite spans_overlap_sym. exact H1.
Qed.

Lemma select_loop_disjoint (cs selected : list NameCandidate) :
  ForallOrdPairs (fun a b => spans_overlap a b = false) selected ->
  ForallOrdPairs (fun a b => spans_overlap a b = false)
    (select_loop cs selected (map (fun s => (start s, end_ s)) selected)).
Proof.
  revert selected. induction cs as [|c cs IH]; intros selected Hsel; simpl.
  - assumption.
  - destruct (overlaps c _) eqn:E; [auto|].
    replace (map (fun s => (start s, end_ s)) selected ++ [(start c, end_ c)])
      with (map (fun s => (start s, end_ s)) (selected ++ [c]))
      by (rewrite map_app; reflexivity).
    apply IH. apply ForallOrdPairs_snoc; [assumption|].
    apply overlaps_spans. assumption.
Qed.

Lemma select_non_overlapping_pairs (candidates : list NameCandidate) :
  ForallOrdPairs (fun a b => spans_overlap a b = false)
                 (_select_non_overlapping candidates).
Proof.
  unfold _select_non_overlapping. destruct candidates as [|c cs].
  - constructor.
  - apply (select_loop_disjoint _ []). constructor.
Qed.

Lemma spans_overlap_false_no_common (a b : NameCandidate) :
  spans_overlap a b = false ->
  forall p, ~ (start a <= p < end_ a /\ start b <= p < end_ b).
Proof.
  unfold spans_overlap. intros H p [Ha Hb].
  apply andb_false_iff in H. rewrite Z.gtb_ltb, !Z.ltb_ge in H. lia.
Qed.

(** C3: the candidates the overlap resolver accepts are pairwise
    non-overlapping under the half-open interval test, so no two accepted
    spans share a character position. *)
Theorem select_non_overlapping_disjoint (candidates : list NameCandidate) :
  forall (i j : nat) (a b : NameCandidate),
    i <> j ->
    nth_error (_select_non_overlapping candidates) i = Some a ->
    nth_error (_select_non_overlapping candidates) j = Some b ->
    ((start a <? end_ b) && (end_ a >? start b) = false)
    /\ forall p, ~ (start a <= p < end_ a /\ start b <= p < end_ b).
Proof.
  pose proof (select_non_overlapping_pairs candidates) as H.
  intros i j a b Hij Hi Hj.
  assert (Hab : spans_overlap a b = false).
  { destruct (Nat.lt_trichotomy i j) as [Hl|[Hl|Hl]]; [|contradiction|].
    - exact (ForallOrdPairs_nth _ _ H i j a b Hl Hi Hj).
    - rewrite spans_overlap_sym.
      exact (ForallOrdPairs_nth _ _ H j i b a Hl Hj Hi). }
  split; [exact Hab | apply spans_overlap_false_no_common; exact Hab].
Qed.

Lemma select_non_overlapping_disjoint_witness :
  nth_error (_select_non_overlapping [plain_candidate; affixed_candidate]) 0
  = Some affixed_candidate
  /\ nth_error (_select_non_overlapping [plain_candidate; affixed_candidate]) 1
     = Some plain_candidate
  /\ ((start affixed_candidate <? end_ plain_candidate)
      && (end_ affixed_candidate >? start plain_candidate) = false)
  /\ forall p, ~ (start affixed_candidate <= p < end_ affixed_candidate
                  /\ start plain_candidate <= p < end_ plain_candidate).
Proof.
  split; [reflexivity|]. split; [reflexivity|].
  apply (select_non_overlapping_disjoint
           [plain_candidate; affixed_candidate] 0%nat 1%nat).
  - discriminate.
  - reflexivity.
  - reflexivity.
Defined.

(** ** Substrings and slices *)

Lemma len_app {A : Type} (a b : list A) : len (a ++ b) = len a + len b.
Proof. unfold len. rewrite length_app. lia. Qed.

Lemma len_nonneg {A : Type} (a : list A) : 0 <= len a.
Proof. unfold len. lia. Qed.

Lemma startswith_app (s p : str) :
  startswith s p = true <-> exists t, s = p ++ t.
Proof.
  revert s. induction p as [|y p IH]; intros s; simpl.
  - split; [intros _; exists s; reflexivity | destruct s; reflexivity].
  - destruct s as [|x s].
    + split; [discriminate | intros [t H]; discriminate].
    + simpl. destruct (Z.eqb_spec x y) as [->|Hne]; simpl.
      * rewrite IH. split; intros [t H]; exists t; congruence.
      * split; [discriminate | intros [t H]; congruence].
Qed.

Lemma norm_index_nonneg (s : str) (i : Z) :
  0 <= i -> norm_index s i = Z.to_nat i.
Proof.
  intros H. unfold norm_index.
  destruct (i <? 0) eqn:E; [apply Z.ltb_lt in E; lia | reflexivity].
Qed.

Lemma slice_at_offset (part : str) (o : nat) (w : str) :
  at_offset part o w ->
  slice part (Z.of_nat o) (Z.of_nat o + len w) = w.
Proof.
  intros (pre & post & -> & Hl). unfold slice.
  rewrite !norm_index_nonneg by (unfold len; lia).
  unfold len. rewrite Nat2Z.id.
  replace (Z.to_nat (Z.of_nat o + Z.of_nat (length w)) - o)%nat
    with (length w) by lia.
  subst o. rewrite skipn_app, skipn_all, Nat.sub_diag. simpl.
  rewrite firstn_app, firstn_all, Nat.sub_diag. simpl.
  apply app_nil_r.
Qed.

Lemma at_offset_bound (part : str) (o : nat) (w : str) :
  at_offset part o w -> Z.of_nat o + len w <= len part.
Proof.
  intros (pre & post & -> & Hl). rewrite !len_app. unfold len in *.
  lia.
Qed.

(** A piece of a word that stands at [o] stands at [o] plus its offset in
    the word. *)
Lemma at_offset_inside (part : str) (o : nat) (a w b : str) :
  at_offset part o (a ++ w ++ b) -> at_offset part (o + length a) w.
Proof.
  intros (pre & post & -> & Hl).
  exists (pre ++ a), (b ++ post). split.
  - rewrite <- !app_assoc. reflexivity.
  - rewrite length_app. lia.
Qed.

(** ** The CJK runs of a part *)

Lemma span_cjk_prefix (s : str) : exists t, s = span_cjk s ++ t.
Proof.
  induction s as [|c s [t IH]]; simpl.
  - exists []. reflexivity.
  - destruct (is_cjk c).
    + exists t. simpl. congruence.
    + exists (c :: s). reflexivity.
Qed.

Lemma span_cjk_all (s : str) : Forall (fun c => is_cjk c = true) (span_cjk s).
Proof.
  induction s as [|c s IH]; simpl; [constructor|].
  destruct (is_cjk c) eqn:E; constructor; assumption.
Qed.

Lemma finditer_from_spec (s : str) (pos : Z) (skip : nat) (p : Z) (r : str) :
  In (p, r) (finditer_from s pos skip) ->
  exists k : nat, p = pos + Z.of_nat k /\ (k < length s)%nat
                  /\ r = span_cjk (skipn k s).
Proof.
  revert pos skip. induction s as [|c s IH]; intros pos skip; simpl.
  - intros [].
  - assert (Hrec : forall sk, In (p, r) (finditer_from s (pos + 1) sk) ->
               exists k : nat, p = pos + Z.of_nat k
                               /\ (k < S (length s))%nat
                               /\ r = span_cjk (skipn k (c :: s))).
    { intros sk H. destruct (IH _ _ H) as (k & -> & Hk & ->).
      exists (S k). split; [lia|]. split; [lia | reflexivity]. }
    destruct skip as [|sk]; [|apply Hrec].
    destruct (is_cjk c) eqn:E; [|apply Hrec].
    intros [H|H]; [|eapply Hrec; exact H].
    injection H as <- <-. exists 0%nat. split; [lia|]. split; [lia|].
    simpl. rewrite E. reflexivity.
Qed.

(** Every match of [finditer] is a run of CJK characters standing in the
    part at the offset reported. *)
Lemma finditer_spec (part : str) (p : Z) (r : str) :
  In (p, r) (finditer part) ->
  exists o : nat, p = Z.of_nat o /\ at_offset part o r
                  /\ Forall (fun c => is_cjk c = true) r.
Proof.
  intros H. apply finditer_from_spec in H. destruct H as (k & -> & Hk & ->).
  exists k. split; [lia|]. split; [|apply span_cjk_all].
  destruct (span_cjk_prefix (skipn k part)) as [t Ht].
  exists (firstn k part), t. split.
  - rewrite <- Ht. symmetry. apply firstn_skipn.
  - apply firstn_length_le. lia.
Qed.

(** ** The honorific patterns on a CJK word *)

Lemma at_dollar_cjk (rest : str) :
  Forall (fun c => is_cjk c = true) rest -> at_dollar rest = true -> rest = [].
Proof.
  destruct rest as [|c [|d rest]]; simpl; auto; [|discriminate].
  intros H E. inversion H as [|? ? Hc _]; subst.
  apply Z.eqb_eq in E. subst c. discriminate Hc.
Qed.

Lemma cjk_prefix_len_le (w : str) (max : nat) :
  (cjk_prefix_len w max <= length w)%nat /\ (cjk_prefix_len w max <= max)%nat.
Proof.
  revert w. induction max as [|m IH]; intros [|c w]; simpl; try lia.
  destruct (is_cjk c); [|lia]. specialize (IH w). lia.
Qed.

Lemma match_alt_dollar_spec (alts : list str) (rest a : str) :
  match_alt_dollar alts rest = Some a ->
  startswith rest a = true /\ at_dollar (skipn (length a) rest) = true.
Proof.
  induction alts as [|b alts IH]; simpl; [discriminate|].
  destruct (startswith rest b && at_dollar (skipn (length b) rest)) eqn:E.
  - intros H. injection H as <-. apply andb_true_iff in E. exact E.
  - exact IH.
Qed.

Lemma suffix_backtrack_spec (alts : list str) (word : str) (k : nat)
    (n a : str) :
  suffix_backtrack alts word k = Some (n, a) ->
  exists k', (1 <= k' <= k)%nat /\ n = firstn k' word
             /\ startswith (skipn k' word) a = true
             /\ at_dollar (skipn (length a) (skipn k' word)) = true.
Proof.
  induction k as [|k IH]; cbn [suffix_backtrack]; [discriminate|].
  destruct (match_alt_dollar alts (skipn (S k) word)) as [b|] eqn:E.
  - intros H. injection H as <- <-.
    apply match_alt_dollar_spec in E. exists (S k).
    split; [lia|]. split; [reflexivity | exact E].
  - intros H. destruct (IH H) as (k' & Hk & R). exists k'. split; [lia|exact R].
Qed.

(** On a CJK word the suffix pattern splits the word into a name of one to
    three characters and the suffix. *)
Lemma suffix_word_spec (cfg : NameGuardConfig) (word n a : str) :
  Forall (fun c => is_cjk c = true) word ->
  _extract_from_suffix_word cfg word = Some (n, a) ->
  word = n ++ a /\ (1 <= length n <= 3)%nat.
Proof.
  intros Hw. unfold _extract_from_suffix_word.
  destruct (sorted_by_len_desc (honorific_suffix_patterns cfg)) as [|s0 ss];
    [discriminate|].
  intros H. apply suffix_backtrack_spec in H.
  destruct H as (k & Hk & -> & Hs & Hd).
  pose proof (cjk_prefix_len_le word 3) as [L1 L2].
  apply startswith_app in Hs. destruct Hs as [t Ht].
  rewrite Ht in Hd. rewrite skipn_app, skipn_all, Nat.sub_diag in Hd.
  simpl in Hd.
  assert (Hwd : word = firstn k word ++ a ++ t)
    by (rewrite <- Ht; symmetry; apply firstn_skipn).
  assert (t = []) as ->.
  { apply at_dollar_cjk; [|exact Hd].
    rewrite Hwd in Hw. apply Forall_app in Hw. destruct Hw as [_ Hw].
    apply Forall_app in Hw. tauto. }
  rewrite app_nil_r in Hwd. split; [exact Hwd|].
  rewrite firstn_length_le by lia. lia.
Qed.

Lemma prefix_backtrack_spec (rest : str) (k : nat) (n : str) :
  prefix_backtrack rest k = Some n ->
  exists k', (1 <= k' <= k)%nat /\ n = firstn k' rest
             /\ at_dollar (skipn k' rest) = true.
Proof.
  induction k as [|k IH]; cbn [prefix_backtrack]; [discriminate|].
  destruct (at_dollar (skipn (S k) rest)) eqn:E.
  - intros H. injection H as <-. exists (S k). split; [lia|]. auto.
  - intros H. destruct (IH H) as (k' & Hk & R). exists k'. split; [lia|exact R].
Qed.

Lemma prefix_alternatives_spec (alts : list str) (word n p : str) :
  prefix_alternatives alts word = Some (n, p) ->
  startswith word p = true
  /\ prefix_backtrack (skipn (length p) word)
                      (cjk_prefix_len (skipn (length p) word) 2) = Some n.
Proof.
  induction alts as [|q alts IH]; simpl; [discriminate|].
  destruct (startswith word q) eqn:E; [|exact IH].
  destruct (prefix_backtrack (skipn (length q) word)
              (cjk_prefix_len (skipn (length q) word) 2)) as [m|] eqn:E2;
    [|exact IH].
  intros H. injection H as <- <-. auto.
Qed.

(** On a CJK word the prefix pattern splits the word into the prefix and a
    name of one or two characters. *)
Lemma prefix_word_spec (cfg : NameGuardConfig) (word n p : str) :
  Forall (fun c => is_cjk c = true) word ->
  _extract_from_prefix_word cfg word = Some (n, p) ->
  word = p ++ n /\ (1 <= length n <= 2)%nat.
Proof.
  intros Hw. unfold _extract_from_prefix_word.
  destruct (sorted_by_len_desc (honorific_prefix_patterns cfg)) as [|s0 ss];
    [discriminate|].
  intros H. apply prefix_alternatives_spec in H. destruct H as [Hs Hb].
  apply startswith_app in Hs. destruct Hs as [rest ->].
  rewrite skipn_app, skipn_all, Nat.sub_diag in Hb. simpl in Hb.
  apply prefix_backtrack_spec in Hb. destruct Hb as (k & Hk & -> & Hd).
  pose proof (cjk_prefix_len_le rest 2) as [L1 L2].
  assert (skipn k rest = []) as Hnil.
  { apply at_dollar_cjk; [|exact Hd].
    apply Forall_app in Hw. destruct Hw as [_ Hw].
    rewrite <- (firstn_skipn k rest) in Hw. apply Forall_app in Hw. tauto. }
  split.
  - f_equal. rewrite <- (firstn_skipn k rest) at 1. rewrite Hnil.
    apply app_nil_r.
  - rewrite firstn_length_le by lia. lia.
Qed.

(** ** The candidates of a part *)

Lemma word_in_segment (segment : str) (length i : nat) :
  (i + length <= List.length segment)%nat ->
  segment = firstn i segment ++ firstn length (skipn i segment)
            ++ skipn length (skipn i segment)
  /\ List.length (firstn i segment) = i
  /\ List.length (firstn length (skipn i segment)) = length.
Proof.
  intros H. split; [|split].
  - rewrite (firstn_skipn length (skipn i segment)).
    symmetry. apply firstn_skipn.
  - apply firstn_length_le. lia.
  - apply firstn_length_le. rewrite length_skipn. lia.
Qed.

Lemma span_facts (part : str) (o : nat) (w : str) :
  at_offset part o w -> (1 <= List.length w)%nat ->
  0 <= Z.of_nat o /\ Z.of_nat o < Z.of_nat o + len w
  /\ Z.of_nat o + len w <= len part
  /\ slice part (Z.of_nat o) (Z.of_nat o + len w) = w.
Proof.
  intros Ha Hl. split; [lia|]. split; [unfold len; lia|].
  split; [apply at_offset_bound; assumption | apply slice_at_offset; assumption].
Qed.

Lemma visit_word_ok (cfg : NameGuardConfig) (part full_context : str)
    (o : nat) (segment : str) (length i : nat) (st : extraction_state) :
  at_offset part o segment ->
  Forall (fun c => is_cjk c = true) segment ->
  (1 <= length)%nat -> (i + length <= List.length segment)%nat ->
  Forall (extracted_ok part) (fst st) ->
  Forall (extracted_ok part)
         (fst (visit_word cfg part full_context (Z.of_nat o) segment
                          length i st)).
Proof.
  intros Hat Hcjk Hlen Hin Hst. destruct st as [candidates cache].
  simpl in Hst. unfold visit_word.
  destruct (word_in_segment segment length i Hin) as (Hseg & Hli & Hlw).
  set (word := firstn length (skipn i segment)) in *.
  assert (Hword : at_offset part (o + i) word).
  { rewrite <- Hli at 1. eapply at_offset_inside. rewrite <- Hseg. exact Hat. }
  assert (Hwcjk : Forall (fun c => is_cjk c = true) word).
  { rewrite Hseg in Hcjk. apply Forall_app in Hcjk. destruct Hcjk as [_ H].
    apply Forall_app in H. tauto. }
  replace (Z.of_nat o + Z.of_nat i) with (Z.of_nat (o + i)) by lia.
  destruct (_extract_from_suffix_word cfg word) as [[n a]|] eqn:Es.
  { destruct (suffix_word_spec cfg word n a Hwcjk Es) as [Hw Hn].
    destruct (is_name cfg n full_context _ true cache) as [[b sc] cache'].
    destruct b; simpl; [|assumption].
    apply Forall_app. split; [assumption|]. constructor; [|constructor].
    assert (Hna : at_offset part (o + i) n).
    { rewrite Hw in Hword.
      apply (at_offset_inside part (o + i) [] n a) in Hword.
      simpl in Hword. rewrite Nat.add_0_r in Hword. exact Hword. }
    assert (Haa : at_offset part (o + i + List.length n) a).
    { rewrite Hw in Hword.
      apply (at_offset_inside part (o + i) n a []).
      rewrite app_nil_r. exact Hword. }
    destruct (span_facts part _ n Hna) as (F1 & F2 & F3 & F4); [lia|].
    split; [|simpl; discriminate].
    pose proof (at_offset_bound _ _ _ Haa) as B.
    pose proof (slice_at_offset _ _ _ Haa) as S.
    replace (Z.of_nat (o + i + List.length n))
      with (Z.of_nat (o + i) + len n) in B, S by (unfold len; lia).
    unfold candidate_ok; simpl.
    split; [assumption|]. split; [assumption|]. split; [assumption|].
    split; [assumption|]. split; [lia|]. split; [reflexivity|].
    split; assumption. }
  destruct (_extract_from_prefix_word cfg word) as [[n p]|] eqn:Ep.
  { destruct (prefix_word_spec cfg word n p Hwcjk Ep) as [Hw Hn].
    destruct (is_name cfg n full_context _ true cache) as [[b sc] cache'].
    destruct b; simpl; [|assumption].
    apply Forall_app. split; [assumption|]. constructor; [|constructor].
    assert (Hpa : at_offset part (o + i) p).
    { rewrite Hw in Hword.
      apply (at_offset_inside part (o + i) [] p n) in Hword.
      simpl in Hword. rewrite Nat.add_0_r in Hword. exact Hword. }
    assert (Hna : at_offset part (o + i + List.length p) n).
    { rewrite Hw in Hword.
      apply (at_offset_inside part (o + i) p n []).
      rewrite app_nil_r. exact Hword. }
    destruct (span_facts part _ n Hna) as (F1 & F2 & F3 & F4); [lia|].
    assert (Hl : Z.of_nat length = len p + len n).
    { rewrite <- Hlw, Hw, length_app. unfold len. lia. }
    replace (Z.of_nat (o + i + List.length p))
      with (Z.of_nat (o + i) + len p) in F1, F2, F3, F4 by (unfold len; lia).
    replace (Z.of_nat (o + i) + len p + len n)
      with (Z.of_nat (o + i) + Z.of_nat length) in F2, F3, F4 by lia.
    split; [|simpl; discriminate].
    pose proof (slice_at_offset _ _ _ Hpa) as S.
    unfold candidate_ok; simpl.
    replace (Z.of_nat (o + i) + len p - len p) with (Z.of_nat (o + i)) by lia.
    split; [lia|]. split; [lia|]. split; [assumption|].
    split; [assumption|]. split; [lia|]. split; [reflexivity|].
    split; [lia | exact S]. }
  destruct ((1 <=? Z.of_nat length) && (Z.of_nat length <=? 3)) eqn:E13;
    [|assumption].
  destruct (_is_at_boundary part (Z.of_nat (o + i))
              (Z.of_nat (o + i) + Z.of_nat length)) eqn:Eb; simpl;
    [|assumption].
  destruct (is_name cfg word full_context _ false cache) as [[b sc] cache'].
  destruct b; simpl; [|assumption].
  apply Forall_app. split; [assumption|]. constructor; [|constructor].
  destruct (span_facts part _ word Hword) as (F1 & F2 & F3 & F4); [lia|].
  assert (Hl : len word = Z.of_nat length) by (unfold len; lia).
  rewrite Hl in *. apply andb_true_iff in E13. rewrite !Z.leb_le in E13.
  split.
  - unfold candidate_ok; simpl.
    split; [assumption|]. split; [assumption|]. split; [assumption|].
    split; [assumption|]. split; [lia|]. split; reflexivity.
  - simpl. intros _. split; [assumption | lia].
Qed.

Lemma fold_left_invariant {A B : Type} (f : A -> B -> A) (P : A -> Prop)
    (Q : B -> Prop) (l : list B) :
  (forall a b, Q b -> P a -> P (f a b)) ->
  Forall Q l -> forall a, P a -> P (fold_left f l a).
Proof.
  intros Hf Hl. induction Hl as [|b l Hb Hl IH]; intros a Ha; simpl; auto.
Qed.

Lemma scan_segment_ok (cfg : NameGuardConfig) (part full_context : str)
    (st : extraction_state) (p : Z) (r : str) :
  In (p, r) (finditer part) ->
  Forall (extracted_ok part) (fst st) ->
  Forall (extracted_ok part) (fst (scan_segment cfg part full_context st (p, r))).
Proof.
  intros Hin Hst. destruct (finditer_spec part p r Hin) as (o & -> & Hat & Hcjk).
  unfold scan_segment.
  apply (fold_left_invariant _
           (fun st => Forall (extracted_ok part) (fst st))
           (fun length => (1 <= length <= List.length r)%nat));
    [| |assumption].
  - intros st1 length Hl H1.
    apply (fold_left_invariant _
             (fun st => Forall (extracted_ok part) (fst st))
             (fun i => (i + length <= List.length r)%nat));
      [| |assumption].
    + intros st2 i Hi H2. apply visit_word_ok; [assumption..|lia|assumption|assumption].
    + apply Forall_forall. intros i Hi. unfold offsets_of in Hi.
      apply in_seq in Hi. lia.
  - apply Forall_forall. intros length Hl. unfold lengths_of in Hl.
    apply in_rev, in_seq in Hl. lia.
Qed.

(** Every candidate of a part satisfies the span invariant and, without
    affix, the boundary filter. *)
Lemma extract_candidates_ok (cfg : NameGuardConfig) (part full_context : str)
    (is_first_part : bool) (cache : occurrence_cache) :
  Forall (extracted_ok part)
    (fst (_extract_candidates_from_part cfg part full_context is_first_part
                                        cache)).
Proof.
  unfold _extract_candidates_from_part.
  apply (fold_left_invariant _
           (fun st => Forall (extracted_ok part) (fst st))
           (fun m => In m (finditer part))).
  - intros st [p r] Hm Hst. apply scan_segment_ok; assumption.
  - apply Forall_forall. auto.
  - constructor.
Qed.

Lemma select_loop_In (cs selected : list NameCandidate) (used : list (Z * Z))
    (c : NameCandidate) :
  In c (select_loop cs selected used) -> In c cs \/ In c selected.
Proof.
  revert selected used. induction cs as [|x cs IH]; intros selected used; simpl.
  - auto.
  - destruct (overlaps x used); intros H; apply IH in H.
    + tauto.
    + rewrite in_app_iff in H. simpl in H. tauto.
Qed.

Lemma select_non_overlapping_In (candidates : list NameCandidate)
    (c : NameCandidate) :
  In c (_select_non_overlapping candidates) -> In c candidates.
Proof.
  unfold _select_non_overlapping. destruct candidates as [|x l]; [auto|].
  intros H. apply select_loop_In in H. destruct H as [H|[]].
  eapply Permutation_in; [|exact H].
  symmetry. apply sorted_by_perm.
Qed.

(** ** The boundary filter *)

Lemma in_boundary_spec (text : str) (i : Z) :
  0 <= i -> in_boundary (char_at text i) = true <-> boundary_at text i.
Proof.
  intros Hi. unfold in_boundary, char_at, boundary_at.
  destruct (Z.ltb_spec i 0) as [Hn|_]; [lia|].
  destruct (nth_error text (Z.to_nat i)) as [x|].
  - rewrite existsb_exists. split.
    + intros [y [Hy E]]. apply Z.eqb_eq in E. subst y. eauto.
    + intros [ch [E Hc]]. injection E as <-. exists x.
      split; [assumption | apply Z.eqb_refl].
  - split; [discriminate | intros [ch [E _]]; discriminate].
Qed.

Lemma is_at_boundary_spec (text : str) (s e : Z) :
  0 <= e ->
  _is_at_boundary text s e = true <->
  s = 0 \/ (s > 0 /\ boundary_at text (s - 1))
  \/ e = len text \/ (e < len text /\ boundary_at text e).
Proof.
  intros H0. unfold _is_at_boundary.
  rewrite !orb_true_iff, !Z.eqb_eq.
  destruct (Z.gtb_spec s 0) as [Hs|Hs];
    destruct (Z.ltb_spec e (len text)) as [He|He];
    rewrite ?in_boundary_spec by lia; simpl;
    intuition (try discriminate; try lia).
Qed.

(** C6, as the code has it: a word that matches neither honorific pattern
    and does not stand at a boundary is dropped before it is evaluated (the
    candidates and the cache stay as they were); so every candidate without
    affix has one to three characters and starts at the start of the part, or
    follows a boundary character, or is followed by one, or ends at the end
    of the part. *)
Theorem boundary_filter (cfg : NameGuardConfig) (part full_context : str) :
  (forall (segment_start : Z) (segment : str) (length i : nat)
          (st : extraction_state),
      let word := firstn length (skipn i segment) in
      let word_start := segment_start + Z.of_nat i in
      _extract_from_suffix_word cfg word = None ->
      _extract_from_prefix_word cfg word = None ->
      _is_at_boundary part word_start (word_start + Z.of_nat length) = false ->
      visit_word cfg part full_context segment_start segment length i st = st)
  /\
  (forall (is_first_part : bool) (cache : occurrence_cache)
          (c : NameCandidate),
      In c (fst (_extract_candidates_from_part cfg part full_context
                                               is_first_part cache)) ->
      has_affix c = false ->
      1 <= len (name c) <= 3
      /\ (start c = 0
          \/ boundary_at part (start c - 1)
          \/ boundary_at part (end_ c)
          \/ end_ c = len part)).
Proof.
  split.
  - intros segment_start segment length i [candidates cache] word word_start
           Hs Hp Hb.
    unfold visit_word. fold word. rewrite Hs, Hp. fold word_start.
    rewrite Hb. simpl.
    destruct ((1 <=? Z.of_nat length) && (Z.of_nat length <=? 3)); reflexivity.
  - intros ifp cache c Hin Hna.
    pose proof (extract_candidates_ok cfg part full_context ifp cache) as H.
    rewrite Forall_forall in H. destruct (H c Hin) as [Hok Hb].
    destruct (Hb Hna) as [Hbd Hl3].
    destruct Hok as (H0 & Hlt & _ & _ & Hlen & _).
    split; [lia|].
    apply is_at_boundary_spec in Hbd; [tauto | lia].
Qed.

Lemma boundary_filter_witness :
  In {| name := [29579]; start := 1; end_ := 2; score := 999;
        has_affix := false; affix_type := NoAffix; affix := [] |}
     (fst (_extract_candidates_from_part known_wang_config [35828; 29579]
             [35828; 29579] true []))
  /\ 1 <= len [29579] <= 3
  /\ (1 = 0 \/ boundary_at [35828; 29579] (1 - 1)
      \/ boundary_at [35828; 29579] 2 \/ 2 = len [35828; 29579]).
Proof.
  split; [vm_compute; left; reflexivity|].
  apply (proj2 (boundary_filter known_wang_config [35828; 29579]
                                [35828; 29579]) true []
           {| name := [29579]; start := 1; end_ := 2; score := 999;
              has_affix := false; affix_type := NoAffix; affix := [] |}).
  - vm_compute. left. reflexivity.
  - reflexivity.
Defined.

(** C6 as stated fails: with 王 on the allow-list, the part 说王 yields the
    candidate 王 without affix at [1,2), which does not start the part, does
    not follow a boundary character and is followed by no character at
    all. *)
Lemma boundary_filter_counterexample :
  exists c : NameCandidate,
    In c (fst (_extract_candidates_from_part known_wang_config [35828; 29579]
                 [35828; 29579] true []))
    /\ has_affix c = false
    /\ start c <> 0
    /\ ~ boundary_at [35828; 29579] (start c - 1)
    /\ ~ boundary_at [35828; 29579] (end_ c).
Proof.
  exists {| name := [29579]; start := 1; end_ := 2; score := 999;
            has_affix := false; affix_type := NoAffix; affix := [] |}.
  split; [vm_compute; left; reflexivity|].
  split; [reflexivity|]. split; [discriminate|].
  split; intros [ch [E Hc]]; vm_compute in E; try discriminate.
  injection E as <-. vm_compute in Hc.
  repeat (destruct Hc as [Hc|Hc]; [discriminate Hc|]). exact Hc.
Qed.

(** ** Dictionaries *)

Section DictFacts.
Context {V : Type}.
Implicit Types (d : list (str * V)) (k : str) (v : V).

Lemma dict_get_set_same d k v : dict_get (dict_set d k v) k = Some v.
Proof.
  induction d as [|[k' v'] d IH]; simpl.
  - rewrite str_eqb_refl. reflexivity.
  - destruct (str_eqb k k') eqn:E; simpl; rewrite E; auto.
Qed.

Lemma dict_get_set_other d k v k' :
  k' <> k -> dict_get (dict_set d k v) k' = dict_get d k'.
Proof.
  intros Hne. induction d as [|[k0 v0] d IH]; simpl.
  - apply str_eqb_neq in Hne. rewrite Hne. reflexivity.
  - destruct (str_eqb k k0) eqn:E; simpl.
    + apply str_eqb_eq in E. subst k0.
      apply str_eqb_neq in Hne. rewrite Hne. reflexivity.
    + destruct (str_eqb k' k0); auto.
Qed.

Lemma dict_get_None_keys d k :
  dict_get d k = None <-> ~ In k (map fst d).
Proof.
  induction d as [|[k' v'] d IH]; simpl; [tauto|].
  destruct (str_eqb k k') eqn:E.
  - apply str_eqb_eq in E. subst. split; [discriminate | tauto].
  - apply str_eqb_neq in E. rewrite IH. split; [|tauto].
    intros H [H1|H1]; [congruence | tauto].
Qed.

(** A new key goes last. *)
Lemma dict_set_new d k v :
  ~ In k (map fst d) -> dict_set d k v = d ++ [(k, v)].
Proof.
  induction d as [|[k' v'] d IH]; simpl; [reflexivity|].
  intros H. destruct (str_eqb k k') eqn:E.
  - apply str_eqb_eq in E. subst. tauto.
  - rewrite IH by tauto. reflexivity.
Qed.

Lemma dict_set_keys d k v k' :
  In k' (map fst (dict_set d k v)) -> k' = k \/ In k' (map fst d).
Proof.
  induction d as [|[k0 v0] d IH]; simpl.
  - intuition.
  - destruct (str_eqb k k0) eqn:E; simpl; intuition.
Qed.
End DictFacts.

(** ** Assigning placeholders *)

(** The loop over the accepted candidates appends one triple per candidate,
    with the placeholder the dictionary holds for its name at the end of the
    loop; entries of the dictionary are never changed, and every new key of
    the placeholder-to-name map is the placeholder of one of the triples. *)
Lemma assign_fold (cfg : NameGuardConfig) (selected : list NameCandidate) :
  forall (st : Locals) (rs0 : list replacement),
    let st' := fst (fold_left (assign_placeholder cfg) selected (st, rs0)) in
    snd (fold_left (assign_placeholder cfg) selected (st, rs0))
    = rs0 ++ map (triple_of st') selected
    /\ (forall n p, dict_get (name_to_placeholder st) n = Some p ->
                    dict_get (name_to_placeholder st') n = Some p)
    /\ (forall c, In c selected ->
                  dict_get (name_to_placeholder st') (name c) <> None)
    /\ (forall k, In k (map fst (name_map st')) ->
                  In k (map fst (name_map st))
                  \/ In k (map (fun r => snd r) (map (triple_of st') selected)))
    /\ replaced_parts st' = replaced_parts st
    /\ cache_ st' = cache_ st.
Proof.
  induction selected as [|c cs IH]; intros st rs0.
  - simpl. rewrite app_nil_r. repeat split; auto; try tauto.
  - cbn [fold_left map In].
    assert (Hacc : exists st1 p,
               assign_placeholder cfg (st, rs0) c
               = (st1, rs0 ++ [(start c, end_ c, p)])
               /\ dict_get (name_to_placeholder st1) (name c) = Some p
               /\ (forall n q, dict_get (name_to_placeholder st) n = Some q ->
                               dict_get (name_to_placeholder st1) n = Some q)
               /\ (forall k, In k (map fst (name_map st1)) ->
                             In k (map fst (name_map st)) \/ k = p)
               /\ replaced_parts st1 = replaced_parts st
               /\ cache_ st1 = cache_ st).
    { unfold assign_placeholder.
      destruct (dict_get (name_to_placeholder st) (name c)) as [p|] eqn:E.
      - exists st, p. repeat split; auto.
      - eexists _, _. split; [reflexivity|]. simpl.
        split; [apply dict_get_set_same|]. split.
        + intros n q Hn. rewrite dict_get_set_other; [assumption|].
          intros ->. congruence.
        + split; [|split; reflexivity].
          intros k Hk. apply dict_set_keys in Hk. tauto. }
    destruct Hacc as (st1 & p & Hacc & Hp & Hmono & Hkeys & Hrp & Hca).
    rewrite Hacc.
    specialize (IH st1 (rs0 ++ [(start c, end_ c, p)])).
    simpl in IH. destruct IH as (IH1 & IH2 & IH3 & IH4 & IH5 & IH6).
    set (st' := fst (fold_left (assign_placeholder cfg) cs
                       (st1, rs0 ++ [(start c, end_ c, p)]))) in *.
    assert (Hc : triple_of st' c = (start c, end_ c, p)).
    { unfold triple_of, placeholder_of. rewrite (IH2 _ _ Hp). reflexivity. }
    split; [rewrite IH1, Hc, <- app_assoc; reflexivity|].
    split; [auto|]. split.
    { intros c' [<-|H]; [rewrite (IH2 _ _ Hp); discriminate | auto]. }
    split; [|split; congruence].
    intros k Hk. destruct (IH4 k Hk) as [H|H]; [|right; right; exact H].
    destruct (Hkeys k H) as [H'| ->]; [left; exact H'|].
    right. left. rewrite Hc. reflexivity.
Qed.

(** ** Rewriting a part *)

Section OrdPairsPerm.
Context {A : Type} (R : A -> A -> Prop).
Hypothesis R_sym : forall a b, R a b -> R b a.

Lemma ForallOrdPairs_perm (l l' : list A) :
  Permutation l l' -> ForallOrdPairs R l -> ForallOrdPairs R l'.
Proof.
  induction 1 as [|x l l' Hp IH|x y l|l l' l'' H1 IH1 H2 IH2]; intros H.
  - assumption.
  - inversion H; subst. constructor; [|auto].
    eapply Permutation_Forall; eassumption.
  - inversion H as [|? ? Hy Hxl]; subst.
    inversion Hxl as [|? ? Hx Hl]; subst.
    inversion Hy; subst.
    constructor; [constructor; auto|]. constructor; assumption.
  - auto.
Qed.
End OrdPairsPerm.

Lemma ForallOrdPairs_impl {A : Type} (R R' : A -> A -> Prop) (l : list A) :
  (forall a b, R a b -> R' a b) -> ForallOrdPairs R l -> ForallOrdPairs R' l.
Proof.
  intros Himp. induction 1 as [|a l Ha Hl IH]; [constructor|].
  constructor; [|assumption].
  eapply Forall_impl; [|exact Ha]. intros b. apply Himp.
Qed.

Lemma ForallOrdPairs_map {A B : Type} (f : A -> B) (R : B -> B -> Prop)
    (l : list A) :
  ForallOrdPairs (fun a b => R (f a) (f b)) l -> ForallOrdPairs R (map f l).
Proof.
  induction 1 as [|a l Ha Hl IH]; simpl; constructor; [|assumption].
  apply Forall_map. exact Ha.
Qed.

Lemma desc_chain_build (rs : list replacement) :
  forall bound,
    Forall (fun r => 0 <= fst (fst r) /\ fst (fst r) < snd (fst r)
                     /\ snd (fst r) <= bound) rs ->
    ForallOrdPairs (fun a b => fst (fst b) <= fst (fst a)) rs ->
    ForallOrdPairs disjoint_spans rs ->
    desc_chain bound rs.
Proof.
  induction rs as [|[[s e] p] rs IH]; intros bound Hv Ho Hd; simpl; [exact I|].
  inversion Hv as [|? ? Hr Hv']; subst. simpl in Hr.
  inversion Ho as [|? ? Ho1 Ho']; subst.
  inversion Hd as [|? ? Hd1 Hd']; subst.
  split; [lia|]. split; [lia|]. split; [lia|].
  apply IH; [|assumption|assumption].
  rewrite Forall_forall in *. intros r Hin.
  specialize (Hv' r Hin). specialize (Ho1 r Hin). specialize (Hd1 r Hin).
  unfold disjoint_spans in Hd1. simpl in Ho1, Hd1. lia.
Qed.

Lemma desc_chain_In (rs : list replacement) :
  forall bound s e p,
    desc_chain bound rs -> In (s, e, p) rs -> 0 <= s /\ s < e /\ e <= bound.
Proof.
  induction rs as [|[[s1 e1] p1] rs IH]; intros bound s e p Hc Hin;
    simpl in *; [contradiction|].
  destruct Hc as (H0 & H1 & H2 & Hc).
  destruct Hin as [E|Hin]; [injection E as <- <- <-; lia|].
  specialize (IH _ _ _ _ Hc Hin). lia.
Qed.

Lemma slice_to_nonneg (cur : str) (s : Z) :
  0 <= s -> slice_to cur s = firstn (Z.to_nat s) cur.
Proof. intros H. unfold slice_to. rewrite norm_index_nonneg; auto. Qed.

Lemma slice_from_nonneg (cur : str) (e : Z) :
  0 <= e -> slice_from cur e = skipn (Z.to_nat e) cur.
Proof. intros H. unfold slice_from. rewrite norm_index_nonneg; auto. Qed.

Lemma replace_span_app (X Y : str) (s e : Z) (p : str) :
  0 <= s -> s <= e -> e <= len X ->
  replace_span (X ++ Y) (s, e, p) = replace_span X (s, e, p) ++ Y.
Proof.
  intros H0 H1 H2. unfold replace_span.
  rewrite !slice_to_nonneg, !slice_from_nonneg by lia.
  unfold len in H2.
  rewrite firstn_app, skipn_app.
  replace (Z.to_nat s - length X)%nat with 0%nat by lia.
  replace (Z.to_nat e - length X)%nat with 0%nat by lia.
  simpl. rewrite app_nil_r, <- !app_assoc. reflexivity.
Qed.

Lemma fold_replace_app (rs : list replacement) :
  forall bound X Y,
    desc_chain bound rs -> bound <= len X ->
    fold_left replace_span rs (X ++ Y) = fold_left replace_span rs X ++ Y.
Proof.
  induction rs as [|[[s e] p] rs IH]; intros bound X Y Hc Hb; simpl;
    [reflexivity|].
  destruct Hc as (H0 & H1 & H2 & Hc).
  fold (replace_span (X ++ Y) (s, e, p)). fold (replace_span X (s, e, p)).
  rewrite replace_span_app by lia.
  apply (IH s); [assumption|].
  unfold replace_span. rewrite slice_to_nonneg by lia.
  rewrite len_app. unfold len in *.
  rewrite firstn_length_le by lia.
  pose proof (len_nonneg (p ++ slice_from X e)). unfold len in *. lia.
Qed.

(** The rewrite, unfolded by one replacement: what stands before the span
    is rewritten by the replacements that follow, and what stands after the
    span is left as it is. *)
Lemma fold_replace_cons (rs : list replacement) (bound s e : Z) (p cur : str) :
  desc_chain bound ((s, e, p) :: rs) -> bound <= len cur ->
  fold_left replace_span ((s, e, p) :: rs) cur
  = fold_left replace_span rs (firstn (Z.to_nat s) cur)
    ++ p ++ skipn (Z.to_nat e) cur.
Proof.
  intros (H0 & H1 & H2 & Hc) Hb. simpl.
  rewrite slice_to_nonneg, slice_from_nonneg by lia.
  apply (fold_replace_app rs s); [assumption|].
  unfold len in *. rewrite firstn_length_le by lia. lia.
Qed.

(** Every placeholder of the replacements occurs in the rewritten part. *)
Lemma placeholder_occurs (rs : list replacement) :
  forall bound cur s e p,
    desc_chain bound rs -> bound <= len cur -> In (s, e, p) rs ->
    occurs p (fold_left replace_span rs cur).
Proof.
  induction rs as [|[[s1 e1] p1] rs IH]; intros bound cur s e p Hc Hb Hin;
    [destruct Hin|].
  rewrite (fold_replace_cons rs bound) by assumption.
  destruct Hc as (H0 & H1 & H2 & Hc).
  destruct Hin as [E|Hin].
  - injection E as -> -> ->. eexists _, _. reflexivity.
  - assert (Hl : s1 <= len (firstn (Z.to_nat s1) cur)).
    { unfold len in *. rewrite firstn_length_le by lia. lia. }
    destruct (IH s1 _ s e p Hc Hl Hin) as (a & b & Hab).
    rewrite Hab. exists a, (b ++ p1 ++ skipn (Z.to_nat e1) cur).
    rewrite <- !app_assoc. reflexivity.
Qed.

Lemma sorted_replacements_perm (rs : list replacement) :
  Permutation rs (sorted_replacements rs).
Proof. apply sorted_by_perm. Qed.

Lemma sorted_replacements_desc (rs : list replacement) :
  ForallOrdPairs (fun a b => fst (fst b) <= fst (fst a))
                 (sorted_replacements rs).
Proof.
  pose proof (sorted_by_in_order
                (fun y x : replacement => - fst (fst y) <? - fst (fst x))) as H.
  assert (Ho : ForallOrdPairs
                 (in_order (fun y x : replacement =>
                              - fst (fst y) <? - fst (fst x)))
                 (sorted_replacements rs)).
  { apply H.
    - intros x y E. apply Z.ltb_lt in E. apply Z.ltb_ge. lia.
    - intros x y z E. apply Z.ltb_lt in E.
      destruct (- fst (fst x) <? - fst (fst y)) eqn:E1; [left; reflexivity|].
      right. apply Z.ltb_ge in E1. apply Z.ltb_lt. lia. }
  clear H. eapply ForallOrdPairs_impl; [|exact Ho].
  intros a b Hab. unfold in_order in Hab. apply Z.ltb_ge in Hab. lia.
Qed.

(** The replacements of the accepted candidates of a part, in the order the
    rewrite applies them, descend through the part without touching each
    other. *)
Lemma part_replacements_chain (cfg : NameGuardConfig)
    (part full_context : str) (is_first_part : bool)
    (cache : occurrence_cache) (st' : Locals) :
  desc_chain (len part)
    (sorted_replacements
       (map (triple_of st')
            (_select_non_overlapping
               (fst (_extract_candidates_from_part cfg part full_context
                                                   is_first_part cache))))).
Proof.
  set (sel := _select_non_overlapping _).
  assert (Hok : Forall (candidate_ok part) sel).
  { apply Forall_forall. intros c Hc. unfold sel in Hc.
    apply select_non_overlapping_In in Hc.
    pose proof (extract_candidates_ok cfg part full_context is_first_part
                                      cache) as H.
    rewrite Forall_forall in H. apply H. assumption. }
  apply desc_chain_build.
  - eapply Permutation_Forall; [apply sorted_replacements_perm|].
    apply Forall_map. eapply Forall_impl; [|exact Hok].
    intros c (H0 & H1 & H2 & _). simpl. lia.
  - apply sorted_replacements_desc.
  - eapply ForallOrdPairs_perm; [|apply sorted_replacements_perm|].
    + intros a b. unfold disjoint_spans. tauto.
    + apply ForallOrdPairs_map.
      pose proof (select_non_overlapping_pairs
                    (fst (_extract_candidates_from_part cfg part full_context
                            is_first_part cache))) as Hp.
      fold sel in Hp.
      eapply ForallOrdPairs_impl; [|exact Hp].
      intros a b Hab. unfold spans_overlap in Hab.
      apply andb_false_iff in Hab. rewrite Z.gtb_ltb, !Z.ltb_ge in Hab.
      unfold disjoint_spans, triple_of. simpl. lia.
Qed.

Lemma contains_occurs (s sub : str) : contains s sub = true <-> occurs sub s.
Proof.
  unfold occurs. induction s as [|c s IH]; cbn [contains].
  - rewrite orb_false_r, startswith_app. split.
    + intros [t Ht]. exists [], t. exact Ht.
    + intros (a & b & H). destruct a; [exists b; exact H|discriminate].
  - rewrite orb_true_iff, startswith_app, IH. split.
    + intros [[t Ht]|(a & b & ->)].
      * exists [], t. exact Ht.
      * exists (c :: a), b. reflexivity.
    + intros (a & b & H). destruct a as [|x a]; simpl in H.
      * left. exists b. exact H.
      * right. injection H as -> ->. eauto.
Qed.

Lemma occurs_app (sub s a b : str) : occurs sub s -> occurs sub (a ++ s ++ b).
Proof.
  intros (x & y & ->). exists (a ++ x), (y ++ b).
  rewrite <- !app_assoc. reflexivity.
Qed.

Lemma firstn_skipn_firstn {A : Type} (l : list A) (a k b : nat) :
  (a + k <= b)%nat ->
  firstn k (skipn a (firstn b l)) = firstn k (skipn a l).
Proof.
  intros H. rewrite skipn_firstn_comm, firstn_firstn.
  f_equal. lia.
Qed.

Lemma firstn_split_at {A : Type} (l : list A) (a k : nat) :
  firstn (a + k) l = firstn a l ++ firstn k (skipn a l).
Proof.
  revert l. induction a as [|a IH]; intros l; simpl; [reflexivity|].
  destruct l as [|x l]; simpl.
  - rewrite firstn_nil. reflexivity.
  - rewrite IH. reflexivity.
Qed.

Lemma desc_chain_bound (rs : list replacement) (b b' : Z) :
  desc_chain b rs -> Forall (fun r => snd (fst r) <= b') rs ->
  desc_chain b' rs.
Proof.
  destruct rs as [|[[s e] p] rs]; simpl; [auto|].
  intros (H0 & H1 & H2 & Hc) Hf. inversion Hf; subst. simpl in *. tauto.
Qed.

(** A suffix that no replaced span touches stands right after the
    placeholder of its name. *)
Lemma suffix_kept (rs : list replacement) :
  forall bound cur s e p (k : nat),
    desc_chain bound rs -> bound <= len cur -> In (s, e, p) rs ->
    (forall r, In r rs ->
               ~ (fst (fst r) < e + Z.of_nat k /\ snd (fst r) > e)) ->
    occurs (p ++ firstn k (skipn (Z.to_nat e) cur))
           (fold_left replace_span rs cur).
Proof.
  induction rs as [|[[s1 e1] p1] rs IH]; intros bound cur s e p k Hc Hb Hin Hno;
    [destruct Hin|].
  rewrite (fold_replace_cons rs bound) by assumption.
  destruct Hc as (H0 & H1 & H2 & Hc).
  destruct Hin as [E|Hin].
  - injection E as -> -> ->.
    exists (fold_left replace_span rs (firstn (Z.to_nat s) cur)),
           (skipn k (skipn (Z.to_nat e) cur)).
    rewrite <- !app_assoc. rewrite firstn_skipn. reflexivity.
  - pose proof (desc_chain_In _ _ _ _ _ Hc Hin) as Hr.
    pose proof (Hno _ (or_introl eq_refl)) as Hhead. simpl in Hhead.
    assert (Hl : s1 <= len (firstn (Z.to_nat s1) cur)).
    { unfold len in *. rewrite firstn_length_le by lia. lia. }
    assert (Hno' : forall r, In r rs ->
                ~ (fst (fst r) < e + Z.of_nat k /\ snd (fst r) > e))
      by (intros r Hr'; apply Hno; right; exact Hr').
    pose proof (IH s1 _ s e p k Hc Hl Hin Hno') as Ho.
    rewrite firstn_skipn_firstn in Ho by lia.
    apply (occurs_app _ _ [] (p1 ++ skipn (Z.to_nat e1) cur)) in Ho.
    exact Ho.
Qed.

(** A prefix that no replaced span touches stands right before the
    placeholder of its name. *)
Lemma prefix_kept (rs : list replacement) :
  forall bound cur s e p (k : nat),
    desc_chain bound rs -> bound <= len cur -> In (s, e, p) rs ->
    Z.of_nat k <= s ->
    (forall r, In r rs ->
               ~ (fst (fst r) < s /\ snd (fst r) > s - Z.of_nat k)) ->
    occurs (firstn k (skipn (Z.to_nat s - k) cur) ++ p)
           (fold_left replace_span rs cur).
Proof.
  induction rs as [|[[s1 e1] p1] rs IH];
    intros bound cur s e p k Hc Hb Hin Hk Hno; [destruct Hin|].
  rewrite (fold_replace_cons rs bound) by assumption.
  destruct Hc as (H0 & H1 & H2 & Hc).
  assert (Hno' : forall r, In r rs ->
              ~ (fst (fst r) < s /\ snd (fst r) > s - Z.of_nat k))
    by (intros r Hr'; apply Hno; right; exact Hr').
  destruct Hin as [E|Hin].
  - injection E as -> -> ->.
    assert (Hc' : desc_chain (s - Z.of_nat k) rs).
    { apply (desc_chain_bound rs s); [assumption|].
      apply Forall_forall. intros [[s' e'] p'] Hr.
      pose proof (desc_chain_In _ _ _ _ _ Hc Hr).
      specialize (Hno' _ Hr). simpl in *. lia. }
    assert (Hsplit : firstn (Z.to_nat s) cur
                     = firstn (Z.to_nat s - k) cur
                       ++ firstn k (skipn (Z.to_nat s - k) cur)).
    { rewrite <- firstn_split_at. f_equal. lia. }
    rewrite Hsplit.
    rewrite (fold_replace_app rs (s - Z.of_nat k)); [|assumption|].
    + exists (fold_left replace_span rs (firstn (Z.to_nat s - k) cur)),
             (skipn (Z.to_nat e) cur).
      rewrite <- !app_assoc. reflexivity.
    + unfold len in *. rewrite firstn_length_le by lia. lia.
  - pose proof (desc_chain_In _ _ _ _ _ Hc Hin) as Hr.
    assert (Hl : s1 <= len (firstn (Z.to_nat s1) cur)).
    { unfold len in *. rewrite firstn_length_le by lia. lia. }
    pose proof (IH s1 _ s e p k Hc Hl Hin Hk Hno') as Ho.
    rewrite firstn_skipn_firstn in Ho by lia.
    apply (occurs_app _ _ [] (p1 ++ skipn (Z.to_nat e1) cur)) in Ho.
    exact Ho.
Qed.

(** ** Processing one part *)

Lemma process_part_spec (cfg : NameGuardConfig) (text : str) (part_idx : Z)
    (part : str) (st : Locals) :
  let sel := selected_of cfg text part_idx part st in
  let st' := process_part cfg text part_idx part st in
  replaced_parts st'
  = replaced_parts st ++ [rewrite_part part (map (triple_of st') sel)]
  /\ (forall n p, dict_get (name_to_placeholder st) n = Some p ->
                  dict_get (name_to_placeholder st') n = Some p)
  /\ (forall c, In c sel ->
                dict_get (name_to_placeholder st') (name c) <> None)
  /\ (forall k, In k (map fst (name_map st')) ->
                In k (map fst (name_map st))
                \/ In k (map (fun r => snd r) (map (triple_of st') sel))).
Proof.
  unfold selected_of, process_part.
  destruct (_extract_candidates_from_part cfg part text (part_idx =? 0)
              (cache_ st)) as [cands cache].
  cbn [fst].
  set (st0 := {| name_map := name_map st;
                 name_to_placeholder := name_to_placeholder st;
                 name_index := name_index st;
                 cache_ := cache;
                 replaced_parts := replaced_parts st;
                 all_names := all_names st |}).
  pose proof (assign_fold cfg (_select_non_overlapping cands) st0 []) as H.
  destruct (fold_left (assign_placeholder cfg) (_select_non_overlapping cands)
              (st0, [])) as [st1 rs].
  cbn [fst snd] in H. destruct H as (H1 & H2 & H3 & H4 & H5 & _).
  cbn zeta. unfold triple_of, placeholder_of. cbn [name_to_placeholder
    replaced_parts name_map].
  split; [|split; [|split]].
  - rewrite H5, H1. reflexivity.
  - exact H2.
  - exact H3.
  - exact H4.
Qed.

Lemma slice_firstn_skipn (part : str) (i : Z) (k : nat) :
  0 <= i ->
  slice part i (i + Z.of_nat k) = firstn k (skipn (Z.to_nat i) part).
Proof.
  intros H. unfold slice. rewrite !norm_index_nonneg by lia.
  f_equal. lia.
Qed.

(** In one part: the replacement of an accepted affixed candidate covers
    the name and not the affix, and an affix that no accepted span touches
    stands next to the placeholder in the rewritten part. *)
Lemma affix_kept_in_part (cfg : NameGuardConfig) (text : str) (part_idx : Z)
    (part : str) (st : Locals) (c : NameCandidate) :
  let sel := selected_of cfg text part_idx part st in
  let st' := process_part cfg text part_idx part st in
  let out := rewrite_part part (map (triple_of st') sel) in
  In c sel ->
  replaced_parts st' = replaced_parts st ++ [out]
  /\ slice part (start c) (end_ c) = name c
  /\ (affix_type c = Suffix ->
      slice part (end_ c) (end_ c + len (affix c)) = affix c
      /\ ((forall c', In c' sel ->
             ~ (start c' < end_ c + len (affix c) /\ end_ c' > end_ c)) ->
          occurs (placeholder_of st' c ++ affix c) out))
  /\ (affix_type c = Prefix ->
      slice part (start c - len (affix c)) (start c) = affix c
      /\ ((forall c', In c' sel ->
             ~ (start c' < start c /\ end_ c' > start c - len (affix c))) ->
          occurs (affix c ++ placeholder_of st' c) out)).
Proof.
  intros sel st' out Hin.
  pose proof (process_part_spec cfg text part_idx part st) as (Hrp & _).
  fold st' sel in Hrp. split; [exact Hrp|].
  assert (Hok : candidate_ok part c).
  { unfold sel, selected_of in Hin. apply select_non_overlapping_In in Hin.
    pose proof (extract_candidates_ok cfg part text (part_idx =? 0)
                                      (cache_ st)) as H.
    rewrite Forall_forall in H. apply H. exact Hin. }
  destruct Hok as (H0 & Hlt & Hle & Hs & Hlen & Haff).
  split; [exact Hs|].
  pose proof (part_replacements_chain cfg part text (part_idx =? 0)
                (cache_ st) st') as Hchain.
  fold (selected_of cfg text part_idx part st) in Hchain. fold sel in Hchain.
  assert (Hc : In (start c, end_ c, placeholder_of st' c)
                  (sorted_replacements (map (triple_of st') sel))).
  { eapply Permutation_in; [apply sorted_replacements_perm|].
    apply (in_map (triple_of st') sel c Hin). }
  assert (Hback : forall r,
             In r (sorted_replacements (map (triple_of st') sel)) ->
             exists c', In c' sel /\ fst (fst r) = start c'
                        /\ snd (fst r) = end_ c').
  { intros r Hr.
    eapply Permutation_in in Hr;
      [|symmetry; apply sorted_replacements_perm].
    apply in_map_iff in Hr. destruct Hr as (c' & <- & Hc').
    exists c'. auto. }
  split; intros Hty; rewrite Hty in Haff; destruct Haff as (_ & Hb & Hsl);
    (split; [exact Hsl|]); intros Hno.
  - unfold len in Hsl at 1. rewrite slice_firstn_skipn in Hsl by lia.
    rewrite <- Hsl at 1. unfold out, rewrite_part.
    apply (suffix_kept _ (len part) part (start c)); [assumption|lia|assumption|].
    intros r Hr. destruct (Hback r Hr) as (c' & Hc' & -> & ->).
    apply Hno. exact Hc'.
  - replace (start c) with (start c - len (affix c) + Z.of_nat (length (affix c)))
      in Hsl at 2 by (unfold len; lia).
    rewrite slice_firstn_skipn in Hsl by lia.
    replace (Z.to_nat (start c - len (affix c)))
      with (Z.to_nat (start c) - length (affix c))%nat in Hsl
      by (unfold len in *; lia).
    rewrite <- Hsl at 1. unfold out, rewrite_part.
    apply (prefix_kept _ (len part) part (start c) (end_ c));
      [assumption|lia|assumption|unfold len in *; lia|].
    intros r Hr. destruct (Hback r Hr) as (c' & Hc' & -> & ->).
    apply Hno. exact Hc'.
Qed.

(** ** Spans of the replacements *)

Lemma slice_by_firstn (X : str) (s e : Z) :
  0 <= s -> s <= e ->
  slice X s e = skipn (Z.to_nat s) (firstn (Z.to_nat e) X).
Proof.
  intros H0 H1. unfold slice. rewrite !norm_index_nonneg by lia.
  rewrite firstn_skipn_comm. do 2 f_equal. lia.
Qed.

(** While the rewrite runs, what stands before the spans already replaced
    is still the text of the part: the span replaced next is in range and
    holds what it held in the part. *)
Lemma rewrite_steps (rs1 : list replacement) :
  forall bound cur s e p rs2,
    desc_chain bound (rs1 ++ (s, e, p) :: rs2) -> bound <= len cur ->
    e <= len (fold_left replace_span rs1 cur)
    /\ firstn (Z.to_nat e) (fold_left replace_span rs1 cur)
       = firstn (Z.to_nat e) cur.
Proof.
  induction rs1 as [|[[s1 e1] p1] rs1 IH]; intros bound cur s e p rs2 Hc Hb.
  - simpl in *. split; [lia | reflexivity].
  - cbn [app desc_chain] in Hc. destruct Hc as (H0 & H1 & H2 & Hc).
    cbn [fold_left].
    pose proof (desc_chain_In _ _ s e p Hc (in_elt _ _ _)) as Hr.
    assert (Hl : s1 <= len (replace_span cur (s1, e1, p1))).
    { unfold replace_span. rewrite slice_to_nonneg by lia.
      rewrite len_app. unfold len in *. rewrite firstn_length_le by lia.
      pose proof (len_nonneg (p1 ++ slice_from cur e1)). unfold len in *.
      lia. }
    destruct (IH s1 _ s e p rs2 Hc Hl) as [IH1 IH2].
    split; [exact IH1|]. rewrite IH2.
    unfold replace_span. rewrite slice_to_nonneg by lia.
    unfold len in *.
    rewrite firstn_app, firstn_firstn, firstn_length_le by lia.
    replace (Z.to_nat e - Z.to_nat s1)%nat with 0%nat by lia.
    rewrite Nat.min_l by lia. simpl. apply app_nil_r.
Qed.

(** C10: every accepted candidate of a part has
    [0 <= start <= end <= len(part)], its span holds exactly its name, and
    [end - start = len(name)]; and at every step of the descending-offset
    rewrite the triple applied is the span and placeholder of an accepted
    candidate, is in range of the text as rewritten so far, and covers
    exactly that candidate's name there; the step puts the placeholder in
    the place of that name and leaves what stands before and after it as it
    was. *)
Theorem replacement_spans_in_range (cfg : NameGuardConfig) (text : str)
    (part_idx : Z) (part : str) (st : Locals) :
  let sel := selected_of cfg text part_idx part st in
  let st' := process_part cfg text part_idx part st in
  (forall c, In c sel ->
             0 <= start c /\ start c <= end_ c /\ end_ c <= len part
             /\ slice part (start c) (end_ c) = name c
             /\ end_ c - start c = len (name c))
  /\ replaced_parts st'
     = replaced_parts st
       ++ [fold_left replace_span
             (sorted_replacements (map (triple_of st') sel)) part]
  /\ (forall rs1 s e p rs2,
         sorted_replacements (map (triple_of st') sel)
         = rs1 ++ (s, e, p) :: rs2 ->
         let cur := fold_left replace_span rs1 part in
         0 <= s /\ s <= e /\ e <= len cur
         /\ exists c, In c sel /\ s = start c /\ e = end_ c
                      /\ p = placeholder_of st' c
                      /\ slice cur s e = name c
                      /\ exists pre post,
                           cur = pre ++ name c ++ post
                           /\ len pre = s
                           /\ replace_span cur (s, e, p)
                              = pre ++ p ++ post).
Proof.
  intros sel st'.
  assert (Hok : forall c, In c sel -> candidate_ok part c).
  { intros c Hin. unfold sel, selected_of in Hin.
    apply select_non_overlapping_In in Hin.
    pose proof (extract_candidates_ok cfg part text (part_idx =? 0)
                                      (cache_ st)) as H.
    rewrite Forall_forall in H. apply H. exact Hin. }
  split; [|split].
  - intros c Hin. destruct (Hok c Hin) as (H0 & Hlt & Hle & Hs & Hlen & _).
    repeat split; try assumption; lia.
  - exact (proj1 (process_part_spec cfg text part_idx part st)).
  - intros rs1 s e p rs2 Heq cur.
    pose proof (part_replacements_chain cfg part text (part_idx =? 0)
                  (cache_ st) st') as Hchain.
    fold (selected_of cfg text part_idx part st) in Hchain.
    fold sel in Hchain. rewrite Heq in Hchain.
    pose proof (desc_chain_In _ _ s e p Hchain (in_elt _ _ _)) as Hr.
    destruct (rewrite_steps rs1 (len part) part s e p rs2 Hchain (Z.le_refl _))
      as [Hle Hfirst].
    fold cur in Hle, Hfirst.
    split; [lia|]. split; [lia|]. split; [exact Hle|].
    assert (Hin : In (s, e, p) (map (triple_of st') sel)).
    { eapply Permutation_in;
        [symmetry; apply sorted_replacements_perm|].
      rewrite Heq. apply in_elt. }
    apply in_map_iff in Hin. destruct Hin as (c & Hc & Hin).
    injection Hc as <- <- <-.
    exists c. split; [exact Hin|]. do 3 (split; [reflexivity|]).
    destruct (Hok c Hin) as (H0 & Hlt & _ & Hs & _).
    assert (Hcur : slice cur (start c) (end_ c) = name c).
    { rewrite <- Hs. rewrite !slice_by_firstn by lia.
      rewrite Hfirst. reflexivity. }
    split; [exact Hcur|].
    exists (firstn (Z.to_nat (start c)) cur), (skipn (Z.to_nat (end_ c)) cur).
    split; [|split].
    + rewrite <- Hcur, slice_by_firstn by lia.
      rewrite <- (firstn_skipn (Z.to_nat (end_ c)) cur) at 1.
      rewrite app_assoc. f_equal.
      rewrite <- (firstn_skipn (Z.to_nat (start c))
                    (firstn (Z.to_nat (end_ c)) cur)) at 1.
      f_equal. rewrite firstn_firstn. f_equal. lia.
    + unfold len in *. rewrite firstn_length_le; lia.
    + unfold replace_span.
      rewrite slice_to_nonneg, slice_from_nonneg by lia. reflexivity.
Qed.

Lemma replacement_spans_in_range_witness :
  In {| name := [24179; 23433]; start := 0; end_ := 2; score := 190;
        has_affix := true; affix_type := Suffix; affix := [21733] |}
     (selected_of honorific_config [24179; 23433; 21733] 0
                  [24179; 23433; 21733] initial_locals)
  /\ (0 <= 0 /\ 0 <= 2 /\ 2 <= len [24179; 23433; 21733]
      /\ slice [24179; 23433; 21733] 0 2 = [24179; 23433]
      /\ 2 - 0 = len [24179; 23433])
  /\ exists c pre post,
       In c (selected_of honorific_config [24179; 23433; 21733] 0
                         [24179; 23433; 21733] initial_locals)
       /\ [24179; 23433; 21733] = pre ++ name c ++ post
       /\ len pre = 0
       /\ replace_span [24179; 23433; 21733] (0, 2, default_format 0)
          = pre ++ default_format 0 ++ post.
Proof.
  assert (Hin : In {| name := [24179; 23433]; start := 0; end_ := 2;
                      score := 190; has_affix := true;
                      affix_type := Suffix; affix := [21733] |}
                   (selected_of honorific_config [24179; 23433; 21733] 0
                                [24179; 23433; 21733] initial_locals))
    by (vm_compute; left; reflexivity).
  split; [exact Hin|].
  destruct (replacement_spans_in_range honorific_config
              [24179; 23433; 21733] 0 [24179; 23433; 21733] initial_locals)
    as (Hspans & _ & Hsteps).
  split; [exact (Hspans _ Hin)|].
  assert (Heq : sorted_replacements
                  (map (triple_of
                          (process_part honorific_config
                             [24179; 23433; 21733] 0 [24179; 23433; 21733]
                             initial_locals))
                       (selected_of honorific_config [24179; 23433; 21733] 0
                                    [24179; 23433; 21733] initial_locals))
                = [] ++ (0, 2, default_format 0) :: [])
    by (vm_compute; reflexivity).
  destruct (Hsteps [] 0 2 (default_format 0) [] Heq)
    as (_ & _ & _ & c & Hc & _ & _ & _ & _ & pre & post & H1 & H2 & H3).
  exists c, pre, post. cbn [fold_left] in H1, H3.
  split; [exact Hc|]. split; [exact H1|]. split; [exact H2 | exact H3].
Defined.

(** ** Splitting and joining *)

Lemma split_from_nonempty (s sep cur : str) (skip : nat) :
  split_from s sep cur skip <> [].
Proof.
  revert cur skip. induction s as [|c s IH]; intros cur skip;
    cbn [split_from].
  - discriminate.
  - destruct skip; [destruct (startswith (c :: s) sep)|];
      first [apply IH | discriminate].
Qed.

Lemma join_cons (sep p : str) (rest : list str) :
  rest <> [] -> join sep (p :: rest) = p ++ sep ++ join sep rest.
Proof. destruct rest; [congruence | reflexivity]. Qed.

(** Joining the pieces with the separator gives the text back. *)
Lemma split_from_join (sep : str) :
  sep <> [] ->
  forall (s cur : str) (skip : nat),
    (skip <= length s)%nat ->
    join sep (split_from s sep cur skip) = cur ++ skipn skip s.
Proof.
  intros Hsep. induction s as [|c s IH]; intros cur skip Hskip.
  - simpl in Hskip. replace skip with 0%nat by lia.
    simpl. rewrite app_nil_r. reflexivity.
  - cbn [split_from]. destruct skip as [|k].
    + destruct (startswith (c :: s) sep) eqn:E.
      * apply startswith_app in E. destruct E as [t Ht].
        destruct sep as [|c0 sep']; [congruence|].
        injection Ht as -> ->.
        rewrite join_cons by apply split_from_nonempty.
        rewrite IH by (simpl; rewrite length_app; lia).
        simpl. rewrite skipn_app, skipn_all, Nat.sub_diag. reflexivity.
      * rewrite IH by lia. simpl. rewrite <- app_assoc. reflexivity.
    + rewrite IH by (simpl in Hskip; lia). reflexivity.
Qed.

Lemma split_join (text sep : str) (parts : list str) :
  split text sep = Some parts -> join sep parts = text.
Proof.
  unfold split. destruct sep as [|c0 sep'] eqn:E; [discriminate|].
  intros H. injection H as <-.
  rewrite split_from_join; [reflexivity | discriminate | lia].
Qed.

(** The pieces are made of characters of the text. *)
Lemma split_from_chars (sep : str) (P : char -> Prop) :
  forall (s cur : str) (skip : nat),
    Forall P s -> Forall P cur ->
    Forall (Forall P) (split_from s sep cur skip).
Proof.
  induction s as [|c s IH]; intros cur skip Hs Hcur; cbn [split_from].
  - constructor; [assumption | constructor].
  - inversion Hs; subst. destruct skip as [|k]; [|auto].
    destruct (startswith (c :: s) sep).
    + constructor; [assumption|]. apply IH; [assumption | constructor].
    + apply IH; [assumption|]. apply Forall_app. auto.
Qed.

(** ** Parts without CJK characters *)

Lemma finditer_from_no_cjk (s : str) :
  Forall (fun c => is_cjk c = false) s ->
  forall pos skip, finditer_from s pos skip = [].
Proof.
  induction 1 as [|c s Hc Hs IH]; intros pos skip; simpl; [reflexivity|].
  destruct skip; [rewrite Hc|]; apply IH.
Qed.

Lemma extract_no_cjk (cfg : NameGuardConfig) (part full_context : str)
    (is_first_part : bool) (cache : occurrence_cache) :
  Forall (fun c => is_cjk c = false) part ->
  _extract_candidates_from_part cfg part full_context is_first_part cache
  = ([], cache).
Proof.
  intros H. unfold _extract_candidates_from_part, finditer.
  rewrite finditer_from_no_cjk by assumption. reflexivity.
Qed.

Lemma process_part_no_cjk (cfg : NameGuardConfig) (text : str) (part_idx : Z)
    (part : str) (st : Locals) :
  Forall (fun c => is_cjk c = false) part ->
  process_part cfg text part_idx part st
  = {| name_map := name_map st;
       name_to_placeholder := name_to_placeholder st;
       name_index := name_index st;
       cache_ := cache_ st;
       replaced_parts := replaced_parts st ++ [part];
       all_names := all_names st |}.
Proof.
  intros H. unfold process_part. rewrite extract_no_cjk by assumption.
  reflexivity.
Qed.

Lemma parts_loop_no_cjk (cfg : NameGuardConfig) (text : str)
    (parts : list str) :
  Forall (Forall (fun c => is_cjk c = false)) parts ->
  forall part_idx st,
    parts_loop cfg text parts part_idx st
    = {| name_map := name_map st;
         name_to_placeholder := name_to_placeholder st;
         name_index := name_index st;
         cache_ := cache_ st;
         replaced_parts := replaced_parts st ++ parts;
         all_names := all_names st |}.
Proof.
  induction 1 as [|part parts Hp Hps IH]; intros part_idx st; simpl.
  - rewrite app_nil_r. destruct st; reflexivity.
  - rewrite IH, process_part_no_cjk by assumption. simpl.
    rewrite <- app_assoc. reflexivity.
Qed.

(** *** The loops with [format] as the source calls it *)

(** With the template whose rendering the configuration holds, [format]
    never raises and the loops of [Exn] are the loops over the rendering. *)
Lemma exn_assign_loop_agrees (cfg : NameGuardConfig)
    (selected : list NameCandidate) :
  forall acc,
    Exn.assign_loop (template_of cfg) selected acc
    = Some (fold_left (assign_placeholder cfg) selected acc).
Proof.
  induction selected as [|c cs IH]; intros [st rs]; cbn [Exn.assign_loop
    fold_left]; [reflexivity|].
  assert (E : Exn.assign_placeholder (template_of cfg) (st, rs) c
              = Some (assign_placeholder cfg (st, rs) c)).
  { unfold Exn.assign_placeholder, assign_placeholder, template_of.
    destruct (dict_get (name_to_placeholder st) (name c)); reflexivity. }
  rewrite E. apply IH.
Qed.

Lemma exn_process_part_agrees (cfg : NameGuardConfig) (text : str)
    (part_idx : Z) (part : str) (st : Locals) :
  Exn.process_part (template_of cfg) cfg text part_idx part st
  = Some (process_part cfg text part_idx part st).
Proof.
  unfold Exn.process_part, process_part.
  destruct (_extract_candidates_from_part cfg part text (part_idx =? 0)
              (cache_ st)) as [cands cache].
  rewrite exn_assign_loop_agrees.
  destruct (fold_left (assign_placeholder cfg) (_select_non_overlapping cands)
              _) as [st1 rs].
  reflexivity.
Qed.

Lemma exn_parts_loop_agrees (cfg : NameGuardConfig) (text : str)
    (parts : list str) :
  forall part_idx st,
    Exn.parts_loop (template_of cfg) cfg text parts part_idx st
    = Some (parts_loop cfg text parts part_idx st).
Proof.
  induction parts as [|part parts IH]; intros part_idx st;
    cbn [Exn.parts_loop parts_loop]; [reflexivity|].
  rewrite exn_process_part_agrees. apply IH.
Qed.

Lemma exn_agrees (cfg : NameGuardConfig) (text sep_marker : str) :
  Exn.extract_and_replace_names (template_of cfg) cfg text sep_marker
  = extract_and_replace_names cfg text sep_marker.
Proof.
  unfold Exn.extract_and_replace_names, extract_and_replace_names.
  destruct (split text sep_marker) as [parts|]; [|reflexivity].
  rewrite exn_parts_loop_agrees. reflexivity.
Qed.

(** A template that renders at every index from 0 on never makes the loops
    raise: the index only grows from 0. *)
Lemma exn_assign_loop_total (t : template) (selected : list NameCandidate) :
  (forall i, 0 <= i -> t i <> None) ->
  forall acc,
    0 <= name_index (fst acc) ->
    exists acc', Exn.assign_loop t selected acc = Some acc'
                 /\ 0 <= name_index (fst acc').
Proof.
  intros Ht. induction selected as [|c cs IH]; intros [st rs] Hidx;
    cbn [Exn.assign_loop].
  - exists (st, rs). auto.
  - cbn [fst] in Hidx. unfold Exn.assign_placeholder.
    destruct (dict_get (name_to_placeholder st) (name c)).
    + apply IH. exact Hidx.
    + destruct (t (name_index st)) as [p|] eqn:E;
        [|exfalso; exact (Ht _ Hidx E)].
      apply IH. cbn [fst name_index]. lia.
Qed.

Lemma exn_parts_loop_total (t : template) (cfg : NameGuardConfig)
    (text : str) (parts : list str) :
  (forall i, 0 <= i -> t i <> None) ->
  forall part_idx st,
    0 <= name_index st ->
    exists st', Exn.parts_loop t cfg text parts part_idx st = Some st'.
Proof.
  intros Ht. induction parts as [|part parts IH]; intros part_idx st Hidx;
    cbn [Exn.parts_loop]; [eauto|].
  unfold Exn.process_part.
  destruct (_extract_candidates_from_part cfg part text (part_idx =? 0)
              (cache_ st)) as [cands cache].
  match goal with
  | |- context [Exn.assign_loop t ?sel ?a] =>
      destruct (exn_assign_loop_total t sel Ht a Hidx)
        as ([st1 rs] & E & Hidx')
  end.
  rewrite E. apply IH. exact Hidx'.
Qed.

(** A part without CJK characters has no candidate: [format] is not called
    for it, whatever the template. *)
Lemma exn_parts_loop_no_cjk (t : template) (cfg : NameGuardConfig)
    (text : str) (parts : list str) :
  Forall (Forall (fun c => is_cjk c = false)) parts ->
  forall part_idx st,
    Exn.parts_loop t cfg text parts part_idx st
    = Some {| name_map := name_map st;
              name_to_placeholder := name_to_placeholder st;
              name_index := name_index st;
              cache_ := cache_ st;
              replaced_parts := replaced_parts st ++ parts;
              all_names := all_names st |}.
Proof.
  induction 1 as [|part parts Hp Hps IH]; intros part_idx st;
    cbn [Exn.parts_loop].
  - rewrite app_nil_r. destruct st; reflexivity.
  - unfold Exn.process_part. rewrite extract_no_cjk by assumption.
    cbn. rewrite IH. cbn. rewrite <- app_assoc. reflexivity.
Qed.

(** C9, as the code has it: with a non-empty separator the empty text, and
    any text without CJK characters, yields no candidate in any of its
    parts and comes back unchanged, with an empty placeholder map and an
    empty name list, whatever the placeholder template, which is not
    rendered for it; and with a template that [format] renders at every
    index from 0 on, no text aborts the operation. *)
Theorem degenerate_inputs (t : template) (cfg : NameGuardConfig)
    (text sep_marker : str) :
  sep_marker <> [] ->
  ((forall i, 0 <= i -> t i <> None) ->
   exists result,
     Exn.extract_and_replace_names t cfg text sep_marker = Some result)
  /\ Exn.extract_and_replace_names t cfg [] sep_marker = Some ([], [], [])
  /\ (Forall (fun c => is_cjk c = false) text ->
      Exn.extract_and_replace_names t cfg text sep_marker
      = Some (text, [], [])
      /\ forall parts,
           split text sep_marker = Some parts ->
           Forall (fun part =>
                     forall is_first_part cache,
                       fst (_extract_candidates_from_part
                              cfg part text is_first_part cache) = [])
                  parts).
Proof.
  intros Hsep.
  assert (Hsplit : forall s, split s sep_marker
                             = Some (split_from s sep_marker [] 0)).
  { intros s. unfold split. destruct sep_marker; [congruence | reflexivity]. }
  assert (Hno : forall s, Forall (fun c => is_cjk c = false) s ->
                Exn.extract_and_replace_names t cfg s sep_marker
                = Some (s, [], [])
                /\ Forall (Forall (fun c => is_cjk c = false))
                          (split_from s sep_marker [] 0)).
  { intros s Hs.
    assert (Hparts : Forall (Forall (fun c => is_cjk c = false))
                            (split_from s sep_marker [] 0))
      by (apply split_from_chars; [assumption | constructor]).
    split; [|exact Hparts].
    unfold Exn.extract_and_replace_names. rewrite Hsplit.
    rewrite exn_parts_loop_no_cjk by assumption. cbn.
    rewrite (split_join s sep_marker) by apply Hsplit. reflexivity. }
  split; [|split].
  - intros Ht. unfold Exn.extract_and_replace_names. rewrite Hsplit.
    destruct (exn_parts_loop_total t cfg text
                (split_from text sep_marker [] 0) Ht 0 initial_locals)
      as (st' & E); [cbn; lia|].
    rewrite E. eauto.
  - apply (Hno []). constructor.
  - intros Htext. destruct (Hno text Htext) as [He Hparts].
    split; [exact He|].
    intros parts Hp. rewrite Hsplit in Hp. injection Hp as <-.
    eapply Forall_impl; [|exact Hparts].
    intros part Hpart ifp cache. rewrite extract_no_cjk by assumption.
    reflexivity.
Qed.

Lemma degenerate_inputs_witness :
  sep_default <> []
  /\ (exists result,
        Exn.extract_and_replace_names (template_of honorific_config)
          honorific_config [24179; 23433; 21733] sep_default = Some result)
  /\ Exn.extract_and_replace_names raising_template default_config []
       sep_default
     = Some ([], [], [])
  /\ Exn.extract_and_replace_names raising_template default_config
       ([104; 105] ++ sep_default ++ [111; 107]) sep_default
     = Some ([104; 105] ++ sep_default ++ [111; 107], [], []).
Proof.
  assert (Hsep : sep_default <> []) by discriminate.
  split; [exact Hsep|]. split; [|split].
  - apply (proj1 (degenerate_inputs (template_of honorific_config)
                    honorific_config [24179; 23433; 21733] sep_default
                    Hsep)).
    intros i _. discriminate.
  - exact (proj1 (proj2 (degenerate_inputs raising_template default_config
                           [] sep_default Hsep))).
  - apply (proj2 (proj2 (degenerate_inputs raising_template default_config
                           ([104; 105] ++ sep_default ++ [111; 107])
                           sep_default Hsep))).
    repeat constructor.
Defined.

(** C9 as stated fails in two ways.  For the empty separator [split]
    raises, whatever the text, the empty text included.  And with a
    non-empty separator a template that [format] rejects raises as soon as
    a name is to be replaced: 平安哥 with the suffix 哥. *)
Lemma degenerate_inputs_counterexample :
  Exn.extract_and_replace_names (template_of default_config) default_config
    [] [] = None
  /\ extract_and_replace_names default_config [] [] = None
  /\ sep_default <> []
  /\ Exn.extract_and_replace_names raising_template honorific_config
       [24179; 23433; 21733] sep_default = None.
Proof.
  split; [reflexivity|]. split; [reflexivity|]. split; [discriminate|].
  vm_compute. reflexivity.
Qed.

(** ** The locals across parts *)

Lemma enumerate_from_app (a b : list str) :
  forall i, enumerate_from i (a ++ b)
            = enumerate_from i a ++ enumerate_from (i + len a) b.
Proof.
  induction a as [|n a IH]; intros i; simpl.
  - f_equal. unfold len. simpl. lia.
  - rewrite IH. do 3 f_equal. unfold len. simpl length. lia.
Qed.

Lemma enumerate_from_snd (names : list str) :
  forall i, map snd (enumerate_from i names) = names.
Proof.
  induction names as [|n names IH]; intros i; simpl; [reflexivity|].
  rewrite IH. reflexivity.
Qed.

Lemma enumerate_from_In (names : list str) :
  forall i j n,
    In (j, n) (enumerate_from i names) ->
    i <= j < i + len names /\ nth_error names (Z.to_nat (j - i)) = Some n.
Proof.
  induction names as [|m names IH]; intros i j n; simpl; [tauto|].
  unfold len. simpl length. intros [E|H].
  - injection E as <- <-. split; [lia|].
    rewrite Z.sub_diag. reflexivity.
  - apply IH in H. unfold len in H. destruct H as [H1 H2]. split; [lia|].
    replace (Z.to_nat (j - i)) with (S (Z.to_nat (j - (i + 1)))) by lia.
    exact H2.
Qed.

Lemma locals_ok_keys (cfg : NameGuardConfig) (st : Locals) :
  locals_ok cfg st -> map fst (name_to_placeholder st) = all_names st.
Proof.
  intros (_ & _ & ->). rewrite map_map.
  rewrite <- (enumerate_from_snd (all_names st) 0) at 2.
  apply map_ext. intros [i n]. reflexivity.
Qed.

Lemma assign_placeholder_ok (cfg : NameGuardConfig)
    (acc : Locals * list replacement) (c : NameCandidate) :
  locals_ok cfg (fst acc) -> locals_ok cfg (fst (assign_placeholder cfg acc c)).
Proof.
  destruct acc as [st rs]. cbn [fst]. intros Hok.
  pose proof (locals_ok_keys cfg st Hok) as Hkeys.
  destruct Hok as (Hidx & Hnd & Hn2p).
  unfold assign_placeholder.
  destruct (dict_get (name_to_placeholder st) (name c)) eqn:E; cbn [fst];
    [repeat split; assumption|].
  apply dict_get_None_keys in E. rewrite Hkeys in E.
  unfold locals_ok. cbn [name_index all_names name_to_placeholder].
  split; [rewrite len_app; unfold len in *; simpl; lia|]. split.
  - eapply Permutation_NoDup; [apply Permutation_cons_append|].
    constructor; assumption.
  - rewrite dict_set_new by (rewrite Hkeys; exact E).
    rewrite enumerate_from_app, map_app, <- Hn2p. simpl.
    rewrite Hidx. reflexivity.
Qed.

Lemma assign_placeholder_map_ok (cfg : NameGuardConfig)
    (acc : Locals * list replacement) (c : NameCandidate) :
  format_injective cfg ->
  locals_ok cfg (fst acc) -> name_map_ok cfg (fst acc) ->
  name_map_ok cfg (fst (assign_placeholder cfg acc c)).
Proof.
  destruct acc as [st rs]. cbn [fst]. intros Hinj Hok Hmap.
  destruct Hok as (Hidx & Hnd & Hn2p).
  unfold assign_placeholder.
  destruct (dict_get (name_to_placeholder st) (name c)) eqn:E; cbn [fst];
    [assumption|].
  unfold name_map_ok in *. cbn [name_map all_names].
  rewrite dict_set_new.
  - rewrite enumerate_from_app, map_app, <- Hmap. simpl.
    rewrite Hidx. reflexivity.
  - rewrite Hmap, map_map. intros Hin. apply in_map_iff in Hin.
    destruct Hin as ([j n] & Hj & Hin). simpl in Hj.
    apply enumerate_from_In in Hin. destruct Hin as [Hr _].
    pose proof (len_nonneg (all_names st)).
    apply Hinj in Hj; lia.
Qed.

Lemma assign_fold_ok (cfg : NameGuardConfig) (selected : list NameCandidate)
    (acc : Locals * list replacement) :
  locals_ok cfg (fst acc) ->
  locals_ok cfg (fst (fold_left (assign_placeholder cfg) selected acc)).
Proof.
  revert acc. induction selected as [|c cs IH]; intros acc H; simpl; auto.
  apply IH. apply assign_placeholder_ok. exact H.
Qed.

Lemma assign_fold_map_ok (cfg : NameGuardConfig)
    (selected : list NameCandidate) (acc : Locals * list replacement) :
  format_injective cfg ->
  locals_ok cfg (fst acc) -> name_map_ok cfg (fst acc) ->
  name_map_ok cfg (fst (fold_left (assign_placeholder cfg) selected acc)).
Proof.
  intros Hinj. revert acc.
  induction selected as [|c cs IH]; intros acc H1 H2; simpl; auto.
  apply IH; [apply assign_placeholder_ok | apply assign_placeholder_map_ok];
    assumption.
Qed.

Lemma process_part_ok (cfg : NameGuardConfig) (text : str) (part_idx : Z)
    (part : str) (st : Locals) :
  locals_ok cfg st ->
  locals_ok cfg (process_part cfg text part_idx part st)
  /\ (format_injective cfg -> name_map_ok cfg st ->
      name_map_ok cfg (process_part cfg text part_idx part st)).
Proof.
  intros Hok. unfold process_part.
  destruct (_extract_candidates_from_part cfg part text (part_idx =? 0)
              (cache_ st)) as [cands cache].
  set (st0 := {| name_map := name_map st;
                 name_to_placeholder := name_to_placeholder st;
                 name_index := name_index st;
                 cache_ := cache;
                 replaced_parts := replaced_parts st;
                 all_names := all_names st |}).
  assert (Hok0 : locals_ok cfg (fst (st0, @nil replacement))) by exact Hok.
  pose proof (assign_fold_ok cfg (_select_non_overlapping cands) _ Hok0) as H1.
  pose proof (fun Hinj Hm =>
                assign_fold_map_ok cfg (_select_non_overlapping cands)
                                   (st0, []) Hinj Hok0 Hm) as H2.
  destruct (fold_left (assign_placeholder cfg) (_select_non_overlapping cands)
              (st0, [])) as [st1 rs].
  cbn [fst] in H1, H2. split; [exact H1|].
  intros Hinj Hm. exact (H2 Hinj Hm).
Qed.

Lemma parts_loop_ok (cfg : NameGuardConfig) (text : str) (parts : list str) :
  forall part_idx st,
    locals_ok cfg st ->
    locals_ok cfg (parts_loop cfg text parts part_idx st)
    /\ (format_injective cfg -> name_map_ok cfg st ->
        name_map_ok cfg (parts_loop cfg text parts part_idx st)).
Proof.
  induction parts as [|part parts IH]; intros part_idx st Hok; simpl.
  - tauto.
  - destruct (process_part_ok cfg text part_idx part st Hok) as [H1 H2].
    destruct (IH (part_idx + 1) _ H1) as [H3 H4].
    split; [exact H3|]. intros Hinj Hm. auto.
Qed.

Lemma initial_locals_ok (cfg : NameGuardConfig) :
  locals_ok cfg initial_locals /\ name_map_ok cfg initial_locals.
Proof.
  split; [|reflexivity]. split; [reflexivity|]. split; [constructor|reflexivity].
Qed.

Lemma parts_loop_app (cfg : NameGuardConfig) (text : str) (l1 l2 : list str) :
  forall part_idx st,
    parts_loop cfg text (l1 ++ l2) part_idx st
    = parts_loop cfg text l2 (part_idx + len l1)
                 (parts_loop cfg text l1 part_idx st).
Proof.
  induction l1 as [|p l1 IH]; intros part_idx st; simpl.
  - f_equal. unfold len. simpl. lia.
  - rewrite IH. f_equal. unfold len. simpl length. lia.
Qed.


(** The loop is the loop up to a part, that part, and the loop over the
    rest. *)
Lemma parts_loop_at (cfg : NameGuardConfig) (text : str) (parts : list str)
    (k : nat) (part : str) :
  nth_error parts k = Some part ->
  parts_loop cfg text parts 0 initial_locals
  = parts_loop cfg text (skipn (S k) parts) (Z.of_nat k + 1)
      (process_part cfg text (Z.of_nat k) part
                    (locals_before cfg text parts k)).
Proof.
  intros Hk.
  assert (Hlen : (k < length parts)%nat)
    by (apply nth_error_Some; congruence).
  assert (Hsplit : parts = firstn k parts ++ part :: skipn (S k) parts).
  { rewrite <- (firstn_skipn k parts) at 1. f_equal.
    clear Hlen. revert k Hk. induction parts as [|q parts IH]; intros k Hk.
    - destruct k; discriminate.
    - destruct k as [|k]; simpl in *; [congruence | auto]. }
  rewrite Hsplit at 1. rewrite parts_loop_app. simpl.
  unfold locals_before, len. rewrite firstn_length_le by lia.
  reflexivity.
Qed.




(** ** One placeholder per name *)



(** *** The default format gives distinct placeholders *)






(** ** Placeholders in the rewritten text *)

Lemma occurs_join (sep x rp : str) (parts : list str) :
  In rp parts -> occurs x rp -> occurs x (join sep parts).
Proof.
  intros Hin Hocc. induction parts as [|p parts IH]; [destruct Hin|].
  destruct parts as [|q parts].
  - destruct Hin as [->|[]]. exact Hocc.
  - change (join sep (p :: q :: parts))
      with (p ++ sep ++ join sep (q :: parts)).
    destruct Hin as [->|Hin].
    + apply (occurs_app x rp [] (sep ++ join sep (q :: parts))) in Hocc.
      exact Hocc.
    + specialize (IH Hin).
      apply (occurs_app x _ (p ++ sep) []) in IH.
      rewrite app_nil_r, <- app_assoc in IH. exact IH.
Qed.

Lemma process_part_keys_occur (cfg : NameGuardConfig) (text : str)
    (part_idx : Z) (part : str) (st : Locals) :
  keys_occur st -> keys_occur (process_part cfg text part_idx part st).
Proof.
  intros Hinv k Hk.
  pose proof (process_part_spec cfg text part_idx part st)
    as (Hrp & _ & _ & Hkeys).
  set (st' := process_part cfg text part_idx part st) in *.
  set (sel := selected_of cfg text part_idx part st) in *.
  rewrite Hrp. destruct (Hkeys k Hk) as [Hold|Hnew].
  - destruct (Hinv k Hold) as (rp & Hin & Hocc).
    exists rp. split; [apply in_or_app; left; exact Hin | exact Hocc].
  - exists (rewrite_part part (map (triple_of st') sel)).
    split; [apply in_or_app; right; left; reflexivity|].
    apply in_map_iff in Hnew. destruct Hnew as ([[s e] p] & Hp & Hin).
    simpl in Hp. subst p.
    pose proof (part_replacements_chain cfg part text (part_idx =? 0)
                  (cache_ st) st') as Hchain.
    fold (selected_of cfg text part_idx part st) in Hchain.
    fold sel in Hchain.
    apply (placeholder_occurs _ (len part) part s e k Hchain (Z.le_refl _)).
    eapply Permutation_in; [apply sorted_replacements_perm | exact Hin].
Qed.

Lemma parts_loop_keys_occur (cfg : NameGuardConfig) (text : str)
    (parts : list str) :
  forall part_idx st,
    keys_occur st -> keys_occur (parts_loop cfg text parts part_idx st).
Proof.
  induction parts as [|part parts IH]; intros part_idx st H; simpl; auto.
  apply IH. apply process_part_keys_occur. exact H.
Qed.

(** C8, as the code has it: the names are what the rewrite takes out, and
    it is every key of the returned map, the placeholder, that occurs
    verbatim in the rewritten text at least once. *)
Theorem placeholders_occur_in_output (cfg : NameGuardConfig)
    (text sep_marker out : str) (nm : list (str * str)) (names : list str) :
  extract_and_replace_names cfg text sep_marker = Some (out, nm, names) ->
  forall placeholder nme, In (placeholder, nme) nm -> occurs placeholder out.
Proof.
  intros Hex placeholder nme Hin. unfold extract_and_replace_names in Hex.
  destruct (split text sep_marker) as [parts|]; [|discriminate].
  injection Hex as <- <- <-.
  assert (H0 : keys_occur initial_locals) by (intros k []).
  pose proof (parts_loop_keys_occur cfg text parts 0 initial_locals H0) as H.
  destruct (H placeholder) as (rp & Hrp & Hocc).
  - apply in_map_iff. exists (placeholder, nme). auto.
  - eapply occurs_join; eassumption.
Qed.

Lemma placeholders_occur_in_output_witness :
  extract_and_replace_names honorific_config [24179; 23433; 21733] sep_default
  = Some (default_format 0 ++ [21733], [(default_format 0, [24179; 23433])],
          [[24179; 23433]])
  /\ occurs (default_format 0) (default_format 0 ++ [21733]).
Proof.
  assert (Hrun : extract_and_replace_names honorific_config
                   [24179; 23433; 21733] sep_default
                 = Some (default_format 0 ++ [21733],
                         [(default_format 0, [24179; 23433])],
                         [[24179; 23433]]))
    by (vm_compute; reflexivity).
  split; [exact Hrun|].
  apply (placeholders_occur_in_output honorific_config _ _ _ _ _ Hrun
           (default_format 0) [24179; 23433]).
  left. reflexivity.
Defined.

(** C8 as stated fails: 平安哥 is rewritten to the placeholder followed by
    哥, and the one value of the map, 平安, is not in the rewritten text. *)
Lemma placeholders_occur_in_output_counterexample :
  exists (out : str) (nm : list (str * str)) (names : list str)
         (placeholder nme : str),
    extract_and_replace_names honorific_config [24179; 23433; 21733]
                              sep_default
    = Some (out, nm, names)
    /\ In (placeholder, nme) nm
    /\ ~ occurs nme out.
Proof.
  exists (default_format 0 ++ [21733]), [(default_format 0, [24179; 23433])],
         [[24179; 23433]], (default_format 0), [24179; 23433].
  split; [vm_compute; reflexivity|]. split; [left; reflexivity|].
  intros H. apply contains_occurs in H. vm_compute in H. discriminate H.
Qed.

(** ** Affixes in the rewritten text *)

Lemma parts_loop_replaced_mono (cfg : NameGuardConfig) (text : str)
    (parts : list str) :
  forall part_idx st rp,
    In rp (replaced_parts st) ->
    In rp (replaced_parts (parts_loop cfg text parts part_idx st)).
Proof.
  induction parts as [|part parts IH]; intros part_idx st rp H; simpl; auto.
  apply IH.
  rewrite (proj1 (process_part_spec cfg text part_idx part st)).
  apply in_or_app. left. exact H.
Qed.

(** C4, as the code has it: the replacement of an accepted affixed candidate
    covers the name and not the affix, the affix stands in the part right
    after the name (suffix) or right before it (prefix), and whenever no
    accepted span of the part touches the affix, the rewritten text carries
    the placeholder with the affix next to it, the suffix right after and
    the prefix right before. *)
Theorem affix_preserved (cfg : NameGuardConfig) (text sep_marker out : str)
    (nm : list (str * str)) (names : list str) (parts : list str) (k : nat)
    (part : str) (c : NameCandidate) :
  let st := locals_before cfg text parts k in
  let sel := selected_of cfg text (Z.of_nat k) part st in
  let st' := process_part cfg text (Z.of_nat k) part st in
  extract_and_replace_names cfg text sep_marker = Some (out, nm, names) ->
  split text sep_marker = Some parts ->
  nth_error parts k = Some part ->
  In c sel ->
  slice part (start c) (end_ c) = name c
  /\ (affix_type c = Suffix ->
      slice part (end_ c) (end_ c + len (affix c)) = affix c
      /\ ((forall c', In c' sel ->
             ~ (start c' < end_ c + len (affix c) /\ end_ c' > end_ c)) ->
          occurs (placeholder_of st' c ++ affix c) out))
  /\ (affix_type c = Prefix ->
      slice part (start c - len (affix c)) (start c) = affix c
      /\ ((forall c', In c' sel ->
             ~ (start c' < start c /\ end_ c' > start c - len (affix c))) ->
          occurs (affix c ++ placeholder_of st' c) out)).
Proof.
  intros st sel st' Hex Hsp Hk Hin.
  unfold extract_and_replace_names in Hex. rewrite Hsp in Hex.
  injection Hex as <- _ _.
  destruct (affix_kept_in_part cfg text (Z.of_nat k) part st c Hin)
    as (Hrp & Hs & Hsuf & Hpre).
  fold st' sel in Hrp, Hsuf, Hpre.
  assert (Hout : forall x,
             occurs x (rewrite_part part (map (triple_of st') sel)) ->
             occurs x (join sep_marker
                         (replaced_parts
                            (parts_loop cfg text parts 0 initial_locals)))).
  { intros x Hx. eapply occurs_join; [|exact Hx].
    rewrite (parts_loop_at cfg text parts k part Hk).
    apply parts_loop_replaced_mono. fold st st'. rewrite Hrp.
    apply in_or_app. right. left. reflexivity. }
  split; [exact Hs|]. split; intros Hty.
  - destruct (Hsuf Hty) as [H1 H2]. split; [exact H1 | auto].
  - destruct (Hpre Hty) as [H1 H2]. split; [exact H1 | auto].
Qed.

Lemma affix_preserved_witness :
  extract_and_replace_names honorific_config [24179; 23433; 21733] sep_default
  = Some (default_format 0 ++ [21733], [(default_format 0, [24179; 23433])],
          [[24179; 23433]])
  /\ split [24179; 23433; 21733] sep_default = Some [[24179; 23433; 21733]]
  /\ In {| name := [24179; 23433]; start := 0; end_ := 2; score := 190;
           has_affix := true; affix_type := Suffix; affix := [21733] |}
        (selected_of honorific_config [24179; 23433; 21733] 0
                     [24179; 23433; 21733]
                     (locals_before honorific_config [24179; 23433; 21733]
                                    [[24179; 23433; 21733]] 0))
  /\ slice [24179; 23433; 21733] 0 2 = [24179; 23433]
  /\ occurs (default_format 0 ++ [21733]) (default_format 0 ++ [21733]).
Proof.
  assert (Hrun : extract_and_replace_names honorific_config
                   [24179; 23433; 21733] sep_default
                 = Some (default_format 0 ++ [21733],
                         [(default_format 0, [24179; 23433])],
                         [[24179; 23433]]))
    by (vm_compute; reflexivity).
  assert (Hsp : split [24179; 23433; 21733] sep_default
                = Some [[24179; 23433; 21733]]) by reflexivity.
  assert (Hk : nth_error [[24179; 23433; 21733]] 0
               = Some [24179; 23433; 21733]) by reflexivity.
  assert (Hin : In {| name := [24179; 23433]; start := 0; end_ := 2;
                      score := 190; has_affix := true;
                      affix_type := Suffix; affix := [21733] |}
                   (selected_of honorific_config [24179; 23433; 21733] 0
                      [24179; 23433; 21733]
                      (locals_before honorific_config [24179; 23433; 21733]
                                     [[24179; 23433; 21733]] 0)))
    by (vm_compute; left; reflexivity).
  split; [exact Hrun|]. split; [exact Hsp|]. split; [exact Hin|].
  destruct (affix_preserved honorific_config _ _ _ _ _ _ 0%nat _ _
              Hrun Hsp Hk Hin) as (Hs & Hsuf & _).
  split; [exact Hs|].
  destruct (Hsuf eq_refl) as [_ Hocc].
  assert (Hno : forall c',
             In c' (selected_of honorific_config [24179; 23433; 21733]
                      (Z.of_nat 0) [24179; 23433; 21733]
                      (locals_before honorific_config [24179; 23433; 21733]
                                     [[24179; 23433; 21733]] 0)) ->
             ~ (start c' < 2 + len [21733] /\ end_ c' > 2)).
  { intros c' Hc'. vm_compute in Hc'. destruct Hc' as [<-|[]]. simpl. lia. }
  specialize (Hocc Hno). vm_compute in Hocc. vm_compute. exact Hocc.
Defined.

(** C4 as stated fails: in 老师傅 both 老 (with the suffix 师傅) and 师 (with
    the prefix 老) are accepted; the rewritten text is the two placeholders
    followed by 傅, so neither the suffix 师傅 nor the prefix 老 is left. *)
Lemma affix_preserved_counterexample :
  exists (c1 c2 : NameCandidate) (out : str),
    In c1 (selected_of honorific_config [32769; 24072; 20613] 0
                       [32769; 24072; 20613] initial_locals)
    /\ In c2 (selected_of honorific_config [32769; 24072; 20613] 0
                          [32769; 24072; 20613] initial_locals)
    /\ affix_type c1 = Suffix /\ affix c1 = [24072; 20613]
    /\ affix_type c2 = Prefix /\ affix c2 = [32769]
    /\ extract_and_replace_names honorific_config [32769; 24072; 20613]
                                 sep_default
       = Some (out,
               [(default_format 0, [32769]); (default_format 1, [24072])],
               [[32769]; [24072]])
    /\ out = default_format 0 ++ default_format 1 ++ [20613]
    /\ ~ occurs (affix c1) out
    /\ ~ occurs (affix c2) out.
Proof.
  exists {| name := [32769]; start := 0; end_ := 1; score := 190;
            has_affix := true; affix_type := Suffix;
            affix := [24072; 20613] |},
         {| name := [24072]; start := 1; end_ := 2; score := 190;
            has_affix := true; affix_type := Prefix; affix := [32769] |},
         (default_format 0 ++ default_format 1 ++ [20613]).
  split; [vm_compute; left; reflexivity|].
  split; [vm_compute; right; left; reflexivity|].
  do 4 (split; [reflexivity|]).
  split; [vm_compute; reflexivity|]. split; [reflexivity|].
  split; intros H; apply contains_occurs in H; vm_compute in H; discriminate H.
Qed.

(** ** The occurrence cache *)

Lemma cached_count_keeps (context word : str) (cache : occurrence_cache) :
  cache_consistent context cache ->
  cache_consistent context (snd (cached_count context word cache)).
Proof.
  intros Hc. unfold cached_count.
  destruct (dict_get cache word) eqn:E; cbn [snd]; [exact Hc|].
  intros w n Hw. destruct (str_eqb w word) eqn:Ew.
  - apply str_eqb_eq in Ew. subst w.
    rewrite dict_get_set_same in Hw. congruence.
  - apply str_eqb_neq in Ew. rewrite dict_get_set_other in Hw by exact Ew.
    apply Hc. exact Hw.
Qed.

Lemma is_name_keeps (cfg : NameGuardConfig) (word context : str)
    (icp ha : bool) (cache : occurrence_cache) :
  cache_consistent context cache ->
  cache_consistent context (snd (is_name cfg word context icp ha cache)).
Proof.
  intros Hc. unfold is_name.
  destruct (mem word (known_names cfg)); [exact Hc|].
  destruct (is_strongly_excluded cfg word); [exact Hc|].
  destruct (mem word (exclude_names cfg)); [exact Hc|].
  assert (Hs : cache_consistent context
                 (snd (score_candidate cfg word context icp ha cache))).
  { unfold score_candidate.
    pose proof (cached_count_keeps context word cache Hc) as Hk.
    destruct (cached_count context word cache) as [occ cache'].
    cbn [snd] in Hk.
    destruct ha; destruct (icp && (0 <? call_position_weight cfg));
      destruct (0 <? repetition_weight cfg);
      try destruct (repetition_min_occurrences cfg <=? occ);
      cbn [snd]; assumption. }
  destruct (score_candidate cfg word context icp ha cache)
    as [[sc hss] cache'].
  cbn [snd] in Hs.
  destruct (require_strong_signal cfg && negb hss); exact Hs.
Qed.

(** Every call of [is_name] made while a part is scanned sees a cache that
    holds true counts, and so does the scan of the next part. *)
Lemma extract_candidates_keeps (cfg : NameGuardConfig)
    (part full_context : str) (is_first_part : bool)
    (cache : occurrence_cache) :
  cache_consistent full_context cache ->
  cache_consistent full_context
    (snd (_extract_candidates_from_part cfg part full_context is_first_part
                                        cache)).
Proof.
  intros Hc. unfold _extract_candidates_from_part.
  apply (fold_left_invariant _
           (fun st => cache_consistent full_context (snd st))
           (fun _ => True)); [|apply Forall_forall; auto|exact Hc].
  intros st [segment_start segment] _ Hst. unfold scan_segment.
  apply (fold_left_invariant _
           (fun st => cache_consistent full_context (snd st))
           (fun _ => True)); [|apply Forall_forall; auto|exact Hst].
  intros st1 length _ H1.
  apply (fold_left_invariant _
           (fun st => cache_consistent full_context (snd st))
           (fun _ => True)); [|apply Forall_forall; auto|exact H1].
  intros [candidates cache2] i _ H2. cbn [snd] in H2. unfold visit_word.
  destruct (_extract_from_suffix_word cfg _) as [[n a]|].
  { pose proof (is_name_keeps cfg n full_context
                  (segment_start + Z.of_nat i =? 0) true cache2 H2) as Hk.
    destruct (is_name cfg n full_context _ true cache2) as [[b sc] cache3].
    destruct b; exact Hk. }
  destruct (_extract_from_prefix_word cfg _) as [[n p]|].
  { pose proof (is_name_keeps cfg n full_context
                  (segment_start + Z.of_nat i =? 0) true cache2 H2) as Hk.
    destruct (is_name cfg n full_context _ true cache2) as [[b sc] cache3].
    destruct b; exact Hk. }
  destruct ((1 <=? Z.of_nat length) && (Z.of_nat length <=? 3)); [|exact H2].
  destruct (negb (_is_at_boundary part _ _)); [exact H2|].
  pose proof (is_name_keeps cfg (firstn length (skipn i segment)) full_context
                (segment_start + Z.of_nat i =? 0) false cache2 H2) as Hk.
  destruct (is_name cfg _ full_context _ false cache2) as [[b sc] cache3].
  destruct b; exact Hk.
Qed.

(** ** The occurrence cache is only a memo *)

Lemma score_candidate_transparent (cfg : NameGuardConfig) (word context : str)
    (icp ha : bool) (cache : occurrence_cache) :
  cache_consistent context cache ->
  fst (score_candidate cfg word context icp ha cache)
  = fst (score_candidate cfg word context icp ha []).
Proof.
  intros Hc. unfold score_candidate.
  pose proof (cached_count_consistent context word cache Hc) as Hcc.
  destruct (cached_count context word cache) as [occ cache'].
  cbn [fst] in Hcc. subst occ.
  unfold cached_count. cbn [dict_get].
  destruct ha; destruct (icp && (0 <? call_position_weight cfg));
    destruct (0 <? repetition_weight cfg);
    try destruct (repetition_min_occurrences cfg <=? count context word);
    reflexivity.
Qed.

(** With a cache that holds true counts, [is_name] gives the verdict and
    the score it gives with an empty cache. *)
Lemma is_name_transparent (cfg : NameGuardConfig) (word context : str)
    (icp ha : bool) (cache : occurrence_cache) :
  cache_consistent context cache ->
  fst (is_name cfg word context icp ha cache)
  = fst (is_name cfg word context icp ha []).
Proof.
  intros Hc. unfold is_name.
  destruct (mem word (known_names cfg)); [reflexivity|].
  destruct (is_strongly_excluded cfg word); [reflexivity|].
  destruct (mem word (exclude_names cfg)); [reflexivity|].
  pose proof (score_candidate_transparent cfg word context icp ha cache Hc)
    as Hs.
  destruct (score_candidate cfg word context icp ha cache)
    as [[sc hss] cache1].
  destruct (score_candidate cfg word context icp ha []) as [[sc' hss'] cache2].
  cbn [fst] in Hs. injection Hs as <- <-.
  destruct (require_strong_signal cfg && negb hss); reflexivity.
Qed.

Lemma fold_left_related {A B : Type} (f : A -> B -> A) (R : A -> A -> Prop)
    (l : list B) :
  (forall a a' b, R a a' -> R (f a b) (f a' b)) ->
  forall a a', R a a' -> R (fold_left f l a) (fold_left f l a').
Proof.
  intros Hf. induction l as [|b l IH]; intros a a' H; simpl; auto.
Qed.

Lemma visit_word_transparent (cfg : NameGuardConfig) (part full_context : str)
    (segment_start : Z) (segment : str) (length i : nat)
    (st st' : extraction_state) :
  fst st = fst st' ->
  cache_consistent full_context (snd st) ->
  cache_consistent full_context (snd st') ->
  fst (visit_word cfg part full_context segment_start segment length i st)
  = fst (visit_word cfg part full_context segment_start segment length i st').
Proof.
  destruct st as [cands c1], st' as [cands' c2]. cbn [fst snd].
  intros <- H1 H2. unfold visit_word.
  assert (Hn : forall w icp ha,
             fst (is_name cfg w full_context icp ha c1)
             = fst (is_name cfg w full_context icp ha c2)).
  { intros w icp ha. rewrite (is_name_transparent _ _ _ _ _ c1 H1).
    rewrite (is_name_transparent _ _ _ _ _ c2 H2). reflexivity. }
  destruct (_extract_from_suffix_word cfg _) as [[n a]|].
  { specialize (Hn n (segment_start + Z.of_nat i =? 0) true).
    destruct (is_name cfg n full_context _ true c1) as [[b sc] c1'].
    destruct (is_name cfg n full_context _ true c2) as [[b' sc'] c2'].
    cbn [fst] in Hn. injection Hn as <- <-. destruct b; reflexivity. }
  destruct (_extract_from_prefix_word cfg _) as [[n p]|].
  { specialize (Hn n (segment_start + Z.of_nat i =? 0) true).
    destruct (is_name cfg n full_context _ true c1) as [[b sc] c1'].
    destruct (is_name cfg n full_context _ true c2) as [[b' sc'] c2'].
    cbn [fst] in Hn. injection Hn as <- <-. destruct b; reflexivity. }
  destruct ((1 <=? Z.of_nat length) && (Z.of_nat length <=? 3));
    [|reflexivity].
  destruct (negb (_is_at_boundary part _ _)); [reflexivity|].
  specialize (Hn (firstn length (skipn i segment))
                 (segment_start + Z.of_nat i =? 0) false).
  destruct (is_name cfg _ full_context _ false c1) as [[b sc] c1'].
  destruct (is_name cfg _ full_context _ false c2) as [[b' sc'] c2'].
  cbn [fst] in Hn. injection Hn as <- <-. destruct b; reflexivity.
Qed.

Lemma visit_word_keeps (cfg : NameGuardConfig) (part full_context : str)
    (segment_start : Z) (segment : str) (length i : nat)
    (st : extraction_state) :
  cache_consistent full_context (snd st) ->
  cache_consistent full_context
    (snd (visit_word cfg part full_context segment_start segment length i st)).
Proof.
  destruct st as [candidates cache2]. cbn [snd]. intros H2.
  unfold visit_word.
  destruct (_extract_from_suffix_word cfg _) as [[n a]|].
  { pose proof (is_name_keeps cfg n full_context
                  (segment_start + Z.of_nat i =? 0) true cache2 H2) as Hk.
    destruct (is_name cfg n full_context _ true cache2) as [[b sc] cache3].
    destruct b; exact Hk. }
  destruct (_extract_from_prefix_word cfg _) as [[n p]|].
  { pose proof (is_name_keeps cfg n full_context
                  (segment_start + Z.of_nat i =? 0) true cache2 H2) as Hk.
    destruct (is_name cfg n full_context _ true cache2) as [[b sc] cache3].
    destruct b; exact Hk. }
  destruct ((1 <=? Z.of_nat length) && (Z.of_nat length <=? 3)); [|exact H2].
  destruct (negb (_is_at_boundary part _ _)); [exact H2|].
  pose proof (is_name_keeps cfg (firstn length (skipn i segment)) full_context
                (segment_start + Z.of_nat i =? 0) false cache2 H2) as Hk.
  destruct (is_name cfg _ full_context _ false cache2) as [[b sc] cache3].
  destruct b; exact Hk.
Qed.

(** With a cache that holds true counts a part yields the candidates it
    yields with an empty cache. *)
Lemma extract_candidates_transparent (cfg : NameGuardConfig)
    (part full_context : str) (is_first_part : bool)
    (cache : occurrence_cache) :
  cache_consistent full_context cache ->
  fst (_extract_candidates_from_part cfg part full_context is_first_part cache)
  = fst (_extract_candidates_from_part cfg part full_context is_first_part []).
Proof.
  intros Hc.
  set (R := fun st st' : extraction_state =>
              fst st = fst st'
              /\ cache_consistent full_context (snd st)
              /\ cache_consistent full_context (snd st')).
  assert (H : R (_extract_candidates_from_part cfg part full_context
                   is_first_part cache)
                (_extract_candidates_from_part cfg part full_context
                   is_first_part [])).
  { unfold _extract_candidates_from_part.
    apply fold_left_related.
    - intros st st' [segment_start segment] Hst. unfold scan_segment.
      apply fold_left_related; [|exact Hst].
      intros st1 st1' length H1.
      apply fold_left_related; [|exact H1].
      intros st2 st2' i (E & C1 & C2). split; [|split].
      + apply visit_word_transparent; assumption.
      + apply visit_word_keeps. exact C1.
      + apply visit_word_keeps. exact C2.
    - split; [reflexivity|]. split; [exact Hc|].
      intros w n Hw. discriminate Hw. }
  exact (proj1 H).
Qed.

(** X1: the occurrence cache only saves work.  With a cache that holds true
    counts, [is_name] returns the verdict and score it returns with an empty
    cache, a part yields the candidates it yields with an empty cache, and
    the cache the scan leaves behind still holds true counts. *)
Theorem cache_is_a_memo (cfg : NameGuardConfig) (part full_context : str)
    (is_first_part : bool) (cache : occurrence_cache) :
  cache_consistent full_context cache ->
  (forall word icp ha,
      fst (is_name cfg word full_context icp ha cache)
      = fst (is_name cfg word full_context icp ha []))
  /\ fst (_extract_candidates_from_part cfg part full_context is_first_part
                                        cache)
     = fst (_extract_candidates_from_part cfg part full_context is_first_part
                                          [])
  /\ cache_consistent full_context
       (snd (_extract_candidates_from_part cfg part full_context is_first_part
                                           cache)).
Proof.
  intros Hc. split; [|split].
  - intros word icp ha. apply is_name_transparent. exact Hc.
  - apply extract_candidates_transparent. exact Hc.
  - apply extract_candidates_keeps. exact Hc.
Qed.

Lemma cache_is_a_memo_witness :
  cache_consistent [24179; 23433; 65292; 24179; 23433] [([24179; 23433], 2)]
  /\ fst (_extract_candidates_from_part honorific_config
            [24179; 23433; 65292; 24179; 23433]
            [24179; 23433; 65292; 24179; 23433] true [([24179; 23433], 2)])
     = fst (_extract_candidates_from_part honorific_config
              [24179; 23433; 65292; 24179; 23433]
              [24179; 23433; 65292; 24179; 23433] true []).
Proof.
  assert (Hc : cache_consistent [24179; 23433; 65292; 24179; 23433]
                                [([24179; 23433], 2)]).
  { intros w n Hw. cbn [dict_get] in Hw.
    destruct (str_eqb w [24179; 23433]) eqn:E; [|discriminate Hw].
    apply str_eqb_eq in E. subst w. injection Hw as <-. reflexivity. }
  split; [exact Hc|].
  exact (proj1 (proj2 (cache_is_a_memo honorific_config
                         [24179; 23433; 65292; 24179; 23433]
                         [24179; 23433; 65292; 24179; 23433] true
                         [([24179; 23433], 2)] Hc))).
Defined.

(** ** Detection in a part does not depend on the parts before it *)

Lemma process_part_cache (cfg : NameGuardConfig) (text : str) (part_idx : Z)
    (part : str) (st : Locals) :
  cache_ (process_part cfg text part_idx part st)
  = snd (_extract_candidates_from_part cfg part text (part_idx =? 0)
                                       (cache_ st)).
Proof.
  unfold process_part.
  destruct (_extract_candidates_from_part cfg part text (part_idx =? 0)
              (cache_ st)) as [cands cache].
  pose proof (assign_fold cfg (_select_non_overlapping cands)
                {| name_map := name_map st;
                   name_to_placeholder := name_to_placeholder st;
                   name_index := name_index st;
                   cache_ := cache;
                   replaced_parts := replaced_parts st;
                   all_names := all_names st |} []) as H.
  destruct (fold_left (assign_placeholder cfg) (_select_non_overlapping cands)
              _) as [st1 rs].
  cbn [fst snd] in *. destruct H as (_ & _ & _ & _ & _ & H). exact H.
Qed.

Lemma parts_loop_cache (cfg : NameGuardConfig) (text : str)
    (parts : list str) :
  forall part_idx st,
    cache_consistent text (cache_ st) ->
    cache_consistent text (cache_ (parts_loop cfg text parts part_idx st)).
Proof.
  induction parts as [|part parts IH]; intros part_idx st H; simpl; auto.
  apply IH. rewrite process_part_cache.
  apply extract_candidates_keeps. exact H.
Qed.

(** X2: the candidates accepted in a part are those the part yields on its
    own, with an empty cache: what the earlier parts left in the cache
    changes nothing, only the placeholders are shared across parts. *)
Theorem detection_is_per_part (cfg : NameGuardConfig) (text : str)
    (parts : list str) (k : nat) (part : str) :
  selected_of cfg text (Z.of_nat k) part (locals_before cfg text parts k)
  = _select_non_overlapping
      (fst (_extract_candidates_from_part cfg part text (Z.of_nat k =? 0) [])).
Proof.
  unfold selected_of. f_equal.
  apply extract_candidates_transparent.
  unfold locals_before. apply parts_loop_cache.
  intros w n Hw. discriminate Hw.
Qed.

(** ** What acceptance guarantees *)

Lemma strong_signal_length (cfg : NameGuardConfig) (word context : str)
    (icp ha : bool) (cache : occurrence_cache) :
  snd (fst (score_candidate cfg word context icp ha cache)) = true ->
  ha = true \/ 2 <= len word <= 3.
Proof.
  unfold score_candidate.
  destruct (cached_count context word cache) as [occ cache'].
  destruct ha; [intros _; left; reflexivity|].
  destruct (in_2_3 (len word)) eqn:E23.
  - intros _. right. apply in_2_3_spec. exact E23.
  - destruct (icp && (0 <? call_position_weight cfg));
      destruct (0 <? repetition_weight cfg); simpl;
      try destruct (repetition_min_occurrences cfg <=? occ);
      simpl; discriminate.
Qed.

Lemma is_name_accepts (cfg : NameGuardConfig) (word context : str)
    (icp ha : bool) (cache cache' : occurrence_cache) (sc : Z) :
  is_name cfg word context icp ha cache = (true, sc, cache') ->
  (In word (known_names cfg) /\ sc = 999)
  \/ (~ In word (known_names cfg)
      /\ is_strongly_excluded cfg word = false
      /\ ~ In word (exclude_names cfg)
      /\ threshold cfg <= sc
      /\ (require_strong_signal cfg = true -> ha = true \/ 2 <= len word <= 3)).
Proof.
  unfold is_name.
  destruct (mem word (known_names cfg)) eqn:Ek.
  { intros H. injection H as <- _. left. apply mem_In in Ek. auto. }
  destruct (is_strongly_excluded cfg word) eqn:Ee; [discriminate|].
  destruct (mem word (exclude_names cfg)) eqn:Ed; [discriminate|].
  pose proof (strong_signal_length cfg word context icp ha cache) as Hs.
  destruct (score_candidate cfg word context icp ha cache)
    as [[sc0 hss] cache0].
  cbn [fst snd] in Hs.
  assert (Hk : ~ In word (known_names cfg))
    by (intros H; apply mem_In in H; congruence).
  assert (Hd : ~ In word (exclude_names cfg))
    by (intros H; apply mem_In in H; congruence).
  destruct (require_strong_signal cfg) eqn:Er; destruct hss; simpl;
    try discriminate; intros H; injection H as Ht <- _;
    apply Z.leb_le in Ht; right; repeat split; auto; discriminate.
Qed.

Lemma visit_word_accepted (cfg : NameGuardConfig) (part full_context : str)
    (segment_start : Z) (segment : str) (length i : nat)
    (st : extraction_state) :
  Forall (fun c => is_cjk c = true) segment ->
  (1 <= length)%nat -> (i + length <= List.length segment)%nat ->
  Forall (accepted_ok cfg) (fst st) ->
  Forall (accepted_ok cfg)
         (fst (visit_word cfg part full_context segment_start segment
                          length i st)).
Proof.
  intros Hcjk Hlen Hin Hst. destruct st as [candidates cache].
  cbn [fst] in Hst. unfold visit_word.
  destruct (word_in_segment segment length i Hin) as (Hseg & Hli & Hlw).
  set (word := firstn length (skipn i segment)) in *.
  assert (Hwcjk : Forall (fun c => is_cjk c = true) word).
  { rewrite Hseg in Hcjk. apply Forall_app in Hcjk. destruct Hcjk as [_ H].
    apply Forall_app in H. tauto. }
  destruct (_extract_from_suffix_word cfg word) as [[n a]|] eqn:Es.
  { destruct (suffix_word_spec cfg word n a Hwcjk Es) as [Hw Hn].
    destruct (is_name cfg n full_context _ true cache) as [[b sc] cache']
      eqn:En.
    destruct b; cbn [fst]; [|assumption].
    apply Forall_app. split; [assumption|]. constructor; [|constructor].
    unfold accepted_ok. cbn [name score has_affix].
    split; [rewrite Hw in Hwcjk; apply Forall_app in Hwcjk; tauto|].
    split; [unfold len; lia|].
    destruct (is_name_accepts _ _ _ _ _ _ _ _ En) as [H|H]; [left|right];
      tauto. }
  destruct (_extract_from_prefix_word cfg word) as [[n p]|] eqn:Ep.
  { destruct (prefix_word_spec cfg word n p Hwcjk Ep) as [Hw Hn].
    destruct (is_name cfg n full_context _ true cache) as [[b sc] cache']
      eqn:En.
    destruct b; cbn [fst]; [|assumption].
    apply Forall_app. split; [assumption|]. constructor; [|constructor].
    unfold accepted_ok. cbn [name score has_affix].
    split; [rewrite Hw in Hwcjk; apply Forall_app in Hwcjk; tauto|].
    split; [unfold len; lia|].
    destruct (is_name_accepts _ _ _ _ _ _ _ _ En) as [H|H]; [left|right];
      tauto. }
  destruct ((1 <=? Z.of_nat length) && (Z.of_nat length <=? 3)) eqn:E13;
    [|assumption].
  destruct (negb (_is_at_boundary part _ _)); [assumption|].
  destruct (is_name cfg word full_context _ false cache) as [[b sc] cache']
    eqn:En.
  destruct b; cbn [fst]; [|assumption].
  apply Forall_app. split; [assumption|]. constructor; [|constructor].
  apply andb_true_iff in E13. rewrite !Z.leb_le in E13.
  unfold accepted_ok. cbn [name score has_affix].
  split; [exact Hwcjk|]. split; [unfold len; lia|].
  destruct (is_name_accepts _ _ _ _ _ _ _ _ En) as [H|H]; [left|right]; tauto.
Qed.

Lemma extract_candidates_accepted (cfg : NameGuardConfig)
    (part full_context : str) (is_first_part : bool)
    (cache : occurrence_cache) :
  Forall (accepted_ok cfg)
    (fst (_extract_candidates_from_part cfg part full_context is_first_part
                                        cache)).
Proof.
  unfold _extract_candidates_from_part.
  apply (fold_left_invariant _
           (fun st => Forall (accepted_ok cfg) (fst st))
           (fun m => In m (finditer part)));
    [|apply Forall_forall; auto|constructor].
  intros st [p r] Hm Hst.
  destruct (finditer_spec part p r Hm) as (o & -> & Hat & Hcjk).
  unfold scan_segment.
  apply (fold_left_invariant _
           (fun st => Forall (accepted_ok cfg) (fst st))
           (fun length => (1 <= length <= List.length r)%nat));
    [| |assumption].
  - intros st1 length Hl H1.
    apply (fold_left_invariant _
             (fun st => Forall (accepted_ok cfg) (fst st))
             (fun i => (i + length <= List.length r)%nat));
      [| |assumption].
    + intros st2 i Hi H2. apply visit_word_accepted; [assumption|lia|assumption|assumption].
    + apply Forall_forall. intros i Hi. unfold offsets_of in Hi.
      apply in_seq in Hi. lia.
  - apply Forall_forall. intros length Hl. unfold lengths_of in Hl.
    apply in_rev, in_seq in Hl. lia.
Qed.

(** ** Where the returned names come from *)

Lemma dict_set_In {V : Type} (d : list (str * V)) (k : str) (v : V)
    (k' : str) (v' : V) :
  In (k', v') (dict_set d k v) -> In (k', v') d \/ v' = v.
Proof.
  induction d as [|[k0 v0] d IH]; simpl.
  - intros [H|[]]. injection H as <- <-. auto.
  - destruct (str_eqb k k0); simpl.
    + intros [H|H]; [injection H as <- <-; auto | auto].
    + intros [H|H]; [auto | destruct (IH H); auto].
Qed.

(** The loop over the accepted candidates only appends names of accepted
    candidates to the name list, and every value it writes into the
    placeholder-to-name map is such a name too. *)
Lemma assign_fold_names (cfg : NameGuardConfig)
    (selected : list NameCandidate) :
  forall (acc : Locals * list replacement),
    let st := fst acc in
    let st' := fst (fold_left (assign_placeholder cfg) selected acc) in
    (exists rest, all_names st' = all_names st ++ rest
                  /\ forall n, In n rest -> exists c, In c selected
                                                      /\ name c = n)
    /\ (forall p n, In (p, n) (name_map st') ->
                    In (p, n) (name_map st)
                    \/ exists c, In c selected /\ name c = n).
Proof.
  induction selected as [|c cs IH]; intros [st rs]; cbn [fst fold_left].
  - split; [exists []; rewrite app_nil_r; split; [reflexivity|intros n []]|].
    auto.
  - specialize (IH (assign_placeholder cfg (st, rs) c)).
    cbn zeta in IH. destruct IH as ((rest & Hrest & Hin) & Hmap).
    assert (Hstep :
              (all_names (fst (assign_placeholder cfg (st, rs) c))
               = all_names st
               \/ all_names (fst (assign_placeholder cfg (st, rs) c))
                  = all_names st ++ [name c])
              /\ forall p n,
                   In (p, n)
                      (name_map (fst (assign_placeholder cfg (st, rs) c))) ->
                   In (p, n) (name_map st) \/ n = name c).
    { unfold assign_placeholder.
      destruct (dict_get (name_to_placeholder st) (name c)); cbn [fst];
        [split; auto|].
      cbn [all_names name_map]. split; [auto|].
      intros p n H. apply dict_set_In in H. exact H. }
    destruct Hstep as [Hnames Hvals]. split.
    + destruct Hnames as [E|E]; rewrite E in Hrest.
      * exists rest. split; [exact Hrest|].
        intros n Hn. destruct (Hin n Hn) as (c' & Hc' & <-).
        exists c'. split; [right; exact Hc' | reflexivity].
      * exists (name c :: rest). split.
        { rewrite Hrest, <- app_assoc. reflexivity. }
        intros n [<-|Hn]; [exists c; split; [left|]; reflexivity|].
        destruct (Hin n Hn) as (c' & Hc' & <-).
        exists c'. split; [right; exact Hc' | reflexivity].
    + intros p n H. destruct (Hmap p n H) as [H'|(c' & Hc' & <-)].
      * destruct (Hvals p n H') as [H''| ->]; [left; exact H''|].
        right. exists c. split; [left|]; reflexivity.
      * right. exists c'. split; [right; exact Hc' | reflexivity].
Qed.

Lemma process_part_names (cfg : NameGuardConfig) (text : str) (part_idx : Z)
    (part : str) (st : Locals) :
  let sel := selected_of cfg text part_idx part st in
  let st' := process_part cfg text part_idx part st in
  (exists rest, all_names st' = all_names st ++ rest
                /\ forall n, In n rest -> exists c, In c sel /\ name c = n)
  /\ (forall p n, In (p, n) (name_map st') ->
                  In (p, n) (name_map st)
                  \/ exists c, In c sel /\ name c = n).
Proof.
  unfold selected_of, process_part.
  destruct (_extract_candidates_from_part cfg part text (part_idx =? 0)
              (cache_ st)) as [cands cache].
  cbn [fst].
  pose proof (assign_fold_names cfg (_select_non_overlapping cands)
                ({| name_map := name_map st;
                    name_to_placeholder := name_to_placeholder st;
                    name_index := name_index st;
                    cache_ := cache;
                    replaced_parts := replaced_parts st;
                    all_names := all_names st |}, [])) as H.
  destruct (fold_left (assign_placeholder cfg) (_select_non_overlapping cands)
              _) as [st1 rs].
  cbn [fst all_names name_map] in *. exact H.
Qed.

(** What holds of the name of every candidate accepted in any part holds of
    every name the loop lists and of every value it maps a placeholder to. *)
Lemma parts_loop_names (cfg : NameGuardConfig) (text : str)
    (Q : str -> Prop) (parts : list str) :
  (forall part part_idx st c,
      In part parts -> In c (selected_of cfg text part_idx part st) ->
      Q (name c)) ->
  forall part_idx st,
    (forall n, In n (all_names st) -> Q n) ->
    (forall p n, In (p, n) (name_map st) -> Q n) ->
    (forall n, In n (all_names (parts_loop cfg text parts part_idx st)) -> Q n)
    /\ (forall p n,
           In (p, n) (name_map (parts_loop cfg text parts part_idx st)) ->
           Q n).
Proof.
  induction parts as [|part parts IH]; intros Hsel part_idx st H1 H2;
    cbn [parts_loop]; [auto|].
  destruct (process_part_names cfg text part_idx part st)
    as ((rest & Hrest & Hin) & Hmap).
  apply IH.
  - intros part' idx' st' c Hp Hc. apply (Hsel part' idx' st' c); [right|];
      assumption.
  - intros n Hn. rewrite Hrest in Hn. apply in_app_or in Hn.
    destruct Hn as [Hn|Hn]; [auto|].
    destruct (Hin n Hn) as (c & Hc & <-).
    apply (Hsel part part_idx st c); [left; reflexivity | exact Hc].
  - intros p n Hn. destruct (Hmap p n Hn) as [H|(c & Hc & <-)].
    + eapply H2; exact H.
    + apply (Hsel part part_idx st c); [left; reflexivity | exact Hc].
Qed.

Lemma split_from_occurs (sep : str) :
  forall (s cur : str) (skip : nat) (part : str),
    (skip <> 0%nat -> cur = []) ->
    In part (split_from s sep cur skip) -> occurs part (cur ++ s).
Proof.
  induction s as [|c s IH]; intros cur skip part Hskip Hin;
    cbn [split_from] in Hin.
  - destruct Hin as [<-|[]]. exists [], []. rewrite !app_nil_r. reflexivity.
  - destruct skip as [|k].
    + destruct (startswith (c :: s) sep).
      * destruct Hin as [<-|Hin].
        { exists [], (c :: s). reflexivity. }
        apply (IH [] _ part (fun _ => eq_refl)) in Hin. simpl in Hin.
        apply (occurs_app part s (cur ++ [c]) []) in Hin.
        rewrite app_nil_r, <- app_assoc in Hin. exact Hin.
      * apply (IH (cur ++ [c]) 0%nat part) in Hin; [|congruence].
        rewrite <- app_assoc in Hin. exact Hin.
    + rewrite (Hskip (Nat.neq_succ_0 k)) in *.
      apply (IH [] k part (fun _ => eq_refl)) in Hin. simpl in Hin.
      apply (occurs_app part s [c] []) in Hin.
      rewrite app_nil_r in Hin. exact Hin.
Qed.

Lemma split_occurs (text sep : str) (parts : list str) (part : str) :
  split text sep = Some parts -> In part parts -> occurs part text.
Proof.
  unfold split. destruct sep as [|c0 sep']; [discriminate|].
  intros H Hin. injection H as <-.
  apply split_from_occurs in Hin; [exact Hin | congruence].
Qed.

Lemma occurs_trans (a b c : str) : occurs a b -> occurs b c -> occurs a c.
Proof.
  intros Hab (x & y & ->). apply occurs_app. exact Hab.
Qed.

Lemma slice_occurs (part : str) (s e : Z) :
  0 <= s -> s <= e -> occurs (slice part s e) part.
Proof.
  intros H0 H1. unfold slice. rewrite !norm_index_nonneg by lia.
  exists (firstn (Z.to_nat s) part),
         (skipn (Z.to_nat e - Z.to_nat s) (skipn (Z.to_nat s) part)).
  rewrite firstn_skipn, firstn_skipn. reflexivity.
Qed.

(** X3: every name the call returns, in the name list and as a value of
    the placeholder map, is a string of one to three CJK characters that
    occurs in the input text, and it is allow-listed or else neither
    strongly excluded nor deny-listed. *)
Theorem returned_names_sound (cfg : NameGuardConfig)
    (text sep_marker out : str) (nm : list (str * str)) (names : list str) :
  extract_and_replace_names cfg text sep_marker = Some (out, nm, names) ->
  forall n,
    In n names \/ (exists p, In (p, n) nm) ->
    Forall (fun ch => is_cjk ch = true) n
    /\ 1 <= len n <= 3
    /\ occurs n text
    /\ (In n (known_names cfg)
        \/ (is_strongly_excluded cfg n = false /\ ~ In n (exclude_names cfg))).
Proof.
  intros Hex. unfold extract_and_replace_names in Hex.
  destruct (split text sep_marker) as [parts|] eqn:Hsp; [|discriminate].
  injection Hex as <- <- <-.
  set (Q := fun n : str =>
              Forall (fun ch => is_cjk ch = true) n
              /\ 1 <= len n <= 3
              /\ occurs n text
              /\ (In n (known_names cfg)
                  \/ (is_strongly_excluded cfg n = false
                      /\ ~ In n (exclude_names cfg)))).
  assert (Hsel : forall part part_idx st c,
             In part parts -> In c (selected_of cfg text part_idx part st) ->
             Q (name c)).
  { intros part part_idx st c Hp Hc. unfold selected_of in Hc.
    apply select_non_overlapping_In in Hc.
    pose proof (extract_candidates_accepted cfg part text (part_idx =? 0)
                  (cache_ st)) as Ha.
    pose proof (extract_candidates_ok cfg part text (part_idx =? 0)
                  (cache_ st)) as Ho.
    rewrite Forall_forall in Ha, Ho.
    destruct (Ha c Hc) as (A1 & A2 & A3).
    destruct (Ho c Hc) as [(O1 & O2 & O3 & O4 & _) _].
    split; [exact A1|]. split; [exact A2|]. split.
    - apply (occurs_trans _ part); [|eapply split_occurs; eassumption].
      rewrite <- O4. apply slice_occurs; lia.
    - destruct A3 as [[K _]|(_ & E & D & _)]; [left | right]; auto. }
  destruct (parts_loop_names cfg text Q parts Hsel 0 initial_locals)
    as [H1 H2]; [intros n []|intros p n []|].
  intros n [Hn|[p Hp]]; [apply H1 | apply (H2 p)]; assumption.
Qed.

Lemma returned_names_sound_witness :
  extract_and_replace_names honorific_config [24179; 23433; 21733] sep_default
  = Some (default_format 0 ++ [21733], [(default_format 0, [24179; 23433])],
          [[24179; 23433]])
  /\ Forall (fun ch => is_cjk ch = true) [24179; 23433]
  /\ 1 <= len [24179; 23433] <= 3
  /\ occurs [24179; 23433] [24179; 23433; 21733].
Proof.
  assert (Hrun : extract_and_replace_names honorific_config
                   [24179; 23433; 21733] sep_default
                 = Some (default_format 0 ++ [21733],
                         [(default_format 0, [24179; 23433])],
                         [[24179; 23433]]))
    by (vm_compute; reflexivity).
  split; [exact Hrun|].
  destruct (returned_names_sound honorific_config _ _ _ _ _ Hrun
              [24179; 23433]) as (H1 & H2 & H3 & _).
  - left. left. reflexivity.
  - auto.
Defined.

(** X4: every candidate accepted for a part is allow-listed, with score
    999, or has a score that reaches the threshold; and when strong signals
    are required, a candidate that is not allow-listed has an honorific
    affix or a name of two or three characters: a single character is never
    accepted on its own. *)
Theorem accepted_candidates (cfg : NameGuardConfig) (part full_context : str)
    (is_first_part : bool) (cache : occurrence_cache) (c : NameCandidate) :
  In c (_select_non_overlapping
          (fst (_extract_candidates_from_part cfg part full_context
                                              is_first_part cache))) ->
  (In (name c) (known_names cfg) /\ score c = 999)
  \/ (~ In (name c) (known_names cfg)
      /\ threshold cfg <= score c
      /\ (require_strong_signal cfg = true ->
          has_affix c = true \/ 2 <= len (name c) <= 3)).
Proof.
  intros Hin. apply select_non_overlapping_In in Hin.
  pose proof (extract_candidates_accepted cfg part full_context is_first_part
                                          cache) as H.
  rewrite Forall_forall in H. destruct (H c Hin) as (_ & _ & [Hk|Hs]).
  - left. exact Hk.
  - right. tauto.
Qed.

Lemma accepted_candidates_witness :
  In {| name := [24179; 23433]; start := 0; end_ := 2; score := 190;
        has_affix := true; affix_type := Suffix; affix := [21733] |}
     (_select_non_overlapping
        (fst (_extract_candidates_from_part honorific_config
                [24179; 23433; 21733] [24179; 23433; 21733] true [])))
  /\ ~ In [24179; 23433] (known_names honorific_config)
  /\ threshold honorific_config <= 190.
Proof.
  assert (Hin : In {| name := [24179; 23433]; start := 0; end_ := 2;
                      score := 190; has_affix := true;
                      affix_type := Suffix; affix := [21733] |}
                   (_select_non_overlapping
                      (fst (_extract_candidates_from_part honorific_config
                              [24179; 23433; 21733] [24179; 23433; 21733]
                              true []))))
    by (vm_compute; left; reflexivity).
  split; [exact Hin|].
  destruct (accepted_candidates honorific_config _ _ _ _ _ Hin)
    as [[Hk _]|(Hk & Ht & _)].
  - simpl in Hk. contradiction.
  - split; [exact Hk | exact Ht].
Defined.

(** ** What the rewrite leaves alone *)

Lemma untouched_kept (rs : list replacement) :
  forall bound cur (a : Z) (k : nat),
    desc_chain bound rs -> bound <= len cur -> 0 <= a ->
    (forall r, In r rs ->
               ~ (fst (fst r) < a + Z.of_nat k /\ snd (fst r) > a)) ->
    occurs (firstn k (skipn (Z.to_nat a) cur))
           (fold_left replace_span rs cur).
Proof.
  induction rs as [|[[s1 e1] p1] rs IH]; intros bound cur a k Hc Hb Ha Hno.
  - simpl. exists (firstn (Z.to_nat a) cur),
                  (skipn k (skipn (Z.to_nat a) cur)).
    rewrite firstn_skipn, firstn_skipn. reflexivity.
  - rewrite (fold_replace_cons rs bound) by assumption.
    destruct Hc as (H0 & H1 & H2 & Hc).
    pose proof (Hno _ (or_introl eq_refl)) as Hhead. simpl in Hhead.
    assert (Hno' : forall r, In r rs ->
                ~ (fst (fst r) < a + Z.of_nat k /\ snd (fst r) > a))
      by (intros r Hr'; apply Hno; right; exact Hr').
    destruct (Z_le_gt_dec e1 a) as [Hright|Hleft].
    + assert (E : skipn (Z.to_nat a) cur
                  = skipn (Z.to_nat a - Z.to_nat e1)
                          (skipn (Z.to_nat e1) cur)).
      { rewrite skipn_skipn. f_equal. lia. }
      rewrite E.
      exists (fold_left replace_span rs (firstn (Z.to_nat s1) cur) ++ p1
              ++ firstn (Z.to_nat a - Z.to_nat e1) (skipn (Z.to_nat e1) cur)),
             (skipn k (skipn (Z.to_nat a - Z.to_nat e1)
                             (skipn (Z.to_nat e1) cur))).
      rewrite <- !app_assoc. rewrite firstn_skipn, firstn_skipn. reflexivity.
    + assert (Hl : s1 <= len (firstn (Z.to_nat s1) cur)).
      { unfold len in *. rewrite firstn_length_le by lia. lia. }
      pose proof (IH s1 _ a k Hc Hl Ha Hno') as Ho.
      rewrite firstn_skipn_firstn in Ho by lia.
      apply (occurs_app _ _ [] (p1 ++ skipn (Z.to_nat e1) cur)) in Ho.
      exact Ho.
Qed.

(** X5: the rewrite of a part touches only the accepted spans: whatever
    stretch [part[a:a+k]] no accepted span intersects is still there,
    verbatim, in the rewritten part. *)
Theorem untouched_text_kept (cfg : NameGuardConfig) (text : str)
    (part_idx : Z) (part : str) (st : Locals) (a : Z) (k : nat) :
  let sel := selected_of cfg text part_idx part st in
  let st' := process_part cfg text part_idx part st in
  0 <= a ->
  (forall c, In c sel -> ~ (start c < a + Z.of_nat k /\ end_ c > a)) ->
  exists out,
    replaced_parts st' = replaced_parts st ++ [out]
    /\ occurs (slice part a (a + Z.of_nat k)) out.
Proof.
  intros sel st' Ha Hno.
  exists (rewrite_part part (map (triple_of st') sel)).
  split; [exact (proj1 (process_part_spec cfg text part_idx part st))|].
  rewrite slice_firstn_skipn by exact Ha. unfold rewrite_part.
  pose proof (part_replacements_chain cfg part text (part_idx =? 0)
                (cache_ st) st') as Hchain.
  fold (selected_of cfg text part_idx part st) in Hchain. fold sel in Hchain.
  apply (untouched_kept _ (len part)); [exact Hchain|lia|exact Ha|].
  intros r Hr.
  eapply Permutation_in in Hr; [|symmetry; apply sorted_replacements_perm].
  apply in_map_iff in Hr. destruct Hr as (c & <- & Hc).
  apply Hno. exact Hc.
Qed.

Lemma untouched_text_kept_witness :
  exists out,
    replaced_parts (process_part honorific_config [24179; 23433; 21733] 0
                                 [24179; 23433; 21733] initial_locals)
    = replaced_parts initial_locals ++ [out]
    /\ occurs (slice [24179; 23433; 21733] 2 (2 + Z.of_nat 1)) out.
Proof.
  apply (untouched_text_kept honorific_config [24179; 23433; 21733] 0
           [24179; 23433; 21733] initial_locals 2 1).
  - lia.
  - intros c Hc. vm_compute in Hc. destruct Hc as [<-|[]]. simpl. lia.
Defined.

(** ** One rewritten part per part *)

Lemma parts_loop_replaced (cfg : NameGuardConfig) (text : str)
    (parts : list str) :
  forall part_idx st,
  exists more,
    replaced_parts (parts_loop cfg text parts part_idx st)
    = replaced_parts st ++ more
    /\ length more = length parts.
Proof.
  induction parts as [|part parts IH]; intros part_idx st; cbn [parts_loop].
  - exists []. rewrite app_nil_r. auto.
  - destruct (IH (part_idx + 1) (process_part cfg text part_idx part st))
      as (more & Hm & Hl).
    rewrite (proj1 (process_part_spec cfg text part_idx part st)) in Hm.
    eexists (_ :: more). rewrite Hm, <- app_assoc. split; [reflexivity|].
    simpl. rewrite Hl. reflexivity.
Qed.

(** X6: the rewritten text is the join of exactly one rewritten part per
    part of the input, in order; the part of index [k] is rewritten with the
    replacements of its own accepted candidates, and a part without CJK
    characters comes back verbatim whatever the other parts hold. *)
Theorem one_rewritten_part_per_part (cfg : NameGuardConfig)
    (text sep_marker out : str) (nm : list (str * str)) (names : list str)
    (parts : list str) :
  extract_and_replace_names cfg text sep_marker = Some (out, nm, names) ->
  split text sep_marker = Some parts ->
  exists rps,
    out = join sep_marker rps
    /\ length rps = length parts
    /\ forall (k : nat) part,
         nth_error parts k = Some part ->
         nth_error rps k
         = Some (rewrite_part part
                   (map (triple_of
                           (process_part cfg text (Z.of_nat k) part
                                         (locals_before cfg text parts k)))
                        (selected_of cfg text (Z.of_nat k) part
                                     (locals_before cfg text parts k))))
         /\ (Forall (fun c => is_cjk c = false) part ->
             nth_error rps k = Some part).
Proof.
  intros Hex Hsp. unfold extract_and_replace_names in Hex.
  rewrite Hsp in Hex. injection Hex as <- _ _.
  exists (replaced_parts (parts_loop cfg text parts 0 initial_locals)).
  split; [reflexivity|]. split.
  - destruct (parts_loop_replaced cfg text parts 0 initial_locals)
      as (more & Hm & Hl).
    rewrite Hm. simpl. exact Hl.
  - intros k part Hk.
    assert (Hlen : (k < length parts)%nat)
      by (apply nth_error_Some; congruence).
    assert (Hbefore : length (replaced_parts (locals_before cfg text parts k))
                      = k).
    { unfold locals_before.
      destruct (parts_loop_replaced cfg text (firstn k parts) 0
                  initial_locals) as (more & Hm & Hl).
      rewrite Hm. simpl. rewrite Hl. apply firstn_length_le. lia. }
    assert (Hnth : forall x,
               replaced_parts (process_part cfg text (Z.of_nat k) part
                                 (locals_before cfg text parts k))
               = replaced_parts (locals_before cfg text parts k) ++ [x] ->
               nth_error (replaced_parts
                            (parts_loop cfg text parts 0 initial_locals)) k
               = Some x).
    { intros x Hx. rewrite (parts_loop_at cfg text parts k part Hk).
      destruct (parts_loop_replaced cfg text (skipn (S k) parts)
                  (Z.of_nat k + 1)
                  (process_part cfg text (Z.of_nat k) part
                                (locals_before cfg text parts k)))
        as (more & Hm & _).
      rewrite Hm, Hx, <- app_assoc.
      rewrite nth_error_app2 by lia. rewrite Hbefore, Nat.sub_diag.
      reflexivity. }
    split.
    + apply Hnth.
      exact (proj1 (process_part_spec cfg text (Z.of_nat k) part _)).
    + intros Hno. apply Hnth. rewrite process_part_no_cjk by exact Hno.
      reflexivity.
Qed.

Lemma one_rewritten_part_per_part_witness :
  exists rps,
    [104; 105] ++ sep_default ++ default_format 0 ++ [21733]
    = join sep_default rps
    /\ length rps = 2%nat
    /\ nth_error rps 0 = Some [104; 105].
Proof.
  assert (Hrun : extract_and_replace_names honorific_config
                   ([104; 105] ++ sep_default ++ [24179; 23433; 21733])
                   sep_default
                 = Some ([104; 105] ++ sep_default ++ default_format 0
                         ++ [21733],
                         [(default_format 0, [24179; 23433])],
                         [[24179; 23433]]))
    by (vm_compute; reflexivity).
  assert (Hsp : split ([104; 105] ++ sep_default ++ [24179; 23433; 21733])
                      sep_default
                = Some [[104; 105]; [24179; 23433; 21733]])
    by (vm_compute; reflexivity).
  destruct (one_rewritten_part_per_part honorific_config _ _ _ _ _ _
              Hrun Hsp) as (rps & Hout & Hlen & Hparts).
  exists rps. split; [exact Hout|]. split; [exact Hlen|].
  apply (proj2 (Hparts 0%nat [104; 105] eq_refl)).
  repeat constructor.
Defined.

(** ** What the greedy selection guarantees *)

Lemma overlaps_witness (c : NameCandidate) (selected : list NameCandidate) :
  overlaps c (map (fun s => (start s, end_ s)) selected) = true ->
  exists s, In s selected /\ spans_overlap c s = true.
Proof.
  unfold overlaps. rewrite existsb_exists. intros ([s e] & Hin & H).
  apply in_map_iff in Hin. destruct Hin as (x & Hx & Hin).
  injection Hx as <- <-. exists x. split; [exact Hin | exact H].
Qed.

Lemma select_loop_keeps (cs selected : list NameCandidate)
    (used : list (Z * Z)) (c : NameCandidate) :
  In c selected -> In c (select_loop cs selected used).
Proof.
  revert selected used. induction cs as [|x cs IH]; intros selected used H;
    simpl; [exact H|].
  destruct (overlaps x used); apply IH; [exact H|].
  apply in_or_app. left. exact H.
Qed.

(** Every candidate the loop walks past is accepted, or overlaps an accepted
    candidate that was accepted before the walk or stood earlier in it. *)
Lemma select_loop_greedy (R : NameCandidate -> NameCandidate -> Prop)
    (cs : list NameCandidate) :
  ForallOrdPairs R cs ->
  forall selected c,
    In c cs ->
    let result := select_loop cs selected
                    (map (fun s => (start s, end_ s)) selected) in
    In c result
    \/ exists s, In s result /\ spans_overlap c s = true
                 /\ (In s selected \/ R s c).
Proof.
  induction 1 as [|x cs Hx Hcs IH]; intros selected c Hin; [destruct Hin|].
  cbn zeta. cbn [select_loop].
  destruct (overlaps x (map (fun s => (start s, end_ s)) selected)) eqn:E.
  - destruct Hin as [<-|Hin]; [|exact (IH selected c Hin)].
    right. apply overlaps_witness in E. destruct E as (s & Hs & Ho).
    exists s. split; [apply select_loop_keeps; exact Hs|]. auto.
  - replace (map (fun s => (start s, end_ s)) selected ++ [(start x, end_ x)])
      with (map (fun s => (start s, end_ s)) (selected ++ [x]))
      by (rewrite map_app; reflexivity).
    destruct Hin as [<-|Hin].
    + left. apply select_loop_keeps. apply in_or_app. right. left. reflexivity.
    + destruct (IH (selected ++ [x]) c Hin) as [H|(s & Hs & Ho & Hor)];
        [left; exact H|].
      right. exists s. split; [exact Hs|]. split; [exact Ho|].
      destruct Hor as [Hsel|Hr]; [|right; exact Hr].
      apply in_app_or in Hsel. destruct Hsel as [Hsel|[<-|[]]];
        [left; exact Hsel|].
      right. rewrite Forall_forall in Hx. apply Hx. exact Hin.
Qed.

(** ** The walk in priority order *)

Lemma overlaps_existsb (c : NameCandidate) (l : list NameCandidate) :
  overlaps c (map (fun s => (start s, end_ s)) l)
  = existsb (spans_overlap c) l.
Proof.
  unfold overlaps. induction l as [|s l IH]; simpl; [reflexivity|].
  rewrite IH. reflexivity.
Qed.

(** Considering one more candidate: it is appended when it overlaps none of
    those accepted so far, and changes nothing otherwise. *)
Lemma select_loop_snoc (cs : list NameCandidate) (c : NameCandidate) :
  forall selected,
    select_loop (cs ++ [c]) selected
                (map (fun s => (start s, end_ s)) selected)
    = if existsb (spans_overlap c)
                 (select_loop cs selected
                              (map (fun s => (start s, end_ s)) selected))
      then select_loop cs selected
                       (map (fun s => (start s, end_ s)) selected)
      else select_loop cs selected
                       (map (fun s => (start s, end_ s)) selected) ++ [c].
Proof.
  induction cs as [|x cs IH]; intros selected; cbn [app select_loop].
  - rewrite overlaps_existsb. destruct (existsb _ selected); reflexivity.
  - destruct (overlaps x _); [apply IH|].
    replace (map (fun s => (start s, end_ s)) selected ++ [(start x, end_ x)])
      with (map (fun s => (start s, end_ s)) (selected ++ [x]))
      by (rewrite map_app; reflexivity).
    apply IH.
Qed.

Lemma firstn_S_nth {A : Type} (l : list A) :
  forall (j : nat) (x : A),
    nth_error l j = Some x -> firstn (S j) l = firstn j l ++ [x].
Proof.
  induction l as [|a l IH]; intros j x H; [destruct j; discriminate|].
  destruct j as [|j]; cbn [nth_error] in H.
  - injection H as ->. reflexivity.
  - cbn [firstn app]. f_equal. apply IH. exact H.
Qed.

Lemma not_lower_priority (b c : NameCandidate) :
  tuple_ltb (priority b) (priority c) = false ->
  (has_affix b = true /\ has_affix c = false)
  \/ (has_affix b = has_affix c /\ score b > score c)
  \/ (has_affix b = has_affix c /\ score b = score c /\ start b <= start c).
Proof.
  intros H.
  assert (N : ~ (fst (fst (priority b)) < fst (fst (priority c))
      \/ (fst (fst (priority b)) = fst (fst (priority c))
          /\ snd (fst (priority b)) < snd (fst (priority c)))
      \/ (fst (fst (priority b)) = fst (fst (priority c))
          /\ snd (fst (priority b)) = snd (fst (priority c))
          /\ snd (priority b) < snd (priority c)))).
  { intros N. apply tuple_ltb_lt in N. congruence. }
  unfold priority in N. cbn [fst snd] in N.
  destruct (has_affix b), (has_affix c);
    try (left; split; reflexivity);
    try (exfalso; apply N; left; lia);
    right;
    (destruct (Z_lt_le_dec (score c) (score b));
     [left; split; [reflexivity | lia]|]);
    right; (split; [reflexivity|]); lia.
Qed.

(** C5: the overlap resolver considers the candidates in descending
    priority (has-affix, score, -start).  The list it walks is a
    rearrangement of the candidates in which every affixed candidate stands
    before every non-affixed one whatever their scores, a higher score
    stands before a lower one of the same affix status, and among equal
    affix status and equal score the smaller start stands first.  The walk
    goes through that list from its front: the candidate at each position
    is accepted exactly when it overlaps none of those accepted at the
    positions before it, and what is accepted after the last position is
    the result.  So the candidate that sorts first is always accepted, and
    a candidate is dropped only for an accepted one it overlaps that is
    affixed while it is not, or has the same affix status and a higher
    score, or the same status and score and no later start. *)
Theorem priority_order (candidates : list NameCandidate) :
  Permutation candidates (sorted_candidates candidates)
  /\ (forall (i j : nat) (a b : NameCandidate),
        nth_error (sorted_candidates candidates) i = Some a ->
        nth_error (sorted_candidates candidates) j = Some b ->
        (has_affix a = true /\ has_affix b = false)
        \/ (has_affix a = has_affix b /\ score a > score b)
        \/ (has_affix a = has_affix b /\ score a = score b
            /\ start a < start b) ->
        (i < j)%nat)
  /\ (forall (j : nat) (c : NameCandidate),
        nth_error (sorted_candidates candidates) j = Some c ->
        accepted_upto candidates (S j)
        = if existsb (spans_overlap c) (accepted_upto candidates j)
          then accepted_upto candidates j
          else accepted_upto candidates j ++ [c])
  /\ _select_non_overlapping candidates
     = accepted_upto candidates (length candidates)
  /\ (forall c, nth_error (sorted_candidates candidates) 0 = Some c ->
                In c (_select_non_overlapping candidates))
  /\ (forall c,
        In c candidates ->
        In c (_select_non_overlapping candidates)
        \/ exists b,
             In b (_select_non_overlapping candidates)
             /\ spans_overlap c b = true
             /\ ((has_affix b = true /\ has_affix c = false)
                 \/ (has_affix b = has_affix c /\ score b > score c)
                 \/ (has_affix b = has_affix c /\ score b = score c
                     /\ start b <= start c))).
Proof.
  assert (Hperm : Permutation candidates (sorted_candidates candidates))
    by apply sorted_by_perm.
  assert (Hsel : _select_non_overlapping candidates
                 = select_loop (sorted_candidates candidates) [] []).
  { destruct candidates; reflexivity. }
  split; [exact Hperm|]. split; [|split; [|split; [|split]]].
  - intros i j a b Hi Hj Hprio.
    assert (Hlt : tuple_ltb (priority b) (priority a) = true).
    { apply tuple_ltb_lt. unfold priority; simpl.
      destruct (has_affix a), (has_affix b); lia || (clear - Hprio;
        intuition (try discriminate; try lia)). }
    destruct (Nat.lt_trichotomy i j) as [H|[H|H]]; [assumption| |].
    + subst j. rewrite Hi in Hj. injection Hj as ->.
      apply tuple_ltb_lt in Hlt. lia.
    + pose proof (ForallOrdPairs_nth _ _ (sorted_candidates_in_order candidates)
                    j i b a H Hj Hi) as Ho.
      unfold in_order, before_priority in Ho. congruence.
  - intros j c Hj. unfold accepted_upto.
    rewrite (firstn_S_nth _ j c Hj).
    apply (select_loop_snoc (firstn j (sorted_candidates candidates)) c []).
  - unfold accepted_upto. rewrite Hsel.
    rewrite (Permutation_length Hperm), firstn_all. reflexivity.
  - intros c H0. rewrite Hsel.
    destruct (sorted_candidates candidates) as [|x s]; [discriminate|].
    injection H0 as ->. cbn [select_loop overlaps existsb].
    apply select_loop_keeps. left. reflexivity.
  - intros c Hin. rewrite Hsel.
    assert (Hs : In c (sorted_candidates candidates))
      by (eapply Permutation_in; [exact Hperm | exact Hin]).
    destruct (select_loop_greedy _ _ (sorted_candidates_in_order candidates)
                [] c Hs) as [H|(b & H1 & H2 & [[]|H3])]; [left; exact H|].
    right. exists b. split; [exact H1|]. split; [exact H2|].
    apply not_lower_priority. exact H3.
Qed.

Lemma priority_order_witness :
  (0 < 1)%nat
  /\ (In overlapping_candidate
         (_select_non_overlapping [overlapping_candidate; affixed_candidate])
      \/ exists b,
           In b (_select_non_overlapping
                   [overlapping_candidate; affixed_candidate])
           /\ spans_overlap overlapping_candidate b = true
           /\ ((has_affix b = true /\ has_affix overlapping_candidate = false)
               \/ (has_affix b = has_affix overlapping_candidate
                   /\ score b > score overlapping_candidate)
               \/ (has_affix b = has_affix overlapping_candidate
                   /\ score b = score overlapping_candidate
                   /\ start b <= start overlapping_candidate)))
  /\ In affixed_candidate
        (_select_non_overlapping [overlapping_candidate; affixed_candidate]).
Proof.
  destruct (priority_order [overlapping_candidate; affixed_candidate])
    as (_ & Horder & _ & _ & Hfirst & Hdrop).
  split; [|split].
  - apply (Horder 0%nat 1%nat affixed_candidate overlapping_candidate).
    + reflexivity.
    + reflexivity.
    + left. split; reflexivity.
  - apply Hdrop. left. reflexivity.
  - apply Hfirst. reflexivity.
Defined.

(** X7: a candidate is dropped only for a better one: every candidate is
    accepted, or it overlaps an accepted candidate whose priority
    (has-affix, score, -start) is not lower than its own. *)
Theorem dropped_only_for_better (candidates : list NameCandidate)
    (c : NameCandidate) :
  In c candidates ->
  In c (_select_non_overlapping candidates)
  \/ exists s, In s (_select_non_overlapping candidates)
               /\ (start c <? end_ s) && (end_ c >? start s) = true
               /\ tuple_ltb (priority s) (priority c) = false.
Proof.
  intros Hin. unfold _select_non_overlapping.
  destruct candidates as [|x l] eqn:E; [destruct Hin|]. rewrite <- E in *.
  assert (Hs : In c (sorted_candidates candidates))
    by (eapply Permutation_in; [apply sorted_by_perm | exact Hin]).
  destruct (select_loop_greedy _ _ (sorted_candidates_in_order candidates)
              [] c Hs) as [H|(s & H1 & H2 & [[]|H3])].
  - left. exact H.
  - right. exists s. split; [exact H1|]. split; [exact H2|]. exact H3.
Qed.

Lemma dropped_only_for_better_witness :
  In plain_candidate [plain_candidate; affixed_candidate]
  /\ (In plain_candidate
         (_select_non_overlapping [plain_candidate; affixed_candidate])
      \/ exists s,
           In s (_select_non_overlapping [plain_candidate; affixed_candidate])
           /\ (start plain_candidate <? end_ s)
              && (end_ plain_candidate >? start s) = true
           /\ tuple_ltb (priority s) (priority plain_candidate) = false).
Proof.
  assert (Hin : In plain_candidate [plain_candidate; affixed_candidate])
    by (left; reflexivity).
  split; [exact Hin|].
  exact (dropped_only_for_better _ _ Hin).
Defined.

(** ** Selecting twice *)

Lemma ForallOrdPairs_remove {A : Type} (R : A -> A -> Prop) (l1 : list A)
    (x : A) (l2 : list A) :
  ForallOrdPairs R (l1 ++ x :: l2) -> ForallOrdPairs R (l1 ++ l2).
Proof.
  induction l1 as [|a l1 IH]; simpl; intros H; inversion H; subst.
  - assumption.
  - constructor; [|auto].
    rewrite Forall_forall in *. intros y Hy. match goal with
    | Hf : forall z, In z (l1 ++ x :: l2) -> R a z |- _ => apply Hf end.
    apply in_app_or in Hy. apply in_or_app. simpl. tauto.
Qed.

(** The accepted candidates stand in the order of the walk. *)
Lemma select_loop_order (R : NameCandidate -> NameCandidate -> Prop)
    (cs : list NameCandidate) :
  forall selected used,
    ForallOrdPairs R (selected ++ cs) ->
    ForallOrdPairs R (select_loop cs selected used).
Proof.
  induction cs as [|x cs IH]; intros selected used H; simpl.
  - rewrite app_nil_r in H. exact H.
  - destruct (overlaps x used).
    + apply IH. eapply ForallOrdPairs_remove. exact H.
    + apply IH. rewrite <- app_assoc. exact H.
Qed.

Lemma sorted_by_sorted {A : Type} (before : A -> A -> bool) (l : list A) :
  ForallOrdPairs (in_order before) l -> sorted_by before l = l.
Proof.
  induction 1 as [|x l Hx Hl IH]; simpl; [reflexivity|].
  rewrite IH. destruct l as [|y l]; [reflexivity|]. simpl.
  inversion Hx; subst. unfold in_order in *.
  match goal with Hb : before y x = false |- _ => rewrite Hb end.
  reflexivity.
Qed.

Lemma overlaps_none (c : NameCandidate) (selected : list NameCandidate) :
  Forall (fun s => spans_overlap s c = false) selected ->
  overlaps c (map (fun s => (start s, end_ s)) selected) = false.
Proof.
  unfold overlaps. induction 1 as [|s l Hs Hl IH]; simpl; [reflexivity|].
  rewrite IH, orb_false_r. rewrite spans_overlap_sym in Hs. exact Hs.
Qed.

Lemma select_loop_all (cs : list NameCandidate) :
  forall selected,
    ForallOrdPairs (fun a b => spans_overlap a b = false) (selected ++ cs) ->
    select_loop cs selected (map (fun s => (start s, end_ s)) selected)
    = selected ++ cs.
Proof.
  induction cs as [|x cs IH]; intros selected H; simpl.
  - rewrite app_nil_r. reflexivity.
  - assert (Hx : Forall (fun s => spans_overlap s x = false) selected).
    { clear IH. induction selected as [|a sel IHs]; [constructor|].
      simpl in H. inversion H; subst. constructor.
      - match goal with Hf : Forall _ (sel ++ x :: cs) |- _ =>
          rewrite Forall_forall in Hf; apply Hf end.
        apply in_or_app. right. left. reflexivity.
      - apply IHs. assumption. }
    rewrite (overlaps_none x selected Hx).
    replace (map (fun s => (start s, end_ s)) selected ++ [(start x, end_ x)])
      with (map (fun s => (start s, end_ s)) (selected ++ [x]))
      by (rewrite map_app; reflexivity).
    rewrite IH; rewrite <- app_assoc; [reflexivity | exact H].
Qed.

(** X8: selecting again changes nothing: the accepted candidates are in
    priority order and pairwise disjoint, so [_select_non_overlapping] gives
    them back as they are. *)
Theorem select_idempotent (candidates : list NameCandidate) :
  _select_non_overlapping (_select_non_overlapping candidates)
  = _select_non_overlapping candidates.
Proof.
  pose proof (select_non_overlapping_pairs candidates) as Hd.
  assert (Ho : ForallOrdPairs (in_order before_priority)
                 (_select_non_overlapping candidates)).
  { unfold _select_non_overlapping. destruct candidates as [|x l] eqn:E;
      [constructor|]. rewrite <- E.
    apply select_loop_order. simpl. apply sorted_candidates_in_order. }
  set (S := _select_non_overlapping candidates) in *.
  unfold _select_non_overlapping at 1.
  destruct S as [|x l] eqn:E; [reflexivity|]. rewrite <- E in *.
  unfold sorted_candidates. rewrite sorted_by_sorted by exact Ho.
  apply (select_loop_all S []). exact Hd.
Qed.

(** ** The suffix pattern, exactly *)

Lemma cjk_prefix_len_all (w : str) (max : nat) :
  Forall (fun c => is_cjk c = true) w ->
  cjk_prefix_len w max = Nat.min max (length w).
Proof.
  intros H. revert max. induction H as [|c w Hc Hw IH]; intros [|m]; simpl;
    try reflexivity.
  rewrite Hc, IH. reflexivity.
Qed.

Lemma match_alt_dollar_In (alts : list str) (rest a : str) :
  match_alt_dollar alts rest = Some a -> In a alts.
Proof.
  induction alts as [|b alts IH]; simpl; [discriminate|].
  destruct (startswith rest b && at_dollar (skipn (length b) rest)).
  - intros H. injection H as <-. auto.
  - auto.
Qed.

Lemma match_alt_dollar_complete (alts : list str) (a : str) :
  In a alts -> match_alt_dollar alts a <> None.
Proof.
  induction alts as [|b alts IH]; simpl; [tauto|].
  intros Hin.
  destruct (startswith a b && at_dollar (skipn (length b) a)) eqn:E;
    [discriminate|].
  destruct Hin as [->|Hin]; [|auto].
  assert (Hs : startswith a a = true)
    by (apply startswith_app; exists []; rewrite app_nil_r; reflexivity).
  rewrite Hs, skipn_all in E. discriminate E.
Qed.

(** The backtracking stops at the longest name that leads to a match. *)
Lemma suffix_backtrack_longest (alts : list str) (word : str) (k : nat) :
  match suffix_backtrack alts word k with
  | Some (n, a) =>
      exists k', (1 <= k' <= k)%nat /\ n = firstn k' word
                 /\ match_alt_dollar alts (skipn k' word) = Some a
                 /\ forall j, (k' < j <= k)%nat ->
                              match_alt_dollar alts (skipn j word) = None
  | None =>
      forall j, (1 <= j <= k)%nat ->
                match_alt_dollar alts (skipn j word) = None
  end.
Proof.
  induction k as [|k IH]; cbn [suffix_backtrack]; [intros j Hj; lia|].
  destruct (match_alt_dollar alts (skipn (S k) word)) as [a|] eqn:E.
  - exists (S k). split; [lia|]. split; [reflexivity|]. split; [exact E|].
    intros j Hj. lia.
  - destruct (suffix_backtrack alts word k) as [[n a]|].
    + destruct IH as (k' & Hk & Hn & Hm & Hmax).
      exists k'. split; [lia|]. split; [exact Hn|]. split; [exact Hm|].
      intros j Hj. destruct (Nat.eq_dec j (S k)) as [->|Hne];
        [exact E | apply Hmax; lia].
    + intros j Hj. destruct (Nat.eq_dec j (S k)) as [->|Hne];
        [exact E | apply IH; lia].
Qed.

Lemma sorted_by_len_desc_In (patterns : list str) (a : str) :
  In a (sorted_by_len_desc patterns) <-> In a patterns.
Proof.
  split; intros H; (eapply Permutation_in; [|exact H]);
    [symmetry|]; apply sorted_by_perm.
Qed.

(** X9: on a word of CJK characters [_extract_from_suffix_word] finds a
    split exactly when there is one: a result [(name, suffix)] splits the
    word into a name of one to three characters and a configured suffix,
    and of all such splits of the word it is the one with the longest name
    (the shortest suffix); the result is [None] only when the word has no
    such split. *)
Theorem suffix_matcher_exact (cfg : NameGuardConfig) (word : str) :
  Forall (fun c => is_cjk c = true) word ->
  match _extract_from_suffix_word cfg word with
  | Some (n, a) =>
      word = n ++ a /\ 1 <= len n <= 3
      /\ In a (honorific_suffix_patterns cfg)
      /\ forall n' a',
           word = n' ++ a' -> 1 <= len n' <= 3 ->
           In a' (honorific_suffix_patterns cfg) -> len n' <= len n
  | None =>
      forall n' a',
        1 <= len n' <= 3 -> In a' (honorific_suffix_patterns cfg) ->
        word <> n' ++ a'
  end.
Proof.
  intros Hw.
  pose proof (suffix_word_spec cfg word) as Hsound.
  unfold _extract_from_suffix_word in *.
  destruct (sorted_by_len_desc (honorific_suffix_patterns cfg))
    as [|s0 ss] eqn:Es.
  { intros n' a' _ Hin. apply sorted_by_len_desc_In in Hin.
    rewrite Es in Hin. destruct Hin. }
  rewrite <- Es in *.
  pose proof (suffix_backtrack_longest
                (sorted_by_len_desc (honorific_suffix_patterns cfg)) word
                (cjk_prefix_len word 3)) as Hl.
  rewrite (cjk_prefix_len_all word 3 Hw) in *.
  assert (Hsplit : forall n' a',
             word = n' ++ a' -> 1 <= len n' <= 3 ->
             In a' (honorific_suffix_patterns cfg) ->
             (1 <= length n' <= Nat.min 3 (length word))%nat
             /\ match_alt_dollar
                  (sorted_by_len_desc (honorific_suffix_patterns cfg))
                  (skipn (length n') word) <> None).
  { intros n' a' E Hn Hin. unfold len in Hn. split.
    - rewrite E, length_app. lia.
    - rewrite E, skipn_app, skipn_all, Nat.sub_diag. simpl.
      apply match_alt_dollar_complete. apply sorted_by_len_desc_In.
      exact Hin. }
  destruct (suffix_backtrack _ word _) as [[n a]|] eqn:Eb.
  - destruct (Hsound n a Hw eq_refl) as [E Hn].
    destruct Hl as (k' & Hk & Hnk & Hm & Hmax).
    split; [exact E|]. split; [unfold len; lia|]. split.
    { apply sorted_by_len_desc_In. eapply match_alt_dollar_In. exact Hm. }
    intros n' a' E' Hn' Hin'.
    destruct (Hsplit n' a' E' Hn' Hin') as [Hr Hne].
    assert (Hkn : length n = k').
    { rewrite Hnk. apply firstn_length_le. lia. }
    unfold len. destruct (Nat.le_gt_cases (length n') k') as [H|H]; [lia|].
    exfalso. apply Hne. apply Hmax. lia.
  - intros n' a' Hn' Hin' E'.
    destruct (Hsplit n' a' E' Hn' Hin') as [Hr Hne].
    apply Hne. apply Hl. exact Hr.
Qed.

Lemma suffix_matcher_exact_witness :
  Forall (fun c => is_cjk c = true) [24179; 23433; 21733]
  /\ _extract_from_suffix_word honorific_config [24179; 23433; 21733]
     = Some ([24179; 23433], [21733])
  /\ [24179; 23433; 21733] = [24179; 23433] ++ [21733]
  /\ In [21733] (honorific_suffix_patterns honorific_config).
Proof.
  assert (Hw : Forall (fun c => is_cjk c = true) [24179; 23433; 21733])
    by (repeat constructor).
  split; [exact Hw|]. split; [reflexivity|].
  pose proof (suffix_matcher_exact honorific_config [24179; 23433; 21733] Hw)
    as H.
  change (_extract_from_suffix_word honorific_config [24179; 23433; 21733])
    with (Some ([24179; 23433], [21733])) in H.
  destruct H as (H1 & _ & H3 & _). split; [exact H1 | exact H3].
Defined.

(** ** The prefix pattern, exactly *)

Lemma sorted_by_len_desc_order (patterns : list str) :
  ForallOrdPairs (fun a b : str => len b <= len a)
                 (sorted_by_len_desc patterns).
Proof.
  eapply ForallOrdPairs_impl;
    [|apply (sorted_by_in_order (fun y x : str => len x <? len y))].
  - intros a b H. unfold in_order in H. apply Z.ltb_ge in H. exact H.
  - intros x y H. apply Z.ltb_lt in H. apply Z.ltb_ge. lia.
  - intros x y z H. apply Z.ltb_lt in H.
    destruct (len y <? len x) eqn:E; [left; reflexivity|].
    right. apply Z.ltb_ge in E. apply Z.ltb_lt. lia.
Qed.

Lemma prefix_backtrack_complete (rest : str) :
  Forall (fun c => is_cjk c = true) rest ->
  (1 <= length rest <= 2)%nat ->
  prefix_backtrack rest (cjk_prefix_len rest 2) <> None.
Proof.
  intros Hc Hl. rewrite (cjk_prefix_len_all rest 2 Hc).
  replace (Nat.min 2 (length rest)) with (length rest) by lia.
  destruct (length rest) as [|k] eqn:E; [lia|].
  cbn [prefix_backtrack]. rewrite <- E, skipn_all. discriminate.
Qed.

(** The alternation settles on the first prefix, in the order tried, that
    leads to a match. *)
Lemma prefix_alternatives_first (R : str -> str -> Prop) (word : str)
    (alts : list str) :
  ForallOrdPairs R alts ->
  match prefix_alternatives alts word with
  | Some (n, p) =>
      In p alts
      /\ forall p', In p' alts -> startswith word p' = true ->
                    prefix_backtrack (skipn (length p') word)
                      (cjk_prefix_len (skipn (length p') word) 2) <> None ->
                    p' = p \/ R p p'
  | None =>
      forall p', In p' alts -> startswith word p' = true ->
                 prefix_backtrack (skipn (length p') word)
                   (cjk_prefix_len (skipn (length p') word) 2) = None
  end.
Proof.
  induction 1 as [|q alts Hq Halts IH]; cbn [prefix_alternatives].
  - intros p' [].
  - assert (Hskip :
              startswith word q = false
              \/ prefix_backtrack (skipn (length q) word)
                   (cjk_prefix_len (skipn (length q) word) 2) = None ->
              match prefix_alternatives alts word with
              | Some (n, p) =>
                  In p (q :: alts)
                  /\ forall p', In p' (q :: alts) ->
                       startswith word p' = true ->
                       prefix_backtrack (skipn (length p') word)
                         (cjk_prefix_len (skipn (length p') word) 2)
                       <> None ->
                       p' = p \/ R p p'
              | None =>
                  forall p', In p' (q :: alts) ->
                    startswith word p' = true ->
                    prefix_backtrack (skipn (length p') word)
                      (cjk_prefix_len (skipn (length p') word) 2) = None
              end).
    { intros Hfail. destruct (prefix_alternatives alts word) as [[n p]|].
      - destruct IH as [Hin Hfirst]. split; [right; exact Hin|].
        intros p' [<-|Hp'] Hs Hb; [|auto].
        destruct Hfail as [Hf|Hf]; congruence.
      - intros p' [<-|Hp'] Hs; [|auto].
        destruct Hfail as [Hf|Hf]; congruence. }
    destruct (startswith word q) eqn:Es; [|apply Hskip; left; reflexivity].
    destruct (prefix_backtrack (skipn (length q) word)
                (cjk_prefix_len (skipn (length q) word) 2)) as [m|] eqn:Eb;
      [|apply Hskip; right; reflexivity].
    split; [left; reflexivity|].
    intros p' [<-|Hp'] _ _; [left; reflexivity|].
    right. rewrite Forall_forall in Hq. apply Hq. exact Hp'.
Qed.

(** X10: on a word of CJK characters [_extract_from_prefix_word] finds a
    split exactly when there is one: a result [(name, prefix)] splits the
    word into a configured prefix and a name of one or two characters, and
    of all such splits of the word it is one with the longest prefix; the
    result is [None] only when the word has no such split. *)
Theorem prefix_matcher_exact (cfg : NameGuardConfig) (word : str) :
  Forall (fun c => is_cjk c = true) word ->
  match _extract_from_prefix_word cfg word with
  | Some (n, p) =>
      word = p ++ n /\ 1 <= len n <= 2
      /\ In p (honorific_prefix_patterns cfg)
      /\ forall p' n',
           word = p' ++ n' -> 1 <= len n' <= 2 ->
           In p' (honorific_prefix_patterns cfg) -> len p' <= len p
  | None =>
      forall p' n',
        1 <= len n' <= 2 -> In p' (honorific_prefix_patterns cfg) ->
        word <> p' ++ n'
  end.
Proof.
  intros Hw.
  pose proof (prefix_word_spec cfg word) as Hsound.
  unfold _extract_from_prefix_word in *.
  destruct (sorted_by_len_desc (honorific_prefix_patterns cfg))
    as [|s0 ss] eqn:Es.
  { intros p' n' _ Hin. apply sorted_by_len_desc_In in Hin.
    rewrite Es in Hin. destruct Hin. }
  rewrite <- Es in *.
  pose proof (prefix_alternatives_first _ word _
                (sorted_by_len_desc_order (honorific_prefix_patterns cfg)))
    as Hf.
  assert (Hsplit : forall p' n',
             word = p' ++ n' -> 1 <= len n' <= 2 ->
             startswith word p' = true
             /\ prefix_backtrack (skipn (length p') word)
                  (cjk_prefix_len (skipn (length p') word) 2) <> None).
  { intros p' n' E Hn. unfold len in Hn. split.
    - apply startswith_app. exists n'. exact E.
    - rewrite E, skipn_app, skipn_all, Nat.sub_diag. simpl.
      apply prefix_backtrack_complete; [|lia].
      rewrite E in Hw. apply Forall_app in Hw. tauto. }
  destruct (prefix_alternatives _ word) as [[n p]|] eqn:Ea.
  - destruct (Hsound n p Hw eq_refl) as [E Hn].
    destruct Hf as [Hin Hfirst].
    split; [exact E|]. split; [unfold len; lia|].
    split; [apply sorted_by_len_desc_In; exact Hin|].
    intros p' n' E' Hn' Hin'.
    destruct (Hsplit p' n' E' Hn') as [Hs Hb].
    apply sorted_by_len_desc_In in Hin'.
    destruct (Hfirst p' Hin' Hs Hb) as [->|H]; [lia | exact H].
  - intros p' n' Hn' Hin' E'.
    destruct (Hsplit p' n' E' Hn') as [Hs Hb].
    apply sorted_by_len_desc_In in Hin'.
    apply Hb. apply Hf; assumption.
Qed.

Lemma prefix_matcher_exact_witness :
  Forall (fun c => is_cjk c = true) [32769; 29579]
  /\ _extract_from_prefix_word honorific_config [32769; 29579]
     = Some ([29579], [32769])
  /\ [32769; 29579] = [32769] ++ [29579]
  /\ In [32769] (honorific_prefix_patterns honorific_config).
Proof.
  assert (Hw : Forall (fun c => is_cjk c = true) [32769; 29579])
    by (repeat constructor).
  split; [exact Hw|]. split; [reflexivity|].
  pose proof (prefix_matcher_exact honorific_config [32769; 29579] Hw) as H.
  change (_extract_from_prefix_word honorific_config [32769; 29579])
    with (Some ([29579], [32769])) in H.
  destruct H as (H1 & _ & H3 & _). split; [exact H1 | exact H3].
Defined.

(** ** The call position *)

Lemma score_candidate_call_position (cfg : NameGuardConfig)
    (word context : str) (ha : bool) (cache : occurrence_cache) :
  fst (fst (score_candidate cfg word context true ha cache))
  = fst (fst (score_candidate cfg word context false ha cache))
    + (if 0 <? call_position_weight cfg then call_position_weight cfg else 0)
  /\ (snd (fst (score_candidate cfg word context false ha cache)) = true ->
      snd (fst (score_candidate cfg word context true ha cache)) = true)
  /\ snd (score_candidate cfg word context true ha cache)
     = snd (score_candidate cfg word context false ha cache).
Proof.
  unfold score_candidate.
  destruct (cached_count context word cache) as [occ cache'].
  destruct ha; destruct (0 <? call_position_weight cfg);
    destruct (0 <? repetition_weight cfg);
    destruct (repetition_min_occurrences cfg <=? occ);
    destruct (in_2_3 (len word));
    destruct (mem word (pos_exclusion_words cfg));
    destruct (existsb (Z.eqb (len word)) (length_preferred cfg));
    destruct (negb (existsb (fun e => endswith word e)
                            (length_exclude_endings cfg)));
    cbn [andb fst snd]; (split; [lia|]); split; auto.
Qed.

(** X11: standing in call position never hurts: whatever [is_name] accepts
    away from the call position it accepts in call position too, with a
    score at least as high, and it leaves the cache the same. *)
Theorem call_position_helps (cfg : NameGuardConfig) (word context : str)
    (ha : bool) (cache : occurrence_cache) :
  fst (fst (is_name cfg word context false ha cache)) = true ->
  fst (fst (is_name cfg word context true ha cache)) = true
  /\ snd (fst (is_name cfg word context false ha cache))
     <= snd (fst (is_name cfg word context true ha cache))
  /\ snd (is_name cfg word context true ha cache)
     = snd (is_name cfg word context false ha cache).
Proof.
  unfold is_name.
  destruct (mem word (known_names cfg)); [cbn; intros _; repeat split; lia|].
  destruct (is_strongly_excluded cfg word); [cbn; discriminate|].
  destruct (mem word (exclude_names cfg)); [cbn; discriminate|].
  pose proof (score_candidate_call_position cfg word context ha cache)
    as (Hs & Hh & Hc).
  destruct (score_candidate cfg word context true ha cache)
    as [[s1 h1] c1].
  destruct (score_candidate cfg word context false ha cache)
    as [[s0 h0] c0].
  cbn [fst snd] in *. subst c1.
  assert (Hge : s0 <= s1).
  { destruct (0 <? call_position_weight cfg) eqn:E; [|lia].
    apply Z.ltb_lt in E. lia. }
  destruct (require_strong_signal cfg); destruct h0; cbn;
    try discriminate; intros Ht; apply Z.leb_le in Ht;
    try rewrite (Hh eq_refl); destruct h1; cbn;
    repeat split; try lia; apply Z.leb_le; lia.
Qed.

Lemma call_position_helps_witness :
  fst (fst (is_name honorific_config [24179; 23433]
                    [24179; 23433; 21733] false true [])) = true
  /\ fst (fst (is_name honorific_config [24179; 23433]
                       [24179; 23433; 21733] true true [])) = true.
Proof.
  assert (H : fst (fst (is_name honorific_config [24179; 23433]
                          [24179; 23433; 21733] false true [])) = true)
    by reflexivity.
  split; [exact H|].
  exact (proj1 (call_position_helps honorific_config [24179; 23433]
                  [24179; 23433; 21733] true [] H)).
Defined.

(** ** The prefix weight *)

Lemma parts_loop_prefix_weight (cfg : NameGuardConfig) (w : Z) (text : str)
    (parts : list str) :
  forall part_idx st,
    parts_loop (with_prefix_weight cfg w) text parts part_idx st
    = parts_loop cfg text parts part_idx st.
Proof.
  induction parts as [|part parts IH]; intros part_idx st; cbn [parts_loop];
    [reflexivity|].
  rewrite IH. reflexivity.
Qed.

(** X12: [honorific_prefix_weight] is never read: a name found through a
    prefix is scored with [honorific_suffix_weight], and changing the prefix
    weight changes nothing in what [is_name] and
    [extract_and_replace_names] return. *)
Theorem prefix_weight_is_not_read (cfg : NameGuardConfig) (w : Z)
    (text sep_marker : str) :
  extract_and_replace_names (with_prefix_weight cfg w) text sep_marker
  = extract_and_replace_names cfg text sep_marker
  /\ (forall word context icp ha cache,
         is_name (with_prefix_weight cfg w) word context icp ha cache
         = is_name cfg word context icp ha cache)
  /\ (forall word context icp cache,
         fst (fst (score_candidate cfg word context icp true cache))
         = fst (fst (score_candidate cfg word context icp false cache))
           + honorific_suffix_weight cfg).
Proof.
  split; [|split; [reflexivity|]].
  - unfold extract_and_replace_names.
    destruct (split text sep_marker) as [parts|]; [|reflexivity].
    rewrite parts_loop_prefix_weight. reflexivity.
  - intros word context icp cache. unfold score_candidate.
    destruct (cached_count context word cache) as [occ cache'].
    destruct (icp && (0 <? call_position_weight cfg));
      destruct (0 <? repetition_weight cfg);
      destruct (repetition_min_occurrences cfg <=? occ);
      destruct (in_2_3 (len word));
      destruct (mem word (pos_exclusion_words cfg));
      destruct (existsb (Z.eqb (len word)) (length_preferred cfg));
      destruct (negb (existsb (fun e => endswith word e)
                              (length_exclude_endings cfg)));
      cbn [fst snd]; lia.
Qed.

(** ** The two implementations on the gates *)

Lemma existsb_ext_eq {A : Type} (f g : A -> bool) (l : list A) :
  (forall x, f x = g x) -> existsb f l = existsb g l.
Proof.
  intros H. induction l as [|x l IH]; simpl; [reflexivity|].
  rewrite H, IH. reflexivity.
Qed.

(** X13: on the same word lists the legacy and the optimized implementation
    agree on gate 1, and for every word that is allow-listed, strongly
    excluded or deny-listed they return the same verdict and the same
    sentinel score, whatever their other arguments are. *)
Theorem implementations_agree_on_gates (c1 : V1.NameGuardConfig)
    (c2 : NameGuardConfig) (word : str) :
  same_gate_lists c1 c2 ->
  V1.is_strongly_excluded c1 word = is_strongly_excluded c2 word
  /\ (In word (known_names c2) \/ is_strongly_excluded c2 word = true
      \/ In word (exclude_names c2) ->
      forall context1 position us asep skip context2 icp ha cache,
        fst (V1.is_name c1 word context1 position us asep skip)
        = fst (is_name c2 word context2 icp ha cache)).
Proof.
  intros (Hi & Ha & Hp & Hn & Hk & Hkn & Hex).
  assert (Hgate : V1.is_strongly_excluded c1 word
                  = is_strongly_excluded c2 word).
  { unfold V1.is_strongly_excluded, is_strongly_excluded.
    rewrite Hi, Ha, Hp, Hn, Hk.
    rewrite (existsb_ext_eq
               (fun interjection =>
                  contains word interjection && (2 <=? len interjection))
               (fun intj => (2 <=? len intj) && contains word intj))
      by (intros x; apply andb_comm).
    reflexivity. }
  split; [exact Hgate|].
  intros Hor context1 position us asep skip context2 icp ha cache.
  unfold V1.is_name, is_name. rewrite Hgate, Hkn, Hex.
  destruct (mem word (known_names c2)) eqn:E1; [reflexivity|].
  destruct (is_strongly_excluded c2 word) eqn:E2; [reflexivity|].
  destruct (mem word (exclude_names c2)) eqn:E3; [reflexivity|].
  exfalso. destruct Hor as [H|[H|H]];
    [apply mem_In in H; congruence | discriminate
     | apply mem_In in H; congruence].
Qed.

Lemma implementations_agree_on_gates_witness :
  same_gate_lists v1_allow_deny_config allow_deny_config
  /\ V1.is_strongly_excluded v1_allow_deny_config [29579]
     = is_strongly_excluded allow_deny_config [29579].
Proof.
  assert (H : same_gate_lists v1_allow_deny_config allow_deny_config)
    by (repeat split).
  split; [exact H|].
  exact (proj1 (implementations_agree_on_gates v1_allow_deny_config
                  allow_deny_config [29579] H)).
Defined.

(** ** The legacy score and its details *)

Lemma score_word_details (cfg : V1.NameGuardConfig) (word context : str)
    (position : Z) (us asep : bool) :
  fst (V1.score_word cfg word context position us asep)
  = details_sum (snd (V1.score_word cfg word context position us asep)).
Proof.
  unfold V1.score_word.
  destruct ((0 <? V1.honorific_suffix_weight cfg) && _);
    destruct ((0 <? V1.call_position_weight cfg) && _);
    destruct ((0 <? V1.repetition_weight cfg) && _);
    destruct ((V1.pos_exclusion_weight cfg <? 0) && _);
    destruct ((0 <? V1.length_structure_weight cfg) && _ && _);
    cbn [fst snd app details_sum fold_right]; lia.
Qed.

(** X14: in the legacy implementation the score [is_name] returns is always
    the sum of the per-rule details it returns beside it, for the sentinels
    as for a scored word; and a word is accepted only with the sentinel 999
    or with a score that reaches the threshold. *)
Theorem legacy_score_is_sum_of_details (cfg : V1.NameGuardConfig)
    (word context : str) (position : Z) (us asep skip : bool) :
  snd (fst (V1.is_name cfg word context position us asep skip))
  = details_sum (snd (V1.is_name cfg word context position us asep skip))
  /\ fst (V1.score_word cfg word context position us asep)
     = details_sum (snd (V1.score_word cfg word context position us asep))
  /\ (fst (fst (V1.is_name cfg word context position us asep skip)) = true ->
      snd (fst (V1.is_name cfg word context position us asep skip)) = 999
      \/ V1.threshold cfg
         <= snd (fst (V1.is_name cfg word context position us asep skip))).
Proof.
  pose proof (score_word_details cfg word context position us asep) as Hs.
  split; [|split; [exact Hs|]]; unfold V1.is_name;
    destruct (mem word (V1.known_names cfg));
    try (cbn; auto; fail);
    destruct (V1.is_strongly_excluded cfg word);
    try (cbn; auto; discriminate);
    destruct (mem word (V1.exclude_names cfg) && _);
    try (cbn; auto; discriminate);
    destruct (V1.require_strong_signal cfg && negb skip && _);
    try (cbn; auto; discriminate);
    destruct (V1.score_word cfg word context position us asep) as [sc det];
    cbn [fst snd] in *; [exact Hs|].
  intros H. right. apply Z.leb_le. exact H.
Qed.

(** X16: in the legacy implementation, with strong signals required and
    not skipped, a word of fewer than two characters that is not
    allow-listed is never accepted. *)
Theorem legacy_single_character (cfg : V1.NameGuardConfig)
    (word context : str) (position : Z) (us asep : bool) :
  V1.require_strong_signal cfg = true ->
  len word < 2 ->
  ~ In word (V1.known_names cfg) ->
  V1.has_strong_signal cfg word context us asep false = false
  /\ fst (fst (V1.is_name cfg word context position us asep false)) = false.
Proof.
  intros Hreq Hlen Hk.
  assert (Hss : V1.has_strong_signal cfg word context us asep false = false).
  { unfold V1.has_strong_signal.
    assert (E2 : (2 <=? len word) = false) by (apply Z.leb_gt; exact Hlen).
    rewrite (existsb_ext_eq _ (fun _ => false)).
    - assert (Hf : forall l : list str, existsb (fun _ => false) l = false)
        by (induction l; simpl; auto).
      rewrite Hf. unfold in_2_3. rewrite E2. reflexivity.
    - intros pattern. rewrite E2, andb_false_r. reflexivity. }
  split; [exact Hss|].
  unfold V1.is_name.
  destruct (mem word (V1.known_names cfg)) eqn:E1;
    [apply mem_In in E1; contradiction|].
  destruct (V1.is_strongly_excluded cfg word); [reflexivity|].
  destruct (mem word (V1.exclude_names cfg) && _); [reflexivity|].
  rewrite Hreq, Hss. reflexivity.
Qed.

Lemma legacy_single_character_witness :
  V1.require_strong_signal v1_allow_deny_config = true
  /\ len [24179] < 2
  /\ fst (fst (V1.is_name v1_allow_deny_config [24179] [24179; 23433] 0
                          true false false)) = false.
Proof.
  assert (H1 : V1.require_strong_signal v1_allow_deny_config = true)
    by reflexivity.
  assert (H2 : len [24179] < 2) by (unfold len; simpl; lia).
  assert (H3 : ~ In [24179] (V1.known_names v1_allow_deny_config)).
  { simpl. intros [H|[]]. discriminate H. }
  split; [exact H1|]. split; [exact H2|].
  exact (proj2 (legacy_single_character v1_allow_deny_config [24179]
                  [24179; 23433] 0 true false H1 H2 H3)).
Defined.

(** ** First-seen order *)

Lemma parts_loop_names_prefix (cfg : NameGuardConfig) (text : str)
    (parts : list str) :
  forall part_idx st,
  exists rest,
    all_names (parts_loop cfg text parts part_idx st) = all_names st ++ rest.
Proof.
  induction parts as [|part parts IH]; intros part_idx st; cbn [parts_loop].
  - exists []. rewrite app_nil_r. reflexivity.
  - destruct (IH (part_idx + 1) (process_part cfg text part_idx part st))
      as (rest & Hrest).
    destruct (process_part_names cfg text part_idx part st)
      as ((rest0 & Hrest0 & _) & _).
    exists (rest0 ++ rest). rewrite Hrest, Hrest0, <- app_assoc. reflexivity.
Qed.

(** X15: the name list only grows at its end: the names found in the first
    [k] parts are an initial stretch of the list the call returns, so a name
    keeps the position, and with it the placeholder index, it got when it
    was first seen. *)
Theorem names_keep_first_seen_order (cfg : NameGuardConfig)
    (text sep_marker out : str) (nm : list (str * str)) (names : list str)
    (parts : list str) (k : nat) :
  extract_and_replace_names cfg text sep_marker = Some (out, nm, names) ->
  split text sep_marker = Some parts ->
  exists rest,
    names = all_names (locals_before cfg text parts k) ++ rest
    /\ name_index (locals_before cfg text parts k)
       = len (all_names (locals_before cfg text parts k)).
Proof.
  intros Hex Hsp. unfold extract_and_replace_names in Hex.
  rewrite Hsp in Hex. injection Hex as _ _ <-.
  assert (E : parts_loop cfg text parts 0 initial_locals
              = parts_loop cfg text (skipn k parts)
                  (0 + len (firstn k parts))
                  (locals_before cfg text parts k)).
  { unfold locals_before. rewrite <- parts_loop_app, firstn_skipn.
    reflexivity. }
  rewrite E.
  destruct (parts_loop_names_prefix cfg text (skipn k parts)
              (0 + len (firstn k parts)) (locals_before cfg text parts k))
    as (rest & Hrest).
  exists rest. split; [exact Hrest|].
  unfold locals_before.
  exact (proj1 (proj1 (parts_loop_ok cfg text (firstn k parts) 0
                         initial_locals (proj1 (initial_locals_ok cfg))))).
Qed.

Lemma names_keep_first_seen_order_witness :
  exists rest,
    [[29579]; [24179]]
    = all_names (locals_before honorific_config
                   ([32769; 29579] ++ sep_default ++ [23567; 24179])
                   [[32769; 29579]; [23567; 24179]] 1) ++ rest.
Proof.
  assert (Hrun : extract_and_replace_names honorific_config
                   ([32769; 29579] ++ sep_default ++ [23567; 24179])
                   sep_default
                 = Some ([32769] ++ default_format 0 ++ sep_default
                         ++ [23567] ++ default_format 1,
                         [(default_format 0, [29579]);
                          (default_format 1, [24179])],
                         [[29579]; [24179]]))
    by (vm_compute; reflexivity).
  assert (Hsp : split ([32769; 29579] ++ sep_default ++ [23567; 24179])
                      sep_default
                = Some [[32769; 29579]; [23567; 24179]])
    by (vm_compute; reflexivity).
  destruct (names_keep_first_seen_order honorific_config _ _ _ _ _ _ 1%nat
              Hrun Hsp) as (rest & Hrest & _).
  exists rest. exact Hrest.
Defined.

(** ** What gate 1 keeps out of the names *)

Lemma existsb_false_forall {A : Type} (f : A -> bool) (l : list A) :
  existsb f l = false -> forall x, In x l -> f x = false.
Proof.
  intros H x Hx. destruct (f x) eqn:E; [|reflexivity].
  assert (existsb f l = true) by (apply existsb_exists; eauto). congruence.
Qed.

Lemma not_excluded_contents (cfg : NameGuardConfig) (word : str) :
  is_strongly_excluded cfg word = false ->
  ~ In word (interjections cfg)
  /\ ~ In word (kinship_roles cfg)
  /\ (forall p, In p (pronouns cfg) \/ In p (numbers_quantifiers cfg) ->
                ~ occurs p word)
  /\ (forall i, In i (interjections cfg) -> 2 <= len i -> ~ occurs i word)
  /\ (2 <= len word ->
      forall v, In v (action_verbs cfg) -> startswith word v = false).
Proof.
  unfold is_strongly_excluded.
  destruct (mem word (interjections cfg)) eqn:E1; [discriminate|].
  destruct (existsb (fun intj => (2 <=? len intj) && contains word intj)
                    (interjections cfg)) eqn:E2; [discriminate|].
  destruct ((2 <=? len word)
            && existsb (fun verb => startswith word verb) (action_verbs cfg))
    eqn:E3; [discriminate|].
  destruct (existsb (fun pronoun => contains word pronoun) (pronouns cfg))
    eqn:E4; [discriminate|].
  destruct (existsb (fun num => contains word num) (numbers_quantifiers cfg))
    eqn:E5; [discriminate|].
  destruct (mem word (kinship_roles cfg)) eqn:E6; [discriminate|].
  intros _.
  split; [intros H; apply mem_In in H; congruence|].
  split; [intros H; apply mem_In in H; congruence|].
  split; [|split].
  - intros p [Hp|Hp] Ho; apply contains_occurs in Ho.
    + pose proof (existsb_false_forall _ _ E4 p Hp) as H. simpl in H.
      congruence.
    + pose proof (existsb_false_forall _ _ E5 p Hp) as H. simpl in H.
      congruence.
  - intros i Hi Hl Ho. apply contains_occurs in Ho.
    pose proof (existsb_false_forall _ _ E2 i Hi) as H. simpl in H.
    apply Z.leb_le in Hl. rewrite Hl, Ho in H. discriminate H.
  - intros Hl v Hv. apply Z.leb_le in Hl. rewrite Hl in E3. simpl in E3.
    exact (existsb_false_forall _ _ E3 v Hv).
Qed.

(** X17: unless it is allow-listed, no name the call returns is an
    interjection or a kinship role, contains a configured pronoun, number or
    quantifier or an interjection of two or more characters, or, having two
    or more characters itself, starts with a configured action verb. *)
Theorem names_pass_gate_one (cfg : NameGuardConfig)
    (text sep_marker out : str) (nm : list (str * str)) (names : list str)
    (n : str) :
  extract_and_replace_names cfg text sep_marker = Some (out, nm, names) ->
  In n names ->
  ~ In n (known_names cfg) ->
  ~ In n (interjections cfg)
  /\ ~ In n (kinship_roles cfg)
  /\ (forall p, In p (pronouns cfg) \/ In p (numbers_quantifiers cfg) ->
                ~ occurs p n)
  /\ (forall i, In i (interjections cfg) -> 2 <= len i -> ~ occurs i n)
  /\ (2 <= len n ->
      forall v, In v (action_verbs cfg) -> startswith n v = false).
Proof.
  intros Hex Hn Hk. unfold extract_and_replace_names in Hex.
  destruct (split text sep_marker) as [parts|] eqn:Hsp; [|discriminate].
  injection Hex as _ _ <-.
  set (Q := fun n : str =>
              In n (known_names cfg) \/ is_strongly_excluded cfg n = false).
  assert (Hsel : forall part part_idx st c,
             In part parts -> In c (selected_of cfg text part_idx part st) ->
             Q (name c)).
  { intros part part_idx st c _ Hc. unfold selected_of in Hc.
    apply select_non_overlapping_In in Hc.
    pose proof (extract_candidates_accepted cfg part text (part_idx =? 0)
                  (cache_ st)) as Ha.
    rewrite Forall_forall in Ha.
    destruct (Ha c Hc) as (_ & _ & [[K _]|(_ & E & _)]); [left|right]; auto. }
  destruct (parts_loop_names cfg text Q parts Hsel 0 initial_locals)
    as [H1 _]; [intros x []|intros p x []|].
  destruct (H1 n Hn) as [H|H]; [contradiction|].
  apply not_excluded_contents. exact H.
Qed.

Lemma names_pass_gate_one_witness :
  extract_and_replace_names honorific_config [24179; 23433; 21733] sep_default
  = Some (default_format 0 ++ [21733], [(default_format 0, [24179; 23433])],
          [[24179; 23433]])
  /\ ~ In [24179; 23433] (known_names honorific_config)
  /\ ~ In [24179; 23433] (interjections honorific_config)
  /\ ~ In [24179; 23433] (kinship_roles honorific_config).
Proof.
  assert (Hrun : extract_and_replace_names honorific_config
                   [24179; 23433; 21733] sep_default
                 = Some (default_format 0 ++ [21733],
                         [(default_format 0, [24179; 23433])],
                         [[24179; 23433]]))
    by (vm_compute; reflexivity).
  assert (Hk : ~ In [24179; 23433] (known_names honorific_config))
    by (simpl; tauto).
  split; [exact Hrun|]. split; [exact Hk|].
  destruct (names_pass_gate_one honorific_config _ _ _ _ _ [24179; 23433]
              Hrun (or_introl eq_refl) Hk) as (H1 & H2 & _).
  split; [exact H1 | exact H2].
Defined.

Lemma legacy_score_is_sum_of_details_witness :
  fst (fst (V1.is_name v1_allow_deny_config [29579] [29579] 0
                       true false false)) = true
  /\ (snd (fst (V1.is_name v1_allow_deny_config [29579] [29579] 0
                           true false false)) = 999
      \/ V1.threshold v1_allow_deny_config
         <= snd (fst (V1.is_name v1_allow_deny_config [29579] [29579] 0
                                 true false false))).
Proof.
  assert (H : fst (fst (V1.is_name v1_allow_deny_config [29579] [29579] 0
                          true false false)) = true) by reflexivity.
  split; [exact H|].
  exact (proj2 (proj2 (legacy_score_is_sum_of_details v1_allow_deny_config
                         [29579] [29579] 0 true false false)) H).
Defined.

(** ** The legacy extraction *)

Lemma v1_finditer_n_no_cjk (n : nat) (s : str) :
  (1 <= n)%nat -> Forall (fun c => is_cjk c = false) s ->
  forall pos skip, V1.finditer_n n s pos skip = [].
Proof.
  intros Hn. induction 1 as [|c s Hc Hs IH]; intros pos skip;
    cbn [V1.finditer_n]; [reflexivity|].
  destruct skip as [|k]; [|apply IH].
  assert (E : V1.cjk_window n (c :: s) = false).
  { unfold V1.cjk_window. destruct n as [|m]; [lia|].
    cbn [firstn forallb]. rewrite Hc. simpl. apply andb_false_r. }
  rewrite E. apply IH.
Qed.

Lemma v1_process_part_no_cjk (cfg : V1.NameGuardConfig) (text : str)
    (part_idx : Z) (part : str) (st : V1.Locals) :
  Forall (fun c => is_cjk c = false) part ->
  V1.process_part cfg text part_idx part st
  = {| V1.name_map := V1.name_map st;
       V1.name_to_placeholder := V1.name_to_placeholder st;
       V1.name_index := V1.name_index st;
       V1.replaced_parts := V1.replaced_parts st ++ [part] |}.
Proof.
  intros H. unfold V1.process_part, V1.collect_candidates, V1.first_round,
    V1.second_round.
  cbn [fold_left]. rewrite !v1_finditer_n_no_cjk by (lia || assumption).
  reflexivity.
Qed.

Lemma v1_parts_loop_no_cjk (cfg : V1.NameGuardConfig) (text : str)
    (parts : list str) :
  Forall (Forall (fun c => is_cjk c = false)) parts ->
  forall part_idx st,
    V1.parts_loop cfg text parts part_idx st
    = {| V1.name_map := V1.name_map st;
         V1.name_to_placeholder := V1.name_to_placeholder st;
         V1.name_index := V1.name_index st;
         V1.replaced_parts := V1.replaced_parts st ++ parts |}.
Proof.
  induction 1 as [|part parts Hp Hps IH]; intros part_idx st; simpl.
  - rewrite app_nil_r. destruct st; reflexivity.
  - rewrite IH, v1_process_part_no_cjk by assumption. simpl.
    rewrite <- app_assoc. reflexivity.
Qed.

Lemma v1_exn_assign_loop_agrees (cfg : V1.NameGuardConfig)
    (candidates : list V1.candidate) :
  forall acc,
    V1.Exn.assign_loop (v1_template_of cfg) candidates acc
    = Some (fold_left (V1.assign_placeholder cfg) candidates acc).
Proof.
  induction candidates as [|c cs IH]; intros [[st rs] pr];
    cbn [V1.Exn.assign_loop fold_left]; [reflexivity|].
  assert (E : V1.Exn.assign_placeholder (v1_template_of cfg) (st, rs, pr) c
              = Some (V1.assign_placeholder cfg (st, rs, pr) c)).
  { unfold V1.Exn.assign_placeholder, V1.assign_placeholder, v1_template_of.
    destruct c as [[[[[word s] e] sc] hs] idx].
    destruct (dict_get (V1.name_to_placeholder st) word); reflexivity. }
  rewrite E. apply IH.
Qed.

Lemma v1_exn_parts_loop_agrees (cfg : V1.NameGuardConfig) (text : str)
    (parts : list str) :
  forall part_idx st,
    V1.Exn.parts_loop (v1_template_of cfg) cfg text parts part_idx st
    = Some (V1.parts_loop cfg text parts part_idx st).
Proof.
  induction parts as [|part parts IH]; intros part_idx st;
    cbn [V1.Exn.parts_loop V1.parts_loop]; [reflexivity|].
  assert (E : V1.Exn.process_part (v1_template_of cfg) cfg text part_idx
                                  part st
              = Some (V1.process_part cfg text part_idx part st)).
  { unfold V1.Exn.process_part, V1.process_part.
    destruct (V1.collect_candidates cfg text part_idx part)
      as [cands processed].
    rewrite v1_exn_assign_loop_agrees.
    destruct (fold_left (V1.assign_placeholder cfg)
                (V1.sort_candidates cands) _) as [[st1 rs] pr].
    reflexivity. }
  rewrite E. apply IH.
Qed.

(** With the template whose rendering the configuration holds, the legacy
    loops of [V1.Exn] are the loops over the rendering. *)
Lemma v1_exn_agrees (cfg : V1.NameGuardConfig) (text sep_marker : str) :
  V1.Exn.extract_and_replace_names (v1_template_of cfg) cfg text sep_marker
  = V1.extract_and_replace_names cfg text sep_marker.
Proof.
  unfold V1.Exn.extract_and_replace_names, V1.extract_and_replace_names.
  destruct (split text sep_marker) as [parts|]; [|reflexivity].
  rewrite v1_exn_parts_loop_agrees. reflexivity.
Qed.

Lemma v1_exn_assign_loop_total (t : template)
    (candidates : list V1.candidate) :
  (forall i, 0 <= i -> t i <> None) ->
  forall acc,
    0 <= V1.name_index (fst (fst acc)) ->
    exists acc', V1.Exn.assign_loop t candidates acc = Some acc'
                 /\ 0 <= V1.name_index (fst (fst acc')).
Proof.
  intros Ht. induction candidates as [|c cs IH]; intros [[st rs] pr] Hidx;
    cbn [V1.Exn.assign_loop].
  - exists (st, rs, pr). auto.
  - cbn [fst] in Hidx. unfold V1.Exn.assign_placeholder.
    destruct c as [[[[[word s] e] sc] hs] idx].
    destruct (dict_get (V1.name_to_placeholder st) word).
    + apply IH. exact Hidx.
    + destruct (t (V1.name_index st)) as [p|] eqn:E;
        [|exfalso; exact (Ht _ Hidx E)].
      apply IH. cbn [fst V1.name_index]. lia.
Qed.

Lemma v1_exn_parts_loop_total (t : template) (cfg : V1.NameGuardConfig)
    (text : str) (parts : list str) :
  (forall i, 0 <= i -> t i <> None) ->
  forall part_idx st,
    0 <= V1.name_index st ->
    exists st', V1.Exn.parts_loop t cfg text parts part_idx st = Some st'.
Proof.
  intros Ht. induction parts as [|part parts IH]; intros part_idx st Hidx;
    cbn [V1.Exn.parts_loop]; [eauto|].
  unfold V1.Exn.process_part.
  destruct (V1.collect_candidates cfg text part_idx part)
    as [cands processed].
  destruct (v1_exn_assign_loop_total t (V1.sort_candidates cands) Ht
              (st, [], processed) Hidx) as ([[st1 rs] pr] & E & Hidx').
  rewrite E. apply IH. exact Hidx'.
Qed.

Lemma v1_exn_parts_loop_no_cjk (t : template) (cfg : V1.NameGuardConfig)
    (text : str) (parts : list str) :
  Forall (Forall (fun c => is_cjk c = false)) parts ->
  forall part_idx st,
    V1.Exn.parts_loop t cfg text parts part_idx st
    = Some {| V1.name_map := V1.name_map st;
              V1.name_to_placeholder := V1.name_to_placeholder st;
              V1.name_index := V1.name_index st;
              V1.replaced_parts := V1.replaced_parts st ++ parts |}.
Proof.
  induction 1 as [|part parts Hp Hps IH]; intros part_idx st;
    cbn [V1.Exn.parts_loop].
  - rewrite app_nil_r. destruct st; reflexivity.
  - unfold V1.Exn.process_part, V1.collect_candidates, V1.first_round,
      V1.second_round.
    cbn [fold_left]. rewrite !v1_finditer_n_no_cjk by (lia || assumption).
    cbn. rewrite IH. cbn. rewrite <- app_assoc. reflexivity.
Qed.

(** X18: the legacy [extract_and_replace_names] raises on an empty
    separator, in [split], for every text.  With any other separator a text
    without CJK characters, the empty text included, comes back unchanged
    with an empty placeholder map, whatever the placeholder template, which
    is not rendered for it; and with a template that [format] renders at
    every index from 0 on, the call returns a result for every text.  A
    template that [format] rejects makes it raise as soon as a name is to
    be replaced, as for 平安，平安哥哥 with the suffix 哥. *)
Theorem legacy_degenerate_inputs (t : template) (cfg : V1.NameGuardConfig)
    (text sep_marker : str) :
  (sep_marker = [] ->
   V1.Exn.extract_and_replace_names t cfg text sep_marker = None)
  /\ (sep_marker <> [] ->
      Forall (fun c => is_cjk c = false) text ->
      V1.Exn.extract_and_replace_names t cfg text sep_marker
      = Some (text, []))
  /\ (sep_marker <> [] ->
      (forall i, 0 <= i -> t i <> None) ->
      exists result,
        V1.Exn.extract_and_replace_names t cfg text sep_marker
        = Some result)
  /\ V1.Exn.extract_and_replace_names raising_template v1_honorific_config
       [24179; 23433; 65292; 24179; 23433; 21733; 21733] sep_default
     = None.
Proof.
  assert (Hsplit : sep_marker <> [] ->
                   split text sep_marker
                   = Some (split_from text sep_marker [] 0)).
  { intros Hsep. unfold split.
    destruct sep_marker; [congruence | reflexivity]. }
  split; [|split; [|split]].
  - intros ->. reflexivity.
  - intros Hsep Ht. unfold V1.Exn.extract_and_replace_names.
    rewrite (Hsplit Hsep).
    assert (Hparts : Forall (Forall (fun c => is_cjk c = false))
                            (split_from text sep_marker [] 0))
      by (apply split_from_chars; [assumption | constructor]).
    rewrite v1_exn_parts_loop_no_cjk by assumption. cbn.
    rewrite (split_join text sep_marker _ (Hsplit Hsep)). reflexivity.
  - intros Hsep Ht. unfold V1.Exn.extract_and_replace_names.
    rewrite (Hsplit Hsep).
    match goal with
    | |- context [V1.Exn.parts_loop t cfg text ?ps 0 ?st0] =>
        destruct (v1_exn_parts_loop_total t cfg text ps Ht 0 st0)
          as (st' & E); [cbn; lia|]
    end.
    rewrite E. eauto.
  - vm_compute. reflexivity.
Qed.

Lemma legacy_degenerate_inputs_witness :
  V1.Exn.extract_and_replace_names raising_template v1_honorific_config
    ([104; 105] ++ sep_default ++ [111; 107]) []
  = None
  /\ V1.Exn.extract_and_replace_names raising_template v1_honorific_config
       ([104; 105] ++ sep_default ++ [111; 107]) sep_default
     = Some ([104; 105] ++ sep_default ++ [111; 107], [])
  /\ exists result,
       V1.Exn.extract_and_replace_names (v1_template_of v1_honorific_config)
         v1_honorific_config
         [24179; 23433; 65292; 24179; 23433; 21733; 21733] sep_default
       = Some result.
Proof.
  assert (Hsep : sep_default <> []) by discriminate.
  destruct (legacy_degenerate_inputs raising_template v1_honorific_config
              ([104; 105] ++ sep_default ++ [111; 107]) [])
    as (H1 & _).
  destruct (legacy_degenerate_inputs raising_template v1_honorific_config
              ([104; 105] ++ sep_default ++ [111; 107]) sep_default)
    as (_ & H2 & _).
  destruct (legacy_degenerate_inputs (v1_template_of v1_honorific_config)
              v1_honorific_config
              [24179; 23433; 65292; 24179; 23433; 21733; 21733] sep_default)
    as (_ & _ & H3 & _).
  split; [exact (H1 eq_refl)|]. split.
  - apply (H2 Hsep). repeat constructor.
  - apply (H3 Hsep). intros i _. discriminate.
Defined.

Lemma endswith_app (w p : str) : endswith w p = true <-> exists t, w = t ++ p.
Proof.
  unfold endswith. rewrite startswith_app. split.
  - intros [t H]. exists (rev t).
    rewrite <- (rev_involutive w), H, rev_app_distr, rev_involutive.
    reflexivity.
  - intros [t ->]. exists (rev t). apply rev_app_distr.
Qed.

Lemma forallb_cjk (w : str) :
  forallb is_cjk w = true -> Forall (fun c => is_cjk c = true) w.
Proof. intros H. apply Forall_forall. apply forallb_forall. exact H. Qed.

(** Every window of [finditer_n] is a run of [n] CJK characters standing in
    the string at the offset reported. *)
Lemma v1_finditer_n_spec (n : nat) (s : str) :
  forall pos skip p w,
    In (p, w) (V1.finditer_n n s pos skip) ->
    exists k : nat,
      p = pos + Z.of_nat k /\ w = firstn n (skipn k s)
      /\ (k + n <= length s)%nat
      /\ Forall (fun c => is_cjk c = true) w.
Proof.
  induction s as [|c s IH]; intros pos skip p w; cbn [V1.finditer_n];
    [intros []|].
  assert (Hrec : forall sk, In (p, w) (V1.finditer_n n s (pos + 1) sk) ->
             exists k : nat,
               p = pos + Z.of_nat k /\ w = firstn n (skipn k (c :: s))
               /\ (k + n <= length (c :: s))%nat
               /\ Forall (fun c => is_cjk c = true) w).
  { intros sk H. destruct (IH _ _ _ _ H) as (k & -> & -> & Hk & Hc).
    exists (S k). split; [lia|]. split; [reflexivity|].
    split; [simpl; lia | exact Hc]. }
  destruct skip as [|sk]; [|apply Hrec].
  destruct (V1.cjk_window n (c :: s)) eqn:E; [|apply Hrec].
  intros [H|H]; [|eapply Hrec; exact H].
  injection H as <- <-. unfold V1.cjk_window in E.
  apply andb_true_iff in E. destruct E as [E1 E2].
  apply Nat.leb_le in E1.
  exists 0%nat. split; [lia|]. split; [reflexivity|].
  split; [lia | apply forallb_cjk; exact E2].
Qed.

Lemma v1_window_at (n : nat) (part : str) (p : Z) (w : str) :
  In (p, w) (V1.finditer_n n part 0 0) ->
  exists k : nat, p = Z.of_nat k /\ at_offset part k w /\ length w = n
                  /\ Forall (fun c => is_cjk c = true) w.
Proof.
  intros H. apply v1_finditer_n_spec in H.
  destruct H as (k & -> & -> & Hk & Hc).
  exists k. split; [lia|]. split; [|split; [|exact Hc]].
  - exists (firstn k part), (skipn n (skipn k part)). split.
    + rewrite firstn_skipn, firstn_skipn. reflexivity.
    + apply firstn_length_le. lia.
  - apply firstn_length_le. rewrite length_skipn. lia.
Qed.

Lemma v1_is_name_accepts (cfg : V1.NameGuardConfig) (word context : str)
    (position : Z) (us asep skip : bool) :
  fst (fst (V1.is_name cfg word context position us asep skip)) = true ->
  v1_passes_gates cfg word.
Proof.
  unfold V1.is_name, v1_passes_gates.
  destruct (mem word (V1.known_names cfg)) eqn:Ek;
    [intros _; left; apply mem_In; exact Ek|].
  destruct (V1.is_strongly_excluded cfg word); [discriminate|].
  rewrite andb_true_r.
  destruct (mem word (V1.exclude_names cfg)) eqn:Ee; [discriminate|].
  intros _. right. split; [reflexivity|].
  intros Hin. apply mem_In in Hin. congruence.
Qed.

(** What one step of the first round does: nothing, or it appends a
    candidate with [has_suffix] set whose word is what stands in the window
    before a configured, non-empty suffix, and has passed [is_name]. *)
Lemma v1_first_round_visit_spec (cfg : V1.NameGuardConfig) (text : str)
    (part_idx : Z) (st : V1.round_state) (start_pos : Z) (word : str) :
  fst (V1.first_round_visit cfg text part_idx st (start_pos, word)) = fst st
  \/ exists name_part pattern sc,
       word = name_part ++ pattern /\ name_part <> [] /\ pattern <> []
       /\ In pattern (V1.honorific_suffix_patterns cfg)
       /\ v1_passes_gates cfg name_part
       /\ fst (V1.first_round_visit cfg text part_idx st (start_pos, word))
          = fst st ++ [(name_part, start_pos, start_pos + len name_part, sc,
                        true, part_idx)].
Proof.
  destruct st as [candidates processed]. unfold V1.first_round_visit.
  destruct (find _ (V1.honorific_suffix_patterns cfg)) as [pattern|] eqn:Ef;
    [|left; reflexivity].
  apply find_some in Ef. destruct Ef as [Hin He].
  apply endswith_app in He. destruct He as [t ->].
  assert (Hn : slice_to (t ++ pattern) (- len pattern)
               = match pattern with [] => [] | _ => t end).
  { unfold slice_to, norm_index. destruct pattern as [|c p].
    - reflexivity.
    - assert (E : (- len (c :: p) <? 0) = true)
        by (apply Z.ltb_lt; unfold len; simpl length; lia).
      rewrite E. rewrite len_app.
      replace (Z.to_nat (Z.max 0 (len t + len (c :: p) + - len (c :: p))))
        with (length t) by (unfold len; lia).
      rewrite firstn_app, firstn_all, Nat.sub_diag. simpl.
      apply app_nil_r. }
  rewrite Hn. destruct pattern as [|c p]; [left; reflexivity|].
  destruct t as [|x t]; [left; reflexivity|].
  pose proof (v1_is_name_accepts cfg (x :: t) text start_pos
                ((part_idx =? 0) && (start_pos =? 0))
                ((part_idx >? 0) && (start_pos =? 0)) true) as Hacc.
  destruct (V1.is_name cfg (x :: t) text start_pos _ _ true)
    as [[b sc] scores].
  destruct b; [|left; reflexivity].
  right. exists (x :: t), (c :: p), sc.
  split; [reflexivity|]. split; [discriminate|]. split; [discriminate|].
  split; [exact Hin|]. split; [apply Hacc; reflexivity | reflexivity].
Qed.

(** What one step of the second round does: nothing, or it appends a
    candidate with [has_suffix] unset for the window itself, which has
    passed [is_name] and overlaps none of the candidates collected before. *)
Lemma v1_second_round_visit_spec (cfg : V1.NameGuardConfig) (text : str)
    (part_idx : Z) (part : str) (st : V1.round_state) (start_pos : Z)
    (word : str) :
  V1.second_round_visit cfg text part_idx part st (start_pos, word) = st
  \/ exists sc,
       Forall (fun c => v1_disjoint c
                          (word, start_pos, start_pos + len word, sc, false,
                           part_idx))
              (fst st)
       /\ v1_passes_gates cfg word
       /\ fst (V1.second_round_visit cfg text part_idx part st
                                     (start_pos, word))
          = fst st ++ [(word, start_pos, start_pos + len word, sc, false,
                        part_idx)].
Proof.
  destruct st as [candidates processed]. unfold V1.second_round_visit.
  destruct (existsb _ candidates) eqn:Eo; [left; reflexivity|].
  destruct (existsb _ (V1.honorific_suffix_patterns cfg));
    [left; reflexivity|].
  destruct (negb _ && negb _); [left; reflexivity|].
  pose proof (v1_is_name_accepts cfg word text start_pos
                ((part_idx =? 0) && (start_pos =? 0))
                ((part_idx >? 0) && (start_pos =? 0)) false) as Hacc.
  destruct (V1.is_name cfg word text start_pos _ _ false) as [[b sc] scores].
  destruct b; [|left; reflexivity].
  right. exists sc. split; [|split; [apply Hacc; reflexivity | reflexivity]].
  cbn [fst]. apply Forall_forall. intros [[[[[w s] e] sc'] hs] idx] Hin.
  pose proof (existsb_false_forall _ _ Eo _ Hin) as H. cbn in H.
  apply andb_false_iff in H. rewrite Z.gtb_ltb, !Z.ltb_ge in H.
  unfold v1_disjoint. lia.
Qed.

(** The two rounds as an invariant in two phases: a property that every
    step of the first round keeps, and that hands over to a property every
    step of the second round keeps, ends with the latter holding of the
    collected candidates. *)
Lemma v1_collect_invariant (cfg : V1.NameGuardConfig) (text : str)
    (part_idx : Z) (part : str) (P1 P2 : list V1.candidate -> Prop) :
  P1 [] ->
  (forall st n p w, (3 <= n <= 4)%nat ->
     In (p, w) (V1.finditer_n n part 0 0) -> P1 (fst st) ->
     P1 (fst (V1.first_round_visit cfg text part_idx st (p, w)))) ->
  (forall l, P1 l -> P2 l) ->
  (forall st n p w, (1 <= n <= 3)%nat ->
     In (p, w) (V1.finditer_n n part 0 0) -> P2 (fst st) ->
     P2 (fst (V1.second_round_visit cfg text part_idx part st (p, w)))) ->
  P2 (fst (V1.collect_candidates cfg text part_idx part)).
Proof.
  intros H0 H1 H12 H2. unfold V1.collect_candidates.
  assert (Hin : forall (P : list V1.candidate -> Prop)
                  (f : V1.round_state -> Z * str -> V1.round_state)
                  (l : list (Z * str)),
             (forall st m, In m l -> P (fst st) -> P (fst (f st m))) ->
             forall st, P (fst st) -> P (fst (fold_left f l st))).
  { intros P f l. induction l as [|m l IH]; intros Hf st Hst; [exact Hst|].
    simpl. apply IH.
    - intros st' m' Hm. apply Hf. right. exact Hm.
    - apply Hf; [left; reflexivity | exact Hst]. }
  unfold V1.second_round, V1.first_round. cbn [fold_left].
  do 3 (apply (Hin P2); [intros st [p w] Hm Hst;
                         eapply H2; [|exact Hm|exact Hst]; lia|]).
  apply H12.
  do 2 (apply (Hin P1); [intros st [p w] Hm Hst;
                         eapply H1; [|exact Hm|exact Hst]; lia|]).
  exact H0.
Qed.

(** Every candidate of either round lies where its window lies. *)
Lemma v1_collect_ok (cfg : V1.NameGuardConfig) (text : str)
    (part_idx : Z) (part : str) :
  Forall (v1_collected_ok cfg part_idx part)
         (fst (V1.collect_candidates cfg text part_idx part)).
Proof.
  apply (v1_collect_invariant cfg text part_idx part
           (Forall (v1_collected_ok cfg part_idx part))
           (Forall (v1_collected_ok cfg part_idx part))).
  - constructor.
  - intros st n p w Hn Hm Hst.
    destruct (v1_window_at _ _ _ _ Hm) as (k & -> & Hat & Hlen & Hc).
    destruct (v1_first_round_visit_spec cfg text part_idx st (Z.of_nat k) w)
      as [->|(nm & pat & sc & -> & Hnm & Hpat & Hin & Hacc & ->)];
      [exact Hst|].
    apply Forall_app. split; [exact Hst|]. constructor; [|constructor].
    assert (Hat1 : at_offset part k nm)
      by (apply (at_offset_inside part k [] nm pat) in Hat;
          rewrite Nat.add_0_r in Hat; exact Hat).
    assert (Hat2 : at_offset part (k + length nm) pat)
      by (apply (at_offset_inside part k nm pat []);
          rewrite app_nil_r; exact Hat).
    pose proof (at_offset_bound _ _ _ Hat1) as Hb.
    rewrite length_app in Hlen.
    assert (Hl1 : (1 <= length nm)%nat)
      by (destruct nm; [congruence|simpl; lia]).
    assert (Hl2 : (1 <= length pat)%nat)
      by (destruct pat; [congruence|simpl; lia]).
    apply Forall_app in Hc. destruct Hc as [Hc _].
    split; [|split; [reflexivity|split; [|exact Hacc]]].
    + unfold v1_candidate_ok. unfold len in *.
      split; [lia|]. split; [lia|]. split; [lia|].
      split; [apply slice_at_offset; exact Hat1|].
      split; [exact Hc | lia].
    + unfold v1_suffix_follows. intros _. exists pat.
      split; [exact Hin|]. split; [exact Hpat|].
      replace (Z.of_nat k + len nm) with (Z.of_nat (k + length nm))
        by (unfold len; lia).
      apply slice_at_offset. exact Hat2.
  - intros l Hl. exact Hl.
  - intros st n p w Hn Hm Hst.
    destruct (v1_window_at _ _ _ _ Hm) as (k & -> & Hat & Hlen & Hc).
    destruct (v1_second_round_visit_spec cfg text part_idx part st
                (Z.of_nat k) w) as [->|(sc & _ & Hacc & ->)]; [exact Hst|].
    apply Forall_app. split; [exact Hst|]. constructor; [|constructor].
    pose proof (at_offset_bound _ _ _ Hat) as Hb.
    split; [|split; [reflexivity|split; [|exact Hacc]]].
    + unfold v1_candidate_ok. unfold len in *.
      split; [lia|]. split; [lia|]. split; [lia|].
      split; [apply slice_at_offset; exact Hat|].
      split; [exact Hc | lia].
    + unfold v1_suffix_follows. discriminate.
Qed.

(** X19: every candidate the legacy extraction collects for a part spans a
    non-empty range of that part which holds exactly its word, a word of one
    to three CJK characters; it carries the index of the part; a candidate
    found through a suffix is followed in the part, right after its span, by
    a configured suffix; and its word is allow-listed or else neither
    strongly excluded nor deny-listed. *)
Theorem legacy_candidates_in_range (cfg : V1.NameGuardConfig) (text : str)
    (part_idx : Z) (part : str) (c : V1.candidate) :
  In c (fst (V1.collect_candidates cfg text part_idx part)) ->
  v1_candidate_ok part c /\ v1_part_idx c = part_idx
  /\ v1_suffix_follows cfg part c /\ v1_passes_gates cfg (v1_word c).
Proof.
  intros Hin.
  pose proof (v1_collect_ok cfg text part_idx part) as H.
  rewrite Forall_forall in H. exact (H c Hin).
Qed.

Lemma legacy_candidates_in_range_witness :
  v1_candidate_ok [24179; 23433; 65292; 24179; 23433; 21733; 21733]
    ([24179; 23433; 21733], 3, 6, 110, true, 0)
  /\ v1_part_idx ([24179; 23433; 21733], 3, 6, 110, true, 0) = 0
  /\ v1_suffix_follows v1_honorific_config
       [24179; 23433; 65292; 24179; 23433; 21733; 21733]
       ([24179; 23433; 21733], 3, 6, 110, true, 0)
  /\ v1_passes_gates v1_honorific_config
       (v1_word ([24179; 23433; 21733], 3, 6, 110, true, 0)).
Proof.
  apply (legacy_candidates_in_range v1_honorific_config
           [24179; 23433; 65292; 24179; 23433; 21733; 21733] 0
           [24179; 23433; 65292; 24179; 23433; 21733; 21733]).
  vm_compute. left. reflexivity.
Defined.

Lemma v1_disjoint_sym (c d : V1.candidate) :
  v1_disjoint c d -> v1_disjoint d c.
Proof.
  destruct c as [[[[[w1 s1] e1] sc1] h1] i1].
  destruct d as [[[[[w2 s2] e2] sc2] h2] i2].
  unfold v1_disjoint. tauto.
Qed.

(** After the two rounds no candidate found without a suffix overlaps a
    candidate that stands before it in the list, and none stands before a
    candidate found through a suffix. *)
Lemma v1_collect_order (cfg : V1.NameGuardConfig) (text : str)
    (part_idx : Z) (part : str) :
  let cands := fst (V1.collect_candidates cfg text part_idx part) in
  ForallOrdPairs (fun c d => v1_has_suffix d = false -> v1_disjoint c d)
                 cands
  /\ ForallOrdPairs
       (fun c d => v1_has_suffix c = false -> v1_has_suffix d = false) cands.
Proof.
  apply (v1_collect_invariant cfg text part_idx part
           (Forall (fun c => v1_has_suffix c = true))
           (fun l =>
              ForallOrdPairs
                (fun c d => v1_has_suffix d = false -> v1_disjoint c d) l
              /\ ForallOrdPairs
                   (fun c d => v1_has_suffix c = false
                               -> v1_has_suffix d = false) l)).
  - constructor.
  - intros st n p w _ _ Hst.
    destruct (v1_first_round_visit_spec cfg text part_idx st p w)
      as [->|(nm & pat & sc & _ & _ & _ & _ & _ & ->)]; [exact Hst|].
    apply Forall_app. split; [exact Hst|]. repeat constructor.
  - intros l Hl. induction Hl as [|c l Hc Hl IH].
    + split; constructor.
    + destruct IH as [IH1 IH2]. split.
      * constructor; [|exact IH1].
        eapply Forall_impl; [|exact Hl]. cbn beta. intros d Hd Hd'.
        congruence.
      * constructor; [|exact IH2].
        apply Forall_forall. intros d _ Hc'. congruence.
  - intros st n p w _ _ [Hst1 Hst2].
    destruct (v1_second_round_visit_spec cfg text part_idx part st p w)
      as [->|(sc & Hd & _ & ->)]; [split; assumption|].
    split.
    + apply ForallOrdPairs_snoc; [exact Hst1|].
      eapply Forall_impl; [|exact Hd]. cbn beta. intros c Hc _. exact Hc.
    + apply ForallOrdPairs_snoc; [exact Hst2|].
      apply Forall_forall. intros c _ _. reflexivity.
Qed.

(** X20: among the candidates the legacy extraction collects for a part, a
    candidate found without a suffix (second round) shares no position with
    any other candidate; two candidates found through a suffix (first round)
    are not checked against each other and can overlap, as 平安哥 and 平安
    do in the part 平安哥哥，平安. *)
Theorem legacy_plain_candidates_disjoint (cfg : V1.NameGuardConfig)
    (text : str) (part_idx : Z) (part : str) :
  (forall (i j : nat) (c d : V1.candidate),
     i <> j ->
     nth_error (fst (V1.collect_candidates cfg text part_idx part)) i
     = Some c ->
     nth_error (fst (V1.collect_candidates cfg text part_idx part)) j
     = Some d ->
     v1_has_suffix c = false \/ v1_has_suffix d = false ->
     v1_disjoint c d)
  /\ ~ ForallOrdPairs v1_disjoint
         (fst (V1.collect_candidates v1_honorific_config
                 [24179; 23433; 21733; 21733; 65292; 24179; 23433] 0
                 [24179; 23433; 21733; 21733; 65292; 24179; 23433])).
Proof.
  split.
  - destruct (v1_collect_order cfg text part_idx part) as [H1 H2].
    intros i j c d Hij Hi Hj Hs.
    destruct (Nat.lt_ge_cases i j) as [Hlt|Hge].
    + pose proof (ForallOrdPairs_nth _ _ H1 i j c d Hlt Hi Hj) as Hd.
      pose proof (ForallOrdPairs_nth _ _ H2 i j c d Hlt Hi Hj) as Ho.
      destruct Hs as [Hs|Hs]; auto.
    + assert (Hlt : (j < i)%nat) by lia.
      pose proof (ForallOrdPairs_nth _ _ H1 j i d c Hlt Hj Hi) as Hd.
      pose proof (ForallOrdPairs_nth _ _ H2 j i d c Hlt Hj Hi) as Ho.
      apply v1_disjoint_sym. destruct Hs as [Hs|Hs]; auto.
  - assert (E : fst (V1.collect_candidates v1_honorific_config
                       [24179; 23433; 21733; 21733; 65292; 24179; 23433] 0
                       [24179; 23433; 21733; 21733; 65292; 24179; 23433])
                = [([24179; 23433; 21733], 0, 3, 190, true, 0);
                   ([24179; 23433], 0, 2, 130, true, 0)])
      by (vm_compute; reflexivity).
    rewrite E. intros H. inversion H as [|c l Hc Hl]; subst.
    inversion Hc as [|d l' Hd Hl']; subst. unfold v1_disjoint in Hd. lia.
Qed.

Lemma legacy_plain_candidates_disjoint_witness :
  v1_disjoint ([24179; 23433; 21733], 3, 6, 110, true, 0)
              ([24179; 23433], 0, 2, 130, false, 0).
Proof.
  apply (proj1 (legacy_plain_candidates_disjoint v1_honorific_config
                  [24179; 23433; 65292; 24179; 23433; 21733; 21733] 0
                  [24179; 23433; 65292; 24179; 23433; 21733; 21733])
           0%nat 1%nat).
  - discriminate.
  - vm_compute. reflexivity.
  - vm_compute. reflexivity.
  - right. reflexivity.
Defined.

Lemma dict_set_In_pair {V : Type} (d : list (str * V)) (k : str) (v : V)
    (k' : str) (v' : V) :
  In (k', v') (dict_set d k v) -> In (k', v') d \/ (k' = k /\ v' = v).
Proof.
  induction d as [|[k0 v0] d IH]; simpl.
  - intros [H|[]]. injection H as <- <-. auto.
  - destruct (str_eqb k k0) eqn:E; simpl.
    + apply str_eqb_eq in E. subst k0.
      intros [H|H]; [injection H as <- <-|]; auto.
    + intros [H|H]; [auto|]. destruct (IH H) as [H'|H']; auto.
Qed.

(** The loop over the sorted legacy candidates only adds entries that map a
    rendering of the format at an index not below zero to the word of one of
    the candidates. *)
Lemma v1_assign_fold_map (cfg : V1.NameGuardConfig)
    (l : list V1.candidate) :
  forall acc : V1.Locals * list replacement * list (Z * Z),
    0 <= V1.name_index (fst (fst acc)) ->
    0 <= V1.name_index
           (fst (fst (fold_left (V1.assign_placeholder cfg) l acc)))
    /\ forall p n,
         In (p, n)
            (V1.name_map
               (fst (fst (fold_left (V1.assign_placeholder cfg) l acc)))) ->
         In (p, n) (V1.name_map (fst (fst acc)))
         \/ exists c i, In c l /\ 0 <= i
                        /\ p = V1.name_placeholder_format cfg i
                        /\ n = v1_word c.
Proof.
  induction l as [|c l IH]; intros [[st rs] pr] Hidx; cbn [fold_left fst].
  - split; [exact Hidx | auto].
  - assert (Hstep :
      0 <= V1.name_index
             (fst (fst (V1.assign_placeholder cfg (st, rs, pr) c)))
      /\ forall p n,
           In (p, n)
              (V1.name_map
                 (fst (fst (V1.assign_placeholder cfg (st, rs, pr) c)))) ->
           In (p, n) (V1.name_map st)
           \/ exists i, 0 <= i /\ p = V1.name_placeholder_format cfg i
                        /\ n = v1_word c).
    { cbn [fst] in Hidx. unfold V1.assign_placeholder.
      destruct c as [[[[[word s] e] sc] hs] idx].
      destruct (dict_get (V1.name_to_placeholder st) word); cbn [fst];
        [split; [exact Hidx | auto]|].
      cbn [V1.name_index V1.name_map]. split; [lia|].
      intros p n H. apply dict_set_In_pair in H.
      destruct H as [H|[-> ->]]; [left; exact H|].
      right. exists (V1.name_index st). auto. }
    destruct Hstep as [Hi Hm].
    destruct (IH (V1.assign_placeholder cfg (st, rs, pr) c) Hi)
      as [Hi' Hm'].
    split; [exact Hi'|].
    intros p n H. destruct (Hm' p n H) as [H'|(c' & i & Hc' & Hi0 & Hp & Hn)].
    + destruct (Hm p n H') as [H''|(i & Hi0 & Hp & Hn)]; [left; exact H''|].
      right. exists c, i. split; [left; reflexivity|auto].
    + right. exists c', i. split; [right; exact Hc'|auto].
Qed.

Lemma v1_process_part_map (cfg : V1.NameGuardConfig) (text : str)
    (part_idx : Z) (part : str) (st : V1.Locals) :
  0 <= V1.name_index st ->
  0 <= V1.name_index (V1.process_part cfg text part_idx part st)
  /\ forall p n,
       In (p, n) (V1.name_map (V1.process_part cfg text part_idx part st)) ->
       In (p, n) (V1.name_map st)
       \/ exists c i,
            In c (fst (V1.collect_candidates cfg text part_idx part))
            /\ 0 <= i /\ p = V1.name_placeholder_format cfg i
            /\ n = v1_word c.
Proof.
  intros Hidx. unfold V1.process_part.
  destruct (V1.collect_candidates cfg text part_idx part)
    as [cands processed].
  pose proof (v1_assign_fold_map cfg (V1.sort_candidates cands)
                (st, [], processed) Hidx) as H.
  destruct (fold_left (V1.assign_placeholder cfg) (V1.sort_candidates cands)
              (st, [], processed)) as [[st1 rs] pr].
  cbn [fst V1.name_index V1.name_map] in *.
  destruct H as [Hi Hm]. split; [exact Hi|].
  intros p n Hin. destruct (Hm p n Hin) as [H|(c & i & Hc & Hrest)];
    [left; exact H|].
  right. exists c, i. split; [|exact Hrest].
  unfold V1.sort_candidates in Hc.
  eapply Permutation_in; [|exact Hc].
  apply Permutation_sym. apply sorted_by_perm.
Qed.

(** What holds of every pair of a format rendering and a candidate's word,
    for the candidates of any part, holds of every entry of the map the
    legacy loop over the parts builds. *)
Lemma v1_parts_loop_map (cfg : V1.NameGuardConfig) (text : str)
    (Q : str -> str -> Prop) (parts : list str) :
  (forall part part_idx c i,
      In part parts ->
      In c (fst (V1.collect_candidates cfg text part_idx part)) ->
      0 <= i -> Q (V1.name_placeholder_format cfg i) (v1_word c)) ->
  forall part_idx st,
    0 <= V1.name_index st ->
    (forall p n, In (p, n) (V1.name_map st) -> Q p n) ->
    forall p n,
      In (p, n) (V1.name_map (V1.parts_loop cfg text parts part_idx st)) ->
      Q p n.
Proof.
  induction parts as [|part parts IH]; intros Hc part_idx st Hidx Hst;
    cbn [V1.parts_loop]; [exact Hst|].
  destruct (v1_process_part_map cfg text part_idx part st Hidx) as [Hi Hm].
  apply IH.
  - intros part' idx' c i Hp. apply Hc. right. exact Hp.
  - exact Hi.
  - intros p n Hin. destruct (Hm p n Hin) as [H|(c & i & Hin' & Hi0 & -> & ->)].
    + apply Hst. exact H.
    + apply (Hc part part_idx); [left; reflexivity | exact Hin' | exact Hi0].
Qed.

(** X21: every entry of the name map the legacy [extract_and_replace_names]
    returns maps a rendering of the placeholder format, at an index not below
    zero, to a string of one to three CJK characters that occurs in the input
    text and is allow-listed or else neither strongly excluded nor
    deny-listed. *)
Theorem legacy_returned_names_sound (cfg : V1.NameGuardConfig)
    (text sep_marker out : str) (nm : list (str * str)) :
  V1.extract_and_replace_names cfg text sep_marker = Some (out, nm) ->
  forall p n,
    In (p, n) nm ->
    (exists i, 0 <= i /\ p = V1.name_placeholder_format cfg i)
    /\ Forall (fun ch => is_cjk ch = true) n
    /\ 1 <= len n <= 3
    /\ occurs n text
    /\ v1_passes_gates cfg n.
Proof.
  intros Hex. unfold V1.extract_and_replace_names in Hex.
  destruct (split text sep_marker) as [parts|] eqn:Hsp; [|discriminate].
  injection Hex as <- <-.
  apply (v1_parts_loop_map cfg text
           (fun p n =>
              (exists i, 0 <= i /\ p = V1.name_placeholder_format cfg i)
              /\ Forall (fun ch => is_cjk ch = true) n
              /\ 1 <= len n <= 3
              /\ occurs n text
              /\ v1_passes_gates cfg n) parts).
  - intros part part_idx c i Hp Hc Hi.
    pose proof (v1_collect_ok cfg text part_idx part) as Hok.
    rewrite Forall_forall in Hok.
    destruct (Hok c Hc) as (Hr & _ & _ & Hg).
    destruct c as [[[[[word s] e] sc] hs] idx].
    cbn [v1_word] in *. unfold v1_candidate_ok in Hr.
    destruct Hr as (R1 & R2 & R3 & R4 & R5 & R6).
    split; [exists i; auto|]. split; [exact R5|]. split; [exact R6|].
    split; [|exact Hg].
    apply (occurs_trans _ part); [|eapply split_occurs; eassumption].
    rewrite <- R4. apply slice_occurs; lia.
  - cbn. lia.
  - intros p n [].
Qed.

Lemma legacy_returned_names_sound_witness :
  (exists i, 0 <= i
             /\ default_format 1
                = V1.name_placeholder_format v1_honorific_config i)
  /\ Forall (fun ch => is_cjk ch = true) [24179; 23433]
  /\ 1 <= len [24179; 23433] <= 3
  /\ occurs [24179; 23433]
            [24179; 23433; 65292; 24179; 23433; 21733; 21733]
  /\ v1_passes_gates v1_honorific_config [24179; 23433].
Proof.
  apply (legacy_returned_names_sound v1_honorific_config
           [24179; 23433; 65292; 24179; 23433; 21733; 21733] sep_default
           (default_format 1 ++ [65292] ++ default_format 0 ++ [21733])
           [(default_format 0, [24179; 23433; 21733]);
            (default_format 1, [24179; 23433])]).
  - vm_compute. reflexivity.
  - right. left. reflexivity.
Defined.

Lemma ForallOrdPairs_map_inv {A B : Type} (f : A -> B) (R : B -> B -> Prop)
    (l : list A) :
  ForallOrdPairs R (map f l) -> ForallOrdPairs (fun a b => R (f a) (f b)) l.
Proof.
  induction l as [|a l IH]; cbn [map]; intros H; [constructor|].
  inversion H as [|? ? Ha Hl]; subst. constructor; [|auto].
  exact (proj1 (Forall_map f (R (f a)) l) Ha).
Qed.

(** The loop over the sorted legacy candidates appends one replacement per
    candidate, in their order and with their spans, and every key it adds to
    the map is the placeholder of one of these replacements. *)
Lemma v1_assign_fold_replacements (cfg : V1.NameGuardConfig)
    (l : list V1.candidate) :
  forall acc : V1.Locals * list replacement * list (Z * Z),
    exists rsnew,
      snd (fst (fold_left (V1.assign_placeholder cfg) l acc))
      = snd (fst acc) ++ rsnew
      /\ map fst rsnew = map v1_span l
      /\ V1.replaced_parts
           (fst (fst (fold_left (V1.assign_placeholder cfg) l acc)))
         = V1.replaced_parts (fst (fst acc))
      /\ forall k,
           In k (map fst
                   (V1.name_map
                      (fst (fst (fold_left (V1.assign_placeholder cfg) l
                                           acc))))) ->
           In k (map fst (V1.name_map (fst (fst acc))))
           \/ In k (map snd rsnew).
Proof.
  induction l as [|c l IH]; intros [[st rs] pr]; cbn [fold_left fst snd].
  - exists []. rewrite app_nil_r. split; [reflexivity|].
    split; [reflexivity|]. split; [reflexivity | auto].
  - assert (Hstep : exists ph,
              snd (fst (V1.assign_placeholder cfg (st, rs, pr) c))
              = rs ++ [(fst (v1_span c), snd (v1_span c), ph)]
              /\ V1.replaced_parts
                   (fst (fst (V1.assign_placeholder cfg (st, rs, pr) c)))
                 = V1.replaced_parts st
              /\ forall k,
                   In k (map fst
                           (V1.name_map
                              (fst (fst (V1.assign_placeholder
                                           cfg (st, rs, pr) c))))) ->
                   In k (map fst (V1.name_map st)) \/ k = ph).
    { unfold V1.assign_placeholder.
      destruct c as [[[[[word s] e] sc] hs] idx]. cbn [v1_span fst snd].
      destruct (dict_get (V1.name_to_placeholder st) word) as [ph|].
      - exists ph. cbn [fst snd]. split; [reflexivity|].
        split; [reflexivity | auto].
      - exists (V1.name_placeholder_format cfg (V1.name_index st)).
        cbn [fst snd V1.name_map V1.replaced_parts].
        split; [reflexivity|]. split; [reflexivity|].
        intros k Hk. apply dict_set_keys in Hk. tauto. }
    destruct Hstep as (ph & Hrs & Hrp & Hkeys).
    destruct (IH (V1.assign_placeholder cfg (st, rs, pr) c))
      as (rsnew & E & Hsp & Hrp' & Hk).
    exists ((fst (v1_span c), snd (v1_span c), ph) :: rsnew).
    split; [rewrite E, Hrs, <- app_assoc; reflexivity|].
    split; [|split; [congruence|]].
    + cbn [map fst]. rewrite Hsp. f_equal. destruct (v1_span c); reflexivity.
    + intros k Hin. destruct (Hk k Hin) as [H|H].
      * destruct (Hkeys k H) as [H'| ->]; [left; exact H'|].
        right. left. reflexivity.
      * right. right. exact H.
Qed.

Lemma v1_sort_replacements_desc (rs : list replacement) :
  ForallOrdPairs (fun a b => fst (fst b) <= fst (fst a))
                 (V1.sort_replacements rs).
Proof.
  pose proof (sorted_by_in_order
                (fun y x : replacement => fst (fst x) <? fst (fst y))) as H.
  assert (Ho : ForallOrdPairs
                 (in_order (fun y x : replacement =>
                              fst (fst x) <? fst (fst y)))
                 (V1.sort_replacements rs)).
  { apply H.
    - intros x y E. apply Z.ltb_lt in E. apply Z.ltb_ge. lia.
    - intros x y z E. apply Z.ltb_lt in E.
      destruct (fst (fst y) <? fst (fst x)) eqn:E1; [left; reflexivity|].
      right. apply Z.ltb_ge in E1. apply Z.ltb_lt. lia. }
  clear H. eapply ForallOrdPairs_impl; [|exact Ho].
  intros a b Hab. unfold in_order in Hab. apply Z.ltb_ge in Hab. lia.
Qed.

(** When no two candidates of the part share a position, the replacements
    of the part, in the order the legacy rewrite applies them, descend
    through the part without touching each other. *)
Lemma v1_replacements_chain (part : str) (cands : list V1.candidate)
    (rs : list replacement) :
  Forall (v1_candidate_ok part) cands ->
  ForallOrdPairs v1_disjoint cands ->
  map fst rs = map v1_span cands ->
  desc_chain (len part) (V1.sort_replacements rs).
Proof.
  intros Hok Hdis Hsp.
  assert (Hperm : Permutation rs (V1.sort_replacements rs))
    by apply sorted_by_perm.
  apply desc_chain_build.
  - eapply Permutation_Forall; [exact Hperm|].
    apply (proj1 (Forall_map fst
                    (fun p => 0 <= fst p /\ fst p < snd p
                              /\ snd p <= len part) rs)).
    rewrite Hsp. apply (proj2 (Forall_map v1_span _ cands)).
    eapply Forall_impl; [|exact Hok].
    intros [[[[[word s] e] sc] hs] idx] H. unfold v1_candidate_ok in H.
    cbn [v1_span fst snd]. lia.
  - apply v1_sort_replacements_desc.
  - apply (ForallOrdPairs_perm disjoint_spans) with (l := rs);
      [unfold disjoint_spans; tauto | exact Hperm |].
    apply (ForallOrdPairs_map_inv fst
             (fun p q => snd p <= fst q \/ snd q <= fst p)).
    rewrite Hsp. apply ForallOrdPairs_map.
    eapply ForallOrdPairs_impl; [|exact Hdis].
    intros [[[[[w1 s1] e1] sc1] h1] i1] [[[[[w2 s2] e2] sc2] h2] i2] H.
    unfold v1_disjoint in H. cbn [v1_span fst snd]. exact H.
Qed.

Lemma v1_process_part_keys_occur (cfg : V1.NameGuardConfig) (text : str)
    (part_idx : Z) (part : str) (st : V1.Locals) :
  ForallOrdPairs v1_disjoint
    (fst (V1.collect_candidates cfg text part_idx part)) ->
  v1_keys_occur st ->
  v1_keys_occur (V1.process_part cfg text part_idx part st).
Proof.
  intros Hdis Hinv.
  pose proof (v1_collect_ok cfg text part_idx part) as Hok.
  unfold V1.process_part.
  destruct (V1.collect_candidates cfg text part_idx part)
    as [cands processed].
  cbn [fst] in Hdis, Hok.
  assert (Hperm : Permutation cands (V1.sort_candidates cands))
    by apply sorted_by_perm.
  destruct (v1_assign_fold_replacements cfg (V1.sort_candidates cands)
              (st, [], processed)) as (rsnew & Hrs & Hsp & Hrp & Hkeys).
  destruct (fold_left (V1.assign_placeholder cfg) (V1.sort_candidates cands)
              (st, [], processed)) as [[st1 rs] pr].
  cbn [fst snd app] in Hrs, Hrp, Hkeys. subst rsnew.
  intros k Hk. cbn [V1.name_map V1.replaced_parts] in *. rewrite Hrp.
  destruct (Hkeys k Hk) as [Hold|Hnew].
  - destruct (Hinv k Hold) as (rp & Hin & Hocc).
    exists rp. split; [apply in_or_app; left; exact Hin | exact Hocc].
  - exists (fold_left replace_span (V1.sort_replacements rs) part).
    split; [apply in_or_app; right; left; reflexivity|].
    apply in_map_iff in Hnew. destruct Hnew as ([[s e] p] & Hp & Hin).
    cbn [snd] in Hp. subst p.
    apply (placeholder_occurs _ (len part) part s e k);
      [|apply Z.le_refl|].
    + apply (v1_replacements_chain part (V1.sort_candidates cands));
        [| |exact Hsp].
      * eapply Permutation_Forall; [exact Hperm|].
        eapply Forall_impl; [|exact Hok]. intros c Hc. apply Hc.
      * apply (ForallOrdPairs_perm v1_disjoint) with (l := cands);
          [apply v1_disjoint_sym | exact Hperm | exact Hdis].
    + eapply Permutation_in; [apply sorted_by_perm | exact Hin].
Qed.

Lemma v1_parts_loop_keys_occur (cfg : V1.NameGuardConfig) (text : str)
    (parts : list str) :
  forall part_idx st,
    v1_parts_disjoint cfg text part_idx parts ->
    v1_keys_occur st ->
    v1_keys_occur (V1.parts_loop cfg text parts part_idx st).
Proof.
  induction parts as [|part parts IH]; intros part_idx st Hdis H;
    cbn [V1.parts_loop]; [exact H|].
  apply IH.
  - intros k p Hk. specialize (Hdis (S k) p Hk).
    replace (part_idx + 1 + Z.of_nat k) with (part_idx + Z.of_nat (S k))
      by lia.
    exact Hdis.
  - apply v1_process_part_keys_occur; [|exact H].
    specialize (Hdis 0%nat part eq_refl).
    rewrite Z.add_0_r in Hdis. exact Hdis.
Qed.

(** X22: when in no part two of the collected candidates share a position,
    every key of the name map the legacy [extract_and_replace_names] returns
    occurs in the rewritten text.  Without that the rewrite can cut a
    placeholder it has just written: for 平安哥哥，平安 with the suffix 哥,
    平安哥 and 平安 are both replaced from position 0, the text comes back
    as the second placeholder followed by the tail NAME_0>>哥，平安 of the
    first, and the key of 平安哥 occurs nowhere in it. *)
Theorem legacy_placeholders_occur (cfg : V1.NameGuardConfig)
    (text sep_marker : str) :
  (forall (parts : list str) (out : str) (nm : list (str * str)),
     split text sep_marker = Some parts ->
     v1_parts_disjoint cfg text 0 parts ->
     V1.extract_and_replace_names cfg text sep_marker = Some (out, nm) ->
     forall p n, In (p, n) nm -> occurs p out)
  /\ V1.extract_and_replace_names v1_honorific_config
       [24179; 23433; 21733; 21733; 65292; 24179; 23433] sep_default
     = Some (default_format 1 ++ skipn 2 (default_format 0)
               ++ [21733; 65292; 24179; 23433],
             [(default_format 0, [24179; 23433; 21733]);
              (default_format 1, [24179; 23433])])
  /\ ~ occurs (default_format 0)
         (default_format 1 ++ skipn 2 (default_format 0)
            ++ [21733; 65292; 24179; 23433]).
Proof.
  split; [|split].
  - intros parts out nm Hsp Hdis Hex p n Hin.
    unfold V1.extract_and_replace_names in Hex. rewrite Hsp in Hex.
    injection Hex as <- <-.
    assert (H0 : v1_keys_occur
                   {| V1.name_map := []; V1.name_to_placeholder := [];
                      V1.name_index := 0; V1.replaced_parts := [] |})
      by (intros k []).
    pose proof (v1_parts_loop_keys_occur cfg text parts 0 _ Hdis H0) as H.
    destruct (H p) as (rp & Hrp & Hocc).
    + apply in_map_iff. exists (p, n). auto.
    + eapply occurs_join; eassumption.
  - vm_compute. reflexivity.
  - intros H. apply contains_occurs in H. vm_compute in H. discriminate.
Qed.

Lemma legacy_placeholders_occur_witness :
  occurs (default_format 1)
         (default_format 1 ++ [65292] ++ default_format 0 ++ [21733]).
Proof.
  apply (proj1 (legacy_placeholders_occur v1_honorific_config
                  [24179; 23433; 65292; 24179; 23433; 21733; 21733]
                  sep_default)
           [[24179; 23433; 65292; 24179; 23433; 21733; 21733]]
           (default_format 1 ++ [65292] ++ default_format 0 ++ [21733])
           [(default_format 0, [24179; 23433; 21733]);
            (default_format 1, [24179; 23433])])
    with (n := [24179; 23433]).
  - vm_compute. reflexivity.
  - intros k part Hk. destruct k as [|k].
    + injection Hk as <-. change (0 + Z.of_nat 0) with 0.
      replace (fst (V1.collect_candidates v1_honorific_config
                      [24179; 23433; 65292; 24179; 23433; 21733; 21733] 0
                      [24179; 23433; 65292; 24179; 23433; 21733; 21733]))
        with [([24179; 23433; 21733], 3, 6, 110, true, 0);
              ([24179; 23433], 0, 2, 130, false, 0)]
        by (vm_compute; reflexivity).
      apply FOP_cons.
      * apply Forall_cons; [unfold v1_disjoint; lia | apply Forall_nil].
      * apply FOP_cons; [apply Forall_nil | apply FOP_nil].
    + destruct k; discriminate.
  - vm_compute. reflexivity.
  - right. left. reflexivity.
Defined.
